(** * The Terraform clean-up pipeline of [server.js]

    A shallow embedding of the text transformation that the [/upload]
    handler applies to the generated Terraform code, of the provider
    resolution that precedes it, of the [/edit], [/lint] and
    [/estimate-cost] handlers, of the server state over a sequence of
    requests and of [editTerraformCode] in
    [services/geminiEditorAgent.js], followed by the properties proved
    about them.

    The source works on JavaScript strings with regular expressions.
    Strings are modelled as lists of UTF-16 code units, and a regular
    expression as a syntax tree run by a backtracking matcher that
    follows the matcher of the ECMAScript specification (continuation
    passing, first result in priority order). *)

From Stdlib Require Import String Ascii.
From Stdlib Require Import NArith ZArith Bool Arith Lia List.
Import ListNotations.
Open Scope string_scope.
Open Scope list_scope.

Set Implicit Arguments.

(** ** Strings *)

Definition char := N.
Definition text := list char.

Definition dq : char := 34%N.        (* the double quote *)
Definition nl : char := 10%N.        (* line feed *)
Definition lbrace : char := 123%N.
Definition rbrace : char := 125%N.

(** String literals of this file are read through [str].  A Rocq string
    cannot hold a bare double quote, so in a literal a backquote stands
    for the double quote: in [str "a = `b`"] the value b is quoted.  The
    expressions of the source are quoted in comments the same way, with
    a space between a star and a closing parenthesis. *)
Definition char_of_ascii (a : ascii) : char :=
  let n := N_of_ascii a in if N.eqb n 96%N then dq else n.

Fixpoint str (s : string) : text :=
  match s with
  | EmptyString => []
  | String a s' => char_of_ascii a :: str s'
  end.

(** Lines joined by line feeds, the last one included. *)
Fixpoint lines (l : list string) : text :=
  match l with
  | [] => []
  | s :: l' => str s ++ nl :: lines l'
  end.

Definition char_eqb (a b : char) : bool := N.eqb a b.

Fixpoint text_eqb (a b : text) : bool :=
  match a, b with
  | [], [] => true
  | x :: a', y :: b' => char_eqb x y && text_eqb a' b'
  | _, _ => false
  end.

(** [WhiteSpace] and [LineTerminator] of ECMAScript: the characters of
    [\s] and the ones [trim] removes. *)
Definition is_line_terminator (c : char) : bool :=
  (N.eqb c 10 || N.eqb c 13 || N.eqb c 8232 || N.eqb c 8233)%N.

Definition is_space (c : char) : bool :=
  (is_line_terminator c
   || N.eqb c 9 || N.eqb c 11 || N.eqb c 12 || N.eqb c 32 || N.eqb c 160
   || N.eqb c 5760 || (N.leb 8192 c && N.leb c 8202)
   || N.eqb c 8239 || N.eqb c 8287 || N.eqb c 12288 || N.eqb c 65279)%N.

Fixpoint starts_with (p s : text) : bool :=
  match p, s with
  | [], _ => true
  | x :: p', y :: s' => char_eqb x y && starts_with p' s'
  | _ :: _, [] => false
  end.

(** [s.indexOf(p)], with -1 for no occurrence. *)
Fixpoint index_from (p s : text) (i : Z) : Z :=
  if starts_with p s then i
  else match s with
       | [] => (-1)%Z
       | _ :: s' => index_from p s' (i + 1)%Z
       end.

Definition indexOf (s p : text) : Z := index_from p s 0%Z.

(** [s.lastIndexOf(p)]. *)
Fixpoint last_index_from (p s : text) (i : Z) (found : Z) : Z :=
  let found' := if starts_with p s then i else found in
  match s with
  | [] => found'
  | _ :: s' => last_index_from p s' (i + 1)%Z found'
  end.

Definition lastIndexOf (s p : text) : Z := last_index_from p s 0%Z (-1)%Z.

(** [s.substring(a, b)] and [s.substring(a)]: indices are clamped to the
    string and swapped when out of order. *)
Definition clamp (s : text) (i : Z) : nat :=
  Z.to_nat (Z.min (Z.max 0 i) (Z.of_nat (length s))).

Definition substring (s : text) (a b : Z) : text :=
  let x := clamp s a in
  let y := clamp s b in
  firstn (Nat.max x y - Nat.min x y) (skipn (Nat.min x y) s).

Definition substring_from (s : text) (a : Z) : text :=
  skipn (clamp s a) s.

(** [s.split(sep)[0]] for a one-character separator: the text before
    its first occurrence. *)
Fixpoint split_head (sep : char) (s : text) : text :=
  match s with
  | [] => []
  | c :: s' => if char_eqb c sep then [] else c :: split_head sep s'
  end.

Fixpoint trim_start (s : text) : text :=
  match s with
  | [] => []
  | c :: s' => if is_space c then trim_start s' else s
  end.

Definition trim_end (s : text) : text := rev (trim_start (rev s)).

Definition trim (s : text) : text := trim_end (trim_start s).

(** [toLowerCase] on the letters A-Z.  Code units outside that range are
    left as they are; none of them lower-cases to a letter of the
    provider names. *)
Definition lower_char (c : char) : char :=
  if (N.leb 65 c && N.leb c 90)%N then (c + 32)%N else c.

Definition toLowerCase (s : text) : text := map lower_char s.

(** ** Regular expressions *)

Inductive citem :=
| CChar (c : char)
| CRange (lo hi : char)
| CSpace                      (* \s *)
| CNonSpace.                  (* \S *)

Inductive re :=
| Eps
| Chr (c : char)
| Cls (neg : bool) (items : list citem)     (* [...] and [^...] *)
| Dot
| Bol                                       (* ^ *)
| Eol                                       (* $ *)
| Seq (a b : re)
| Alt (a b : re)
| Group (i : nat) (a : re)                  (* capturing parentheses *)
| Quant (min : nat) (max : option nat) (greedy : bool) (a : re).

Record RegExp := mkRegExp { source : re; multiline : bool; dotAll : bool }.

Definition citem_matches (it : citem) (c : char) : bool :=
  match it with
  | CChar x => char_eqb x c
  | CRange lo hi => N.leb lo c && N.leb c hi
  | CSpace => is_space c
  | CNonSpace => negb (is_space c)
  end.

Definition cls_matches (neg : bool) (items : list citem) (c : char) : bool :=
  xorb neg (existsb (fun it => citem_matches it c) items).

(** The matcher state: the character before the current position (for
    [^]), the input from the current position on, and the captures. *)
Record mstate := mkState { prev : option char; rest : text; caps : list (nat * text) }.

Definition cont := mstate -> option mstate.

Definition step_char (p : char -> bool) (k : cont) (st : mstate) : option mstate :=
  match rest st with
  | c :: r => if p c then k (mkState (Some c) r (caps st)) else None
  | [] => None
  end.

Definition at_bol (multi : bool) (st : mstate) : bool :=
  match prev st with
  | None => true
  | Some c => multi && is_line_terminator c
  end.

Definition at_eol (multi : bool) (st : mstate) : bool :=
  match rest st with
  | [] => true
  | c :: _ => multi && is_line_terminator c
  end.

(** The text between two states of one run of the matcher. *)
Definition consumed (st st' : mstate) : text :=
  firstn (length (rest st) - length (rest st')) (rest st).

Definition set_cap (i : nat) (w : text) (st : mstate) : mstate :=
  mkState (prev st) (rest st) ((i, w) :: caps st).

Fixpoint get_cap (i : nat) (cs : list (nat * text)) : option text :=
  match cs with
  | [] => None
  | (j, w) :: cs' => if Nat.eqb i j then Some w else get_cap i cs'
  end.

(** RepeatMatcher of ECMAScript (22.2.2.3.1): an iteration that matches
    the empty string once [min] is reached is rejected; a greedy
    quantifier tries one more iteration first, a lazy one tries the
    continuation first.  [fuel] bounds the number of iterations.  The
    captures of the groups inside the repeated expression are not
    cleared at the start of an iteration: the only group of the source
    under a quantifier is the one of [(\n\s* ){2,}], and its capture
    is never read. *)
Fixpoint repeat_matcher (fuel : nat) (m : cont -> mstate -> option mstate)
    (min : nat) (max : option nat) (greedy : bool) (k : cont) (x : mstate)
    : option mstate :=
  match fuel with
  | O => None
  | S fuel' =>
      match max with
      | Some O => k x
      | _ =>
          let d := fun y : mstate =>
            if Nat.eqb min 0 && Nat.eqb (length (rest y)) (length (rest x))
            then None
            else repeat_matcher fuel' m (Nat.pred min) (option_map Nat.pred max) greedy k y in
          if negb (Nat.eqb min 0) then m d x
          else if greedy then
            match m d x with Some z => Some z | None => k x end
          else
            match k x with Some z => Some z | None => m d x end
      end
  end.

Fixpoint rmatch (multi dotall : bool) (r : re) (k : cont) (st : mstate) {struct r}
    : option mstate :=
  match r with
  | Eps => k st
  | Chr c => step_char (char_eqb c) k st
  | Cls neg items => step_char (cls_matches neg items) k st
  | Dot => step_char (fun c => dotall || negb (is_line_terminator c)) k st
  | Bol => if at_bol multi st then k st else None
  | Eol => if at_eol multi st then k st else None
  | Seq a b => rmatch multi dotall a (rmatch multi dotall b k) st
  | Alt a b =>
      match rmatch multi dotall a k st with
      | Some z => Some z
      | None => rmatch multi dotall b k st
      end
  | Group i a =>
      rmatch multi dotall a (fun st' => k (set_cap i (consumed st st') st')) st
  | Quant min max greedy a =>
      repeat_matcher (min + length (rest st) + 1) (rmatch multi dotall a)
                     min max greedy k st
  end.

(** One attempt at one position. *)
Definition exec_at (R : RegExp) (p : option char) (s : text) : option mstate :=
  rmatch (multiline R) (dotAll R) (source R) (fun st => Some st) (mkState p s []).

(** What [exec], [match] and the callback of [replace] see of a match. *)
Record match_result := mkMatch { m_index : nat; m_text : text; m_caps : list (nat * text) }.

Definition result_at (i : nat) (s : text) (st' : mstate) : match_result :=
  mkMatch i (firstn (length s - length (rest st')) s) (caps st').

(** [s.match(R)] for a regular expression without the g flag: the
    leftmost position at which an attempt succeeds. *)
Fixpoint search_from (R : RegExp) (p : option char) (s : text) (i : nat)
    : option match_result :=
  match exec_at R p s with
  | Some st' => Some (result_at i s st')
  | None =>
      match s with
      | [] => None
      | c :: s' => search_from R (Some c) s' (S i)
      end
  end.

Definition jsmatch (s : text) (R : RegExp) : option match_result :=
  search_from R None s 0.

Definition test (R : RegExp) (s : text) : bool :=
  match jsmatch s R with Some _ => true | None => false end.

(** The n-th capture of a match, the empty text when the group took no
    part in it. *)
Definition group (n : nat) (m : match_result) : text :=
  match get_cap n (m_caps m) with Some w => w | None => [] end.

(** The scan of a regular expression with the g flag over a string, as
    [replace] and [matchAll] do it: an attempt at each position from the
    left, the next attempt after the end of the last match.  [skip]
    counts the characters of the last match that are still to be passed
    over; after an empty match the scan moves on by one character.  The
    result lists the matches and, between them, the characters that
    belong to no match. *)
Inductive piece :=
| Kept (c : char)
| Hit (m : match_result).

Fixpoint scan (R : RegExp) (skip : nat) (p : option char) (s : text) (i : nat)
    : list piece :=
  match skip with
  | S n =>
      match s with
      | [] => []
      | c :: s' => scan R n (Some c) s' (S i)
      end
  | O =>
      match exec_at R p s with
      | Some st' =>
          Hit (result_at i s st') ::
          match length s - length (rest st'), s with
          | _, [] => []
          | O, c :: s' => Kept c :: scan R 0 (Some c) s' (S i)
          | S n, c :: s' => scan R n (Some c) s' (S i)
          end
      | None =>
          match s with
          | [] => []
          | c :: s' => Kept c :: scan R 0 (Some c) s' (S i)
          end
      end
  end.

Definition fill (f : match_result -> text) (x : piece) : text :=
  match x with
  | Kept c => [c]
  | Hit m => f m
  end.

(** [s.replace(R, f)] with a callback, and [s.replace(R, by)] with a
    replacement text (none of the replacement texts of the source holds
    a dollar pattern). *)
Definition replace_fn (s : text) (R : RegExp) (f : match_result -> text) : text :=
  flat_map (fill f) (scan R 0 None s 0).

Definition replace (s : text) (R : RegExp) (by_ : text) : text :=
  replace_fn s R (fun _ => by_).

(** The matched texts, in order: what the callback of [replace] is
    called with. *)
Definition hit_text (x : piece) : list text :=
  match x with
  | Kept _ => []
  | Hit m => [m_text m]
  end.

Definition matches (s : text) (R : RegExp) : list text :=
  flat_map hit_text (scan R 0 None s 0).

(** Building blocks for writing the expressions of the source. *)
Definition cat (l : list re) : re := fold_right Seq Eps l.
Definition lit (s : string) : re := cat (map Chr (str s)).
Definition star (a : re) : re := Quant 0 None true a.
Definition plus (a : re) : re := Quant 1 None true a.
Definition lazy_star (a : re) : re := Quant 0 None false a.
Definition opt (a : re) : re := Quant 0 (Some 1) true a.
Definition space : re := Cls false [CSpace].
Definition any_char : re := Cls false [CSpace; CNonSpace].      (* [\s\S] *)
Definition not_char (c : char) : re := Cls true [CChar c].

(** ** The regular expressions of [server.js] *)

Definition alts (l : list re) : re :=
  match l with
  | [] => Eps
  | a :: l' => fold_left Alt l' a
  end.

(** [kw\s+`kind`\s+`[^`]+`\s*{]: the opening of a declaration, shared by
    the five block expressions. *)
Definition decl_open (kw kind : string) : list re :=
  [lit kw; plus space; Chr dq; lit kind; Chr dq; plus space;
   Chr dq; plus (not_char dq); Chr dq; star space; Chr lbrace].

(** [/resource\s+`local_file`\s+`[^`]+`\s*{[^}]*}/gs] *)
Definition re_local_file : RegExp :=
  mkRegExp (cat (decl_open "resource" "local_file"
                 ++ [star (not_char rbrace); Chr rbrace])) false true.

(** [/data\s+`archive_file`\s+`[^`]+`\s*{[^}]*}/gs] *)
Definition re_archive_file : RegExp :=
  mkRegExp (cat (decl_open "data" "archive_file"
                 ++ [star (not_char rbrace); Chr rbrace])) false true.

(** [/source_code_hash\s*=\s*filebase64sha256\(.*\)\n?/g] *)
Definition re_source_code_hash : RegExp :=
  mkRegExp (cat [lit "source_code_hash"; star space; lit "="; star space;
                 lit "filebase64sha256("; star Dot; lit ")"; opt (Chr nl)])
           false false.

(** [/(resource\s+`<kind>`\s+`[^`]+`\s*{[\s\S]*?})/g], for the three
    serverless kinds. *)
Definition re_function_block (kind : string) : RegExp :=
  mkRegExp (Group 1 (cat (decl_open "resource" kind
                          ++ [lazy_star any_char; Chr rbrace]))) false false.

Definition re_aws_lambda : RegExp := re_function_block "aws_lambda_function".
Definition re_gcp_function : RegExp := re_function_block "google_cloud_function".
Definition re_azure_function : RegExp := re_function_block "azurerm_function_app".

(** [/^(\s* )resource/m] *)
Definition re_indent : RegExp :=
  mkRegExp (cat [Bol; Group 1 (star space); lit "resource"]) true false.

(** [/runtime\s*=\s*`(python[^`]*|node[^`]*|go[^`]*|java[^`]*|ruby[^`]* )`/] *)
Definition re_runtime : RegExp :=
  mkRegExp (cat [lit "runtime"; star space; lit "="; star space; Chr dq;
                 Group 1 (alts [cat [lit "python"; star (not_char dq)];
                                cat [lit "node"; star (not_char dq)];
                                cat [lit "go"; star (not_char dq)];
                                cat [lit "java"; star (not_char dq)];
                                cat [lit "ruby"; star (not_char dq)]]);
                 Chr dq]) false false.

(** [/handler\s*=\s*`([^`]* )`/] *)
Definition re_handler_value : RegExp :=
  mkRegExp (cat [lit "handler"; star space; lit "="; star space; Chr dq;
                 Group 1 (star (not_char dq)); Chr dq]) false false.

(** [/\s*<name>\s*=\s*.*?\n/g], the line of one attribute. *)
Definition re_attribute_line (name : string) : RegExp :=
  mkRegExp (cat [star space; lit name; star space; lit "="; star space;
                 lazy_star Dot; Chr nl]) false false.

(** [/\s*inline_code\s*{[\s\S]*?}\n/g] *)
Definition re_inline_code : RegExp :=
  mkRegExp (cat [star space; lit "inline_code"; star space; Chr lbrace;
                 lazy_star any_char; Chr rbrace; Chr nl]) false false.

(** [/<name>\s*=\s*`.*?`/], an attribute with a quoted value. *)
Definition re_quoted_attribute (name : string) : RegExp :=
  mkRegExp (cat [lit name; star space; lit "="; star space;
                 Chr dq; lazy_star Dot; Chr dq]) false false.

(** [/(\s* )(function_name\s*=\s*`.*?`|\s*role\s*=\s*[^}\n]* )/] *)
Definition re_fn_name_or_role : RegExp :=
  mkRegExp (cat [Group 1 (star space);
                 Group 2 (Alt (cat [lit "function_name"; star space; lit "="; star space;
                                    Chr dq; lazy_star Dot; Chr dq])
                              (cat [star space; lit "role"; star space; lit "="; star space;
                                    star (Cls true [CChar rbrace; CChar nl])]))])
           false false.

(** [/source_code\s*=\s*(`.*?`|<<EOF[\s\S]*?EOF)/] *)
Definition re_source_code : RegExp :=
  mkRegExp (cat [lit "source_code"; star space; lit "="; star space;
                 Group 1 (Alt (cat [Chr dq; lazy_star Dot; Chr dq])
                              (cat [lit "<<EOF"; lazy_star any_char; lit "EOF"]))])
           false false.

(** [/^\s*<name>\s*=\s*`.*?`\n?/gm] *)
Definition re_app_setting (name : string) : RegExp :=
  mkRegExp (cat [Bol; star space; lit name; star space; lit "="; star space;
                 Chr dq; lazy_star Dot; Chr dq; opt (Chr nl)]) true false.

(** [/^\s*APPINSIGHTS_INSTRUMENTATIONKEY\s*=\s*.*?\n?/gm], the third
    expression of the first strip: its value part is not quoted. *)
Definition re_appinsights_unquoted : RegExp :=
  mkRegExp (cat [Bol; star space; lit "APPINSIGHTS_INSTRUMENTATIONKEY"; star space;
                 lit "="; star space; lazy_star Dot; opt (Chr nl)]) true false.

(** [/(app_settings\s*=\s*{[\s\S]*?})/g] *)
Definition re_app_settings_block : RegExp :=
  mkRegExp (Group 1 (cat [lit "app_settings"; star space; lit "="; star space;
                          Chr lbrace; lazy_star any_char; Chr rbrace])) false false.

(** [/[a-zA-Z0-9_]+=/] *)
Definition re_assignment : RegExp :=
  mkRegExp (cat [plus (Cls false [CRange 97%N 122%N; CRange 65%N 90%N; CRange 48%N 57%N; CChar 95%N]);
                 lit "="]) false false.

(** [/\$\{path\.module\s*$/gm] *)
Definition re_open_path_module : RegExp :=
  mkRegExp (cat [lit "${path.module"; star space; Eol]) true false.

(** [/\$\{([^}]+)\n/g] *)
Definition re_open_interpolation : RegExp :=
  mkRegExp (cat [lit "${"; Group 1 (plus (not_char rbrace)); Chr nl]) false false.

(** [/(\n\s* ){2,}/g] *)
Definition re_empty_lines : RegExp :=
  mkRegExp (Quant 2 None true (Group 1 (cat [Chr nl; star space]))) false false.

(** ** The clean-up of the [/upload] handler *)

(** The optional first capture of [s.match(R)], or a default. *)
Definition capture_or (s : text) (R : RegExp) (default : text) : text :=
  match jsmatch s R with
  | Some m => group 1 m
  | None => default
  end.

(** The indentation of the body of a block, [originalIndent + '  ']. *)
Definition blockContentIndent (block : text) : text :=
  capture_or block re_indent [] ++ str "  ".

(** Insertion of [ins] before the last closing brace, when there is one. *)
Definition insert_before_last_brace (block ins : text) : text :=
  let lastBraceIndex := lastIndexOf block [rbrace] in
  if (lastBraceIndex =? -1)%Z then block
  else substring block 0 lastBraceIndex ++ ins ++ substring_from block lastBraceIndex.

(** The callback for an [aws_lambda_function] block. *)
Definition aws_lambda_block (lambdaBlock : text) : text :=
  let indent := blockContentIndent lambdaBlock in
  let runtime := capture_or lambdaBlock re_runtime (str "python3.9") in
  let handlerValue := capture_or lambdaBlock re_handler_value (str "handler.handler") in
  let handlerFunctionName := split_head 46%N handlerValue in
  let placeholderCode :=
    if starts_with (str "node") runtime then
      str "exports." ++ handlerFunctionName ++
      str " = async (event) => { return { statusCode: 200, body: JSON.stringify(\`OK\`) }; };"
    else if starts_with (str "python") runtime then
      str "def " ++ handlerFunctionName ++
      str "(event, context): return {\`statusCode\`: 200, \`body\`: \`OK\`}"
    else
      str "/* Placeholder code for " ++ handlerValue ++ str " */" in
  let modifiedBlock :=
    replace (replace lambdaBlock (re_attribute_line "filename") [nl])
            re_inline_code [nl] in
  let modifiedBlock :=
    if test (re_quoted_attribute "handler") modifiedBlock then modifiedBlock
    else
      let fnNameOrRoleLineMatch := jsmatch modifiedBlock re_fn_name_or_role in
      let insertPoint :=
        match fnNameOrRoleLineMatch with
        | Some m => (indexOf modifiedBlock (m_text m) + Z.of_nat (length (m_text m)))%Z
        | None => (indexOf modifiedBlock [lbrace] + 1)%Z
        end in
      let currentLineIndent :=
        match fnNameOrRoleLineMatch with
        | Some m => match group 1 m with [] => indent | g => g end
        | None => indent
        end in
      substring modifiedBlock 0 insertPoint ++
      (nl :: currentLineIndent ++ str "handler          = `" ++ handlerValue ++ [dq]) ++
      substring_from modifiedBlock insertPoint in
  if test re_source_code modifiedBlock then modifiedBlock
  else
    insert_before_last_brace modifiedBlock
      (indent ++ str "source_code      = `" ++ placeholderCode ++ [dq; nl]).

(** The callback for a [google_cloud_function] block. *)
Definition gcp_function_block (gcpFunctionBlock : text) : text :=
  let indent := blockContentIndent gcpFunctionBlock in
  let modifiedBlock :=
    replace (replace (replace (replace gcpFunctionBlock
      (re_attribute_line "source_repository") [nl])
      (re_attribute_line "build_environment_variables") [nl])
      (re_attribute_line "source_archive_bucket") [nl])
      (re_attribute_line "source_archive_object") [nl] in
  let modifiedBlock :=
    if test (re_quoted_attribute "source_archive_url") modifiedBlock then modifiedBlock
    else
      insert_before_last_brace modifiedBlock
        (indent ++
         lines ["source_archive_url = `gs://your-dummy-gcp-bucket/dummy-function.zip`"]) in
  if test (re_quoted_attribute "entry_point") modifiedBlock then modifiedBlock
  else
    insert_before_last_brace modifiedBlock
      (indent ++ lines ["entry_point        = `main`"]).

(** The callback for an [app_settings = {...}] block. *)
Definition app_settings_block (appSettingsBlock : text) : text :=
  let cleanedAppSettings :=
    replace (replace (replace appSettingsBlock
      (re_app_setting "WEBSITE_RUN_FROM_PACKAGE") [])
      (re_app_setting "FUNCTIONS_WORKER_RUNTIME") [])
      (re_app_setting "APPINSIGHTS_INSTRUMENTATIONKEY") [] in
  if text_eqb (trim cleanedAppSettings) (str "app_settings = {}")
     || negb (test re_assignment cleanedAppSettings)
  then []
  else appSettingsBlock.

(** The callback for an [azurerm_function_app] block. *)
Definition azure_function_block (azureFunctionBlock : text) : text :=
  let modifiedBlock :=
    replace (replace (replace azureFunctionBlock
      (re_app_setting "WEBSITE_RUN_FROM_PACKAGE") [])
      (re_app_setting "FUNCTIONS_WORKER_RUNTIME") [])
      re_appinsights_unquoted [] in
  replace_fn modifiedBlock re_app_settings_block
             (fun m => app_settings_block (m_text m)).

(** The generic clean-ups, applied for every provider. *)
Definition remove_local_files (code : text) : text := replace code re_local_file [].
Definition remove_archive_files (code : text) : text := replace code re_archive_file [].
Definition remove_source_code_hashes (code : text) : text :=
  replace code re_source_code_hash [].

Definition generic_cleanups (code : text) : text :=
  remove_source_code_hashes (remove_archive_files (remove_local_files code)).

(** The provider-specific clean-up of the serverless blocks. *)
Definition provider_cleanups (cloudProvider code : text) : text :=
  let p := toLowerCase cloudProvider in
  if text_eqb p (str "aws") then
    replace_fn code re_aws_lambda (fun m => aws_lambda_block (m_text m))
  else if text_eqb p (str "gcp") then
    replace_fn code re_gcp_function (fun m => gcp_function_block (m_text m))
  else if text_eqb p (str "azure") then
    replace_fn code re_azure_function (fun m => azure_function_block (m_text m))
  else code.

(** The final clean-ups: unclosed interpolations, empty lines, trim. *)
Definition fix_interpolations (code : text) : text :=
  replace_fn (replace code re_open_path_module (str "${path.module}"))
             re_open_interpolation
             (fun m => str "${" ++ trim (group 1 m) ++ str "}").

Definition collapse_empty_lines (code : text) : text :=
  replace code re_empty_lines [nl; nl].

Definition collapse_and_trim (code : text) : text :=
  trim (collapse_empty_lines code).

Definition final_cleanups (code : text) : text :=
  collapse_and_trim (fix_interpolations code).

(** [cleanedTerraform] as a function of the provider and of the
    generated code. *)
Definition sanitize (cloudProvider terraformCode : text) : text :=
  final_cleanups (provider_cleanups cloudProvider (generic_cleanups terraformCode)).

(** ** Block location *)

(** The five kinds of declaration that the clean-up looks for, each with
    the expression that finds its blocks. *)
Inductive decl_kind :=
| LocalFile
| ArchiveFile
| AwsLambda
| GcpFunction
| AzureFunction.

Definition block_regexp (kind : decl_kind) : RegExp :=
  match kind with
  | LocalFile => re_local_file
  | ArchiveFile => re_archive_file
  | AwsLambda => re_aws_lambda
  | GcpFunction => re_gcp_function
  | AzureFunction => re_azure_function
  end.

Definition keyword_of (kind : decl_kind) : string :=
  match kind with
  | ArchiveFile => "data"
  | _ => "resource"
  end.

Definition label_of (kind : decl_kind) : string :=
  match kind with
  | LocalFile => "local_file"
  | ArchiveFile => "archive_file"
  | AwsLambda => "aws_lambda_function"
  | GcpFunction => "google_cloud_function"
  | AzureFunction => "azurerm_function_app"
  end.

(** The blocks of one kind, as the scan of the text finds them. *)
Definition find_blocks (kind : decl_kind) (code : text) : list text :=
  matches code (block_regexp kind).

(** Opening braces minus closing braces. *)
Fixpoint brace_balance (s : text) : Z :=
  match s with
  | [] => 0%Z
  | c :: s' =>
      ((if char_eqb c lbrace then 1 else if char_eqb c rbrace then -1 else 0)
       + brace_balance s')%Z
  end.

(** ** The handlers *)

(** The state that the handlers share: the two module variables and the
    files written so far (path and content, the last write first). *)
Record server := mkServer {
  lastGeneratedCode : text;
  lastTfFilePath : text;
  disk : list (text * text)
}.

Inductive response :=
| SendText (body : text)                       (* res.type('text/plain').send(body) *)
| SendStatus (code : nat) (body : text)        (* res.status(code).send(body) *)
| SendError (code : nat) (error action : text) (* res.status(code).json({error, action}) *).

Definition supportedProviders : list text := [str "aws"; str "azure"; str "gcp"].

Definition includes (l : list text) (x : text) : bool := existsb (text_eqb x) l.

Fixpoint join (sep : text) (l : list text) : text :=
  match l with
  | [] => []
  | [x] => x
  | x :: l' => x ++ sep ++ join sep l'
  end.

(** A string in a condition: the empty string counts as false. *)
Definition truthy (o : option text) : bool :=
  match o with
  | Some (_ :: _) => true
  | _ => false
  end.

Inductive resolution :=
| UseProvider (cloudProvider : text)
| Rejected (r : response).

Definition value_of (o : option text) : text :=
  match o with
  | Some t => t
  | None => []
  end.

(** The provider detection of [/upload]: [detected] is the
    [cloudProvider] field of the parsed diagram, [query] the
    [cloudProvider] query parameter. *)
Definition resolve_provider (detected query : option text) : resolution :=
  let cloudProvider :=
    if truthy detected then toLowerCase (value_of detected) else str "unknown" in
  if text_eqb cloudProvider (str "unknown") || negb (includes supportedProviders cloudProvider)
  then
    let userProvidedProvider :=
      if truthy query then Some (toLowerCase (value_of query)) else None in
    if truthy userProvidedProvider
       && includes supportedProviders (value_of userProvidedProvider)
    then UseProvider (value_of userProvidedProvider)
    else if truthy userProvidedProvider
            && negb (includes supportedProviders (value_of userProvidedProvider))
    then Rejected (SendError 400
           (str "Unsupported cloud provider specified: '" ++
            value_of userProvidedProvider ++
            str "'. Supported are: " ++ join (str ", ") supportedProviders ++ str ".")
           (str "Please specify a supported cloud provider in the query parameter (e.g., ?cloudProvider=aws)."))
    else Rejected (SendError 400
           (str "Could not confidently identify the cloud provider from the diagram.")
           (str "Please specify the cloud provider manually in the query parameter (e.g., ?cloudProvider=aws). Supported providers are: " ++
            join (str ", ") supportedProviders ++ str "."))
  else UseProvider cloudProvider.

(** [fs.writeFileSync(path, content)], as a write that succeeds: a
    write that throws is not part of this model. *)
Definition write_file (d : list (text * text)) (path content : text) : list (text * text) :=
  (path, content) :: d.

Definition tflintConfig : text :=
  nl :: lines ["plugin `terraform` {"; "  enabled = true"; "  preset  = `recommended`"; "}"].

Section Handlers.

(** The calls that leave the program: the model asked for the
    Terraform code of the parsed diagram for one provider, the model
    asked to edit a code after an instruction ([None] when the call
    throws), and the path of a fresh file with its directory. *)
Variable askModel : text -> option text.
Variable editTerraformCode : text -> text -> option text.
Variable uniqueTfFilePath : text.
Variable tflintPath : text.

(** [generateTerraformFromJson]: the switch on the provider comes
    before the call of the model. *)
Definition generateTerraformFromJson (cloudProvider : text) : option text :=
  let p := toLowerCase cloudProvider in
  if text_eqb p (str "aws") || text_eqb p (str "azure") || text_eqb p (str "gcp")
  then askModel cloudProvider
  else None.

(** [/upload], from the parsed diagram on. *)
Definition upload (detected query : option text) (sv : server) : response * server :=
  match resolve_provider detected query with
  | Rejected r => (r, sv)
  | UseProvider cloudProvider =>
      match generateTerraformFromJson cloudProvider with
      | None => (SendStatus 500 (str "Error generating Terraform code"), sv)
      | Some terraformCode =>
          let cleanedTerraform := sanitize cloudProvider terraformCode in
          let d := write_file (disk sv) uniqueTfFilePath cleanedTerraform in
          let d := write_file d tflintPath tflintConfig in
          (SendText cleanedTerraform, mkServer cleanedTerraform uniqueTfFilePath d)
      end
  end.

(** [/edit]. *)
Definition edit (instruction : text) (sv : server) : response * server :=
  match editTerraformCode (lastGeneratedCode sv) instruction with
  | Some updatedCode =>
      let d :=
        if truthy (Some (lastTfFilePath sv))
        then write_file (disk sv) (lastTfFilePath sv) updatedCode
        else disk sv in
      (SendText updatedCode, mkServer updatedCode (lastTfFilePath sv) d)
  | None => (SendStatus 500 (str "Failed to edit code"), sv)
  end.

End Handlers.

(** ** The replies of the model *)

(** The backquote, written out: inside a literal of this file it stands
    for the double quote. *)
Definition bt : char := 96%N.

(** The fence of a code block: three backquotes. *)
Definition fence : text := [bt; bt; bt].

(** The three expressions that take the fences off a reply: a fence
    followed by json, and a fence, both with the g flag, in [/upload];
    a fence followed by hcl or else a fence, with the g flag, in
    [editTerraformCode]. *)
Definition re_json_fence : RegExp :=
  mkRegExp (cat (map Chr (fence ++ str "json"))) false false.

Definition re_fence : RegExp :=
  mkRegExp (cat (map Chr fence)) false false.

Definition re_hcl_fence : RegExp :=
  mkRegExp (Alt (cat (map Chr (fence ++ str "hcl"))) (cat (map Chr fence))) false false.

(** [cleanedRawResponse] of [/upload]: the reply about the diagram
    without its fences, trimmed, as it is handed to [JSON.parse]. *)
Definition cleanRawResponse (rawGeminiResponse : text) : text :=
  trim (replace (replace rawGeminiResponse re_json_fence []) re_fence []).

(** The prompt of [editTerraformCode] in [services/geminiEditorAgent.js]. *)
Definition editPrompt (originalCode userInstruction : text) : text :=
  nl :: lines ["You are a Terraform code editor. Your task is to modify the given Terraform code based on user instructions.";
               "";
               "Instructions:"] ++
  userInstruction ++ nl :: nl ::
  lines ["Terraform Code:"] ++
  fence ++ str "hcl" ++ nl :: originalCode ++ nl :: fence ++ nl :: nl ::
  lines ["Return only the updated Terraform code. Do not include explanations or markdown."].

(** [editTerraformCode]: [generateContent] is the call of the model,
    [None] when it throws. *)
Definition editTerraformCode (generateContent : text -> option text)
    (originalCode userInstruction : text) : option text :=
  match generateContent (editPrompt originalCode userInstruction) with
  | Some responseText => Some (trim (replace responseText re_hcl_fence []))
  | None => None
  end.

(** ** The handlers that run the tools *)

(** What the callback of [exec] receives: whether the command failed,
    and what it wrote. *)
Record exec_result := mkExec { error : bool; stdout : text; stderr : text }.

Section Commands.

(** [path.dirname], [path.basename], and the run of a shell command. *)
Variables dirname basename : text -> text.
Variable exec : text -> exec_result.

Definition lintCommand (tfDir tfFilename : text) : text :=
  nl :: str "    cd " ++ tfDir ++ str " &&" ++ nl ::
  lines ["    terraform init -input=false -no-color &&";
         "    terraform init -input=false -no-color -upgrade &&";
         "    terraform validate -no-color &&"] ++
  str "    tflint --filter=" ++ tfFilename ++ nl :: str "  ".

Definition estimateCommand (tfDir : text) : text :=
  nl :: str "    cd " ++ tfDir ++ str " &&" ++ nl ::
  lines ["    curl -s https://oiq.terrateam.io/prices.csv.gz | gunzip > prices.csv";
         "    terraform init -input=false -no-color &&";
         "    terraform validate -no-color &&";
         "    terraform plan -out=tf.plan -no-color &&";
         "    terraform show -json tf.plan > tfplan.json &&";
         "    oiq match --pricesheet prices.csv tfplan.json | oiq price"] ++
  str "  ".

(** [/lint]. *)
Definition lint (sv : server) : response * server :=
  if negb (truthy (Some (lastTfFilePath sv)))
  then (SendStatus 400 (str "No Terraform file for linting."), sv)
  else
    let tfDir := dirname (lastTfFilePath sv) in
    let tfFilename := basename (lastTfFilePath sv) in
    let r := exec (lintCommand tfDir tfFilename) in
    let output := [] in
    let output :=
      if truthy (Some (stdout r)) then output ++ str "[STDOUT] " ++ stdout r ++ [nl]
      else output in
    let output :=
      if truthy (Some (stderr r)) then output ++ str "[STDERR] " ++ stderr r ++ [nl]
      else output in
    if error r then (SendStatus 500 (str "Linting failed: " ++ output), sv)
    else
      let output :=
        if negb (truthy (Some output)) then str "No linting issues found." else output in
      (SendText output, sv).

(** [/estimate-cost]. *)
Definition estimateCost (sv : server) : response * server :=
  if negb (truthy (Some (lastTfFilePath sv)))
  then (SendStatus 400 (str "No Terraform file for cost estimation."), sv)
  else
    let tfDir := dirname (lastTfFilePath sv) in
    let r := exec (estimateCommand tfDir) in
    if error r then (SendStatus 500 (str "Error running OpenInfraQuote."), sv)
    else (SendText (stdout r), sv).

End Commands.

(** ** The server over a sequence of requests *)

(** A request, with what the outside world answers while it is handled:
    the model, the fresh path and the path of the lint configuration
    beside it for an upload, the model for an edit, the shell for the
    two tools.  Requests are handled one after the other. *)
Inductive request :=
| Upload (askModel : text -> option text) (uniqueTfFilePath tflintPath : text)
         (detected query : option text)
| Edit (generateContent : text -> option text) (instruction : text)
| Lint (exec : text -> exec_result)
| EstimateCost (exec : text -> exec_result).

Section Server.

Variables dirname basename : text -> text.

Definition handle (rq : request) (sv : server) : response * server :=
  match rq with
  | Upload askModel uniqueTfFilePath tflintPath detected query =>
      upload askModel uniqueTfFilePath tflintPath detected query sv
  | Edit generateContent instruction =>
      edit (editTerraformCode generateContent) instruction sv
  | Lint exec => lint dirname basename exec sv
  | EstimateCost exec => estimateCost dirname exec sv
  end.

Fixpoint serve (rqs : list request) (sv : server) : list response * server :=
  match rqs with
  | [] => ([], sv)
  | rq :: rqs' =>
      let (r, sv1) := handle rq sv in
      let (rs, sv2) := serve rqs' sv1 in
      (r :: rs, sv2)
  end.

End Server.

(** The two module variables when the server starts, and no file written. *)
Definition start : server := mkServer [] [] [].

(** ** Notions used in the statements and in the proofs *)

Fixpoint take_while (p : char -> bool) (s : text) : text :=
  match s with
  | [] => []
  | c :: s' => if p c then c :: take_while p s' else []
  end.

Fixpoint drop_while (p : char -> bool) (s : text) : text :=
  match s with
  | [] => []
  | c :: s' => if p c then drop_while p s' else s
  end.

(** The character before the position reached after reading [w]. *)
Definition adv (pr : option char) (w : text) : option char :=
  fold_left (fun _ c => Some c) w pr.

Definition suffix_of (s' s : text) : Prop := exists u, s = u ++ s'.

(** A greedy and a lazy star over one character class, written out:
    the greedy one tries the continuation from the longest run down, the
    lazy one from the shortest run up. *)
Fixpoint greedy_run (p : char -> bool) (k : cont) (pr : option char) (s : text)
    (c : list (nat * text)) : option mstate :=
  match s with
  | x :: s' =>
      if p x then
        match greedy_run p k (Some x) s' c with
        | Some z => Some z
        | None => k (mkState pr s c)
        end
      else k (mkState pr s c)
  | [] => k (mkState pr [] c)
  end.

Fixpoint lazy_run (p : char -> bool) (k : cont) (pr : option char) (s : text)
    (c : list (nat * text)) : option mstate :=
  match k (mkState pr s c) with
  | Some z => Some z
  | None =>
      match s with
      | x :: s' => if p x then lazy_run p k (Some x) s' c else None
      | [] => None
      end
  end.

(** The steps of a match that leaves no choice, as functions on the
    input: a literal, one character, a run of one or more characters of
    a class. *)
Definition strip_prefix (w s : text) : option text :=
  if starts_with w s then Some (skipn (length w) s) else None.

Definition strip_char (c : char) (s : text) : option text :=
  match s with
  | x :: s' => if char_eqb c x then Some s' else None
  | [] => None
  end.

Definition strip_run1 (p : char -> bool) (s : text) : option text :=
  match s with
  | x :: s' => if p x then Some (drop_while p s') else None
  | [] => None
  end.

Definition not_c (d c : char) : bool := negb (char_eqb d c).

Definition and_then (a : option text) (f : text -> option text) : option text :=
  match a with
  | Some x => f x
  | None => None
  end.

(** The opening of a declaration read off the input: the text after the
    opening brace, when the input starts with an opening. *)
Definition after_open (kw kind : string) (s : text) : option text :=
  and_then (strip_prefix (str kw) s) (fun s =>
  and_then (strip_run1 is_space s) (fun s =>
  and_then (strip_char dq s) (fun s =>
  and_then (strip_prefix (str kind) s) (fun s =>
  and_then (strip_char dq s) (fun s =>
  and_then (strip_run1 is_space s) (fun s =>
  and_then (strip_char dq s) (fun s =>
  and_then (strip_run1 (not_c dq) s) (fun s =>
  and_then (strip_char dq s) (fun s =>
  strip_char lbrace (drop_while is_space s)))))))))).

(** Expressions whose attempts do not look at the character before the
    position. *)
Definition prev_free (R : RegExp) : Prop :=
  forall p p' s, option_map rest (exec_at R p s) = option_map rest (exec_at R p' s).

(** The end of a block: the text after the first closing brace. *)
Definition after_rbrace (s : text) : option text :=
  strip_char rbrace (drop_while (not_c rbrace) s).

(** A declaration read off the input: the text after it. *)
Definition after_decl (kind : decl_kind) (s : text) : option text :=
  and_then (after_open (keyword_of kind) (label_of kind) s) after_rbrace.

(** The shape of the opening of a declaration up to its brace, and of a
    block that ends at the first closing brace after it. *)
Definition is_header (kw kind : string) (hdr : text) : Prop :=
  exists w1 w2 name w3,
    hdr = str kw ++ w1 ++ dq :: str kind ++ dq :: w2 ++ dq :: name ++ dq :: w3 /\
    w1 <> [] /\ forallb is_space w1 = true /\
    w2 <> [] /\ forallb is_space w2 = true /\
    name <> [] /\ forallb (not_c dq) name = true /\
    forallb is_space w3 = true.

Definition is_block (kind : decl_kind) (b : text) : Prop :=
  exists hdr body,
    b = hdr ++ lbrace :: body ++ [rbrace] /\
    is_header (keyword_of kind) (label_of kind) hdr /\
    ~ In rbrace body.

(** [out] is [code] without some blocks of one kind: the code is made of
    stretches of text in which the expression of the kind finds nothing,
    each followed by a block, and of a last such stretch; the output is
    made of the stretches alone. *)
Definition blocks_removed (kind : decl_kind) (code out : text) : Prop :=
  exists (parts : list (text * text)) (last : text),
    code = concat (map (fun sm => fst sm ++ snd sm) parts) ++ last /\
    out = concat (map fst parts) ++ last /\
    Forall (fun sm => test (block_regexp kind) (fst sm) = false /\
                      is_block kind (snd sm)) parts /\
    test (block_regexp kind) last = false.

(** [out] is [code] with some blocks of one kind rewritten by [f]: the
    code is made of stretches of text in which the expression of the
    kind finds nothing, each followed by a block, and of a last such
    stretch; the output has the same stretches, and for each block what
    [f] makes of it. *)
Definition blocks_rewritten (kind : decl_kind) (f : text -> text) (code out : text) : Prop :=
  exists (parts : list (text * text)) (last : text),
    code = concat (map (fun sm => fst sm ++ snd sm) parts) ++ last /\
    out = concat (map (fun sm => fst sm ++ f (snd sm)) parts) ++ last /\
    Forall (fun sm => test (block_regexp kind) (fst sm) = false /\
                      is_block kind (snd sm)) parts /\
    test (block_regexp kind) last = false.

(** The runs of white space that the expression for empty lines takes: a
    line feed followed by white space with another line feed in it. *)
Definition has_nl (w : text) : bool := existsb (char_eqb nl) w.

Definition blank_run (s : text) : bool :=
  match s with
  | x :: s' => char_eqb nl x && has_nl (take_while is_space s')
  | [] => false
  end.

(** The group of the expression for empty lines, and the continuation
    at the end of an expression. *)
Definition line_group : re := Group 1 (cat [Chr nl; star space]).

Definition k_end : cont := fun st => Some st.

(** The white space at the end of [pre] holds no line feed: a run of
    empty lines that starts after [pre] does not start inside [pre]. *)
Definition ends_in_line (pre : text) : bool :=
  negb (has_nl (take_while is_space (rev pre))).

(** Every run of empty lines in [s] is made of two line feeds and
    nothing else. *)
Definition stable (s : text) : Prop :=
  forall a b, s = a ++ b -> blank_run b = true -> take_while is_space b = [nl; nl].

(** No white space at either end. *)
Definition trimmed (s : text) : Prop :=
  drop_while is_space s = s /\ drop_while is_space (rev s) = rev s.



(** What [getUniqueTfFilePath] and [path.join] give an upload: a path
    that is not empty, and another path for the lint configuration. *)
Definition fresh_paths (rq : request) : Prop :=
  match rq with
  | Upload _ uniqueTfFilePath tflintPath _ _ =>
      uniqueTfFilePath <> [] /\ tflintPath <> uniqueTfFilePath
  | _ => True
  end.

(** Among requests and their replies, an upload that was answered with
    code. *)
Definition is_upload (rq : request) : bool :=
  match rq with
  | Upload _ _ _ _ _ => true
  | _ => false
  end.

Definition is_code (r : response) : bool :=
  match r with
  | SendText _ => true
  | _ => false
  end.

Definition uploaded (rqs : list request) (rs : list response) : bool :=
  existsb (fun x => is_upload (fst x) && is_code (snd x)) (combine rqs rs).

(** No line terminator in a text. *)
Definition no_line_break (s : text) : bool :=
  forallb (fun c => negb (is_line_terminator c)) s.

(** An attribute with a quoted value on one line, somewhere in a text. *)
Definition has_attr (name : string) (s : text) : Prop :=
  exists a w1 w2 v c,
    s = a ++ str name ++ w1 ++ str "=" ++ w2 ++ dq :: v ++ dq :: c /\
    forallb is_space w1 = true /\ forallb is_space w2 = true /\
    no_line_break v = true.

(** The text without its white space, and without its white space and
    its closing braces. *)
Definition visible (s : text) : text :=
  filter (fun c => negb (is_space c)) s.

Definition unbraced (s : text) : text :=
  filter (fun c => negb (is_space c) && negb (char_eqb rbrace c)) s.

(** [out] is [s] with some characters left out. *)
Inductive subsequence : text -> text -> Prop :=
| sub_nil : subsequence [] []
| sub_keep : forall x a b, subsequence a b -> subsequence (x :: a) (x :: b)
| sub_drop : forall x a b, subsequence a b -> subsequence a (x :: b).

(** ** The texts of the examples *)

Definition has_char (c : char) (s : text) : bool := existsb (char_eqb c) s.

(** The number of places at which [needle] occurs in [s]. *)
Fixpoint occurrences (needle s : text) : nat :=
  (if starts_with needle s then 1 else 0) +
  match s with
  | [] => 0
  | _ :: s' => occurrences needle s'
  end.

(** The text between the first opening brace of a block and its last
    character. *)
Definition block_body (b : text) : text :=
  removelast (tl (drop_while (not_c lbrace) b)).

(** The provider named by a field or a parameter, in lower case. *)
Definition provider_token (o : option text) : text := toLowerCase (value_of o).

(** Lines joined by line feeds, with none after the last. *)
Definition text_of (l : list string) : text := join [nl] (map str l).



(** A function with its attributes on lines of their own and no nested
    block, and what the clean-up for AWS makes of it. *)
Definition plain_lambda : text :=
  lines ["resource `aws_lambda_function` `fn` {";
         "  function_name = `fn`";
         "  role          = aws_iam_role.fn.arn";
         "  runtime       = `python3.9`";
         "  filename      = `fn.zip`";
         "  source_code_hash = filebase64sha256(`fn.zip`)";
         "}"].




(** A function that has its source after a nested block. *)
Definition lambda_with_source : text :=
  lines ["resource `aws_lambda_function` `fn` {";
         "  function_name = `fn`";
         "  handler       = `index.handler`";
         "  runtime       = `nodejs18.x`";
         "  environment {";
         "    variables = {";
         "      TABLE = `items`";
         "    }";
         "  }";
         "  source_code   = `exports.handler = async () => 1`";
         "}"].

Definition lambda_with_source_block : text :=
  text_of ["resource `aws_lambda_function` `fn` {";
           "  function_name = `fn`";
           "  handler       = `index.handler`";
           "  runtime       = `nodejs18.x`";
           "  environment {";
           "    variables = {";
           "      TABLE = `items`";
           "    }"].



(** Blocks that hold neither their source nor their entry. *)
Definition lambda_block_bare : text :=
  text_of ["resource `aws_lambda_function` `fn` {";
           "  function_name = `fn`";
           "  runtime       = `nodejs18.x`";
           "}"].

Definition gcp_block_bare : text :=
  text_of ["resource `google_cloud_function` `fn` {";
           "  name    = `fn`";
           "  runtime = `python39`";
           "}"].

Definition gcp_block_filled : text :=
  text_of ["resource `google_cloud_function` `fn` {";
           "  name    = `fn`";
           "  runtime = `python39`";
           "  source_archive_url = `gs://your-dummy-gcp-bucket/dummy-function.zip`";
           "  entry_point        = `main`";
           "}"].

(** A code cut off inside an interpolation. *)
Definition unclosed_interpolation : text :=
  lines ["x = `${a"; "y = 1"; "z = `${b}`"].

(** The opening of a declaration with a declaration of the other kind
    between its labels and its body. *)
Definition split_declaration : text :=
  lines ["resource `local_file` `a`";
         "data `archive_file` `z` {}";
         "{";
         "  content = `x`";
         "}"].



(** A function app with one setting to strip and one to keep. *)
Definition function_app : text :=
  lines ["resource `azurerm_function_app` `fn` {";
         "  name = `fn`";
         "  app_settings = {";
         "    WEBSITE_RUN_FROM_PACKAGE = `1`";
         "    LOG_LEVEL = `debug`";
         "  }";
         "}"].

Definition kept_settings : text :=
  text_of ["app_settings = {";
           "    LOG_LEVEL = `debug`";
           "  }"].

(** A page of text with three empty lines in it. *)
Definition three_empty_lines : text :=
  lines ["a = 1"; ""; ""; ""; "b = 2"].

(** * Proofs *)

(** * General facts about the matcher *)

Lemma suffix_refl : forall s : text, suffix_of s s.
Proof. intros s. exists []. reflexivity. Qed.

Lemma suffix_trans : forall a b c : text, suffix_of a b -> suffix_of b c -> suffix_of a c.
Proof.
  intros a b c [u Hu] [v Hv]. exists (v ++ u). subst. now rewrite app_assoc.
Qed.

Lemma suffix_cons : forall (x : char) (s : text), suffix_of s (x :: s).
Proof. intros x s. exists [x]. reflexivity. Qed.

(** Every result of the matcher is a result of its continuation, at a
    state further on in the input. *)
Lemma repeat_matcher_cont :
  forall (m : cont -> mstate -> option mstate),
    (forall k st z, m k st = Some z ->
       exists st', suffix_of (rest st') (rest st) /\ k st' = Some z) ->
    forall fuel min max greedy k x z,
      repeat_matcher fuel m min max greedy k x = Some z ->
      exists st', suffix_of (rest st') (rest x) /\ k st' = Some z.
Proof.
  intros m Hm fuel. induction fuel as [|fuel IH]; intros min max greedy k x z H.
  - discriminate.
  - simpl in H.
    assert (Hd : forall d0, (forall y z0, d0 y = Some z0 ->
                     exists st', suffix_of (rest st') (rest y) /\ k st' = Some z0) ->
                 m d0 x = Some z ->
                 exists st', suffix_of (rest st') (rest x) /\ k st' = Some z).
    { intros d0 Hd0 Hmd. apply Hm in Hmd. destruct Hmd as [y [Hy Hdy]].
      apply Hd0 in Hdy. destruct Hdy as [st' [Hs Hk]].
      exists st'. split; [eapply suffix_trans; eauto | exact Hk]. }
    set (d := fun y : mstate =>
            if Nat.eqb min 0 && Nat.eqb (length (rest y)) (length (rest x))
            then None
            else repeat_matcher fuel m (Nat.pred min) (option_map Nat.pred max) greedy k y) in *.
    assert (Hdd : forall y z0, d y = Some z0 ->
                     exists st', suffix_of (rest st') (rest y) /\ k st' = Some z0).
    { intros y z0 Hy. unfold d in Hy.
      destruct (Nat.eqb min 0 && Nat.eqb (length (rest y)) (length (rest x))); [discriminate|].
      eapply IH; eauto. }
    assert (Hk : k x = Some z -> exists st', suffix_of (rest st') (rest x) /\ k st' = Some z).
    { intros Hkx. exists x. split; [apply suffix_refl | exact Hkx]. }
    assert (Hgo : (if negb (Nat.eqb min 0) then m d x
                   else if greedy then match m d x with Some z0 => Some z0 | None => k x end
                        else match k x with Some z0 => Some z0 | None => m d x end) = Some z ->
                  exists st', suffix_of (rest st') (rest x) /\ k st' = Some z).
    { intros H0. destruct (negb (Nat.eqb min 0)); [apply (Hd d Hdd H0)|].
      destruct greedy.
      - destruct (m d x) eqn:E.
        + inversion H0; subst. apply (Hd d Hdd E).
        + apply Hk, H0.
      - destruct (k x) eqn:E.
        + inversion H0; subst. apply Hk. reflexivity.
        + apply (Hd d Hdd H0). }
    destruct max as [[|max]|]; [apply Hk, H | apply Hgo, H | apply Hgo, H].
Qed.

Lemma step_char_cont : forall p k st z,
  step_char p k st = Some z ->
  exists st', suffix_of (rest st') (rest st) /\ k st' = Some z.
Proof.
  intros p k [pr s c] z H. unfold step_char in H. simpl in *.
  destruct s as [|x s]; [discriminate|].
  destruct (p x); [|discriminate].
  eexists. split; [|exact H]. simpl. apply suffix_cons.
Qed.

Lemma rmatch_cont : forall multi dotall r k st z,
  rmatch multi dotall r k st = Some z ->
  exists st', suffix_of (rest st') (rest st) /\ k st' = Some z.
Proof.
  intros multi dotall r. induction r; intros k st z H; simpl in H.
  - exists st. split; [apply suffix_refl | exact H].
  - eapply step_char_cont; eauto.
  - eapply step_char_cont; eauto.
  - eapply step_char_cont; eauto.
  - destruct (at_bol multi st); [|discriminate]. exists st. split; [apply suffix_refl | exact H].
  - destruct (at_eol multi st); [|discriminate]. exists st. split; [apply suffix_refl | exact H].
  - apply IHr1 in H. destruct H as [y [Hy H]]. apply IHr2 in H. destruct H as [y' [Hy' H]].
    exists y'. split; [eapply suffix_trans; eauto | exact H].
  - destruct (rmatch multi dotall r1 k st) eqn:E.
    + inversion H; subst. eapply IHr1; eauto.
    + eapply IHr2; eauto.
  - apply IHr in H. destruct H as [y [Hy H]].
    exists (set_cap i (consumed st y) y). split; [exact Hy | exact H].
  - eapply repeat_matcher_cont; eauto.
Qed.

Lemma exec_at_suffix : forall R p s st',
  exec_at R p s = Some st' -> suffix_of (rest st') s.
Proof.
  intros R p s st' H. unfold exec_at in H. apply rmatch_cont in H.
  destruct H as [y [Hy H]]. inversion H; subst. exact Hy.
Qed.

(** * Stars over one character class *)

Lemma adv_cons : forall pr x w, adv pr (x :: w) = adv (Some x) w.
Proof. reflexivity. Qed.

Lemma take_drop_while : forall p s, take_while p s ++ drop_while p s = s.
Proof.
  intros p s. induction s as [|x s IH]; simpl; [reflexivity|].
  destruct (p x); simpl; [now rewrite IH | reflexivity].
Qed.

Lemma take_while_all : forall p s, forallb p (take_while p s) = true.
Proof.
  intros p s. induction s as [|x s IH]; simpl; [reflexivity|].
  destruct (p x) eqn:E; simpl; [now rewrite E | reflexivity].
Qed.

Lemma drop_while_head : forall p s x s', drop_while p s = x :: s' -> p x = false.
Proof.
  intros p s. induction s as [|y s IH]; simpl; intros x s' H; [discriminate|].
  destruct (p y) eqn:E; [eauto | inversion H; subst; exact E].
Qed.

Lemma take_while_app : forall p w s,
  forallb p w = true -> take_while p (w ++ s) = w ++ take_while p s.
Proof.
  intros p w s. induction w as [|x w IH]; simpl; intros H; [reflexivity|].
  apply andb_prop in H. destruct H as [Hx Hw]. rewrite Hx. now rewrite IH.
Qed.

Lemma drop_while_app : forall p w s,
  forallb p w = true -> drop_while p (w ++ s) = drop_while p s.
Proof.
  intros p w s. induction w as [|x w IH]; simpl; intros H; [reflexivity|].
  apply andb_prop in H. destruct H as [Hx Hw]. rewrite Hx. now apply IH.
Qed.

Section CharClass.

Variable m : cont -> mstate -> option mstate.
Variable p : char -> bool.
Hypothesis m_char : forall k st, m k st = step_char p k st.

Lemma repeat_greedy_char : forall s fuel pr c k,
  length s < fuel ->
  repeat_matcher fuel m 0 None true k (mkState pr s c) = greedy_run p k pr s c.
Proof.
  induction s as [|x s IH]; intros fuel pr c k Hf;
    (destruct fuel as [|fuel]; [inversion Hf|]); simpl.
  - rewrite m_char. reflexivity.
  - rewrite m_char. unfold step_char. simpl.
    destruct (p x); [|reflexivity].
    replace (Nat.eqb (length s) (S (length s))) with false
      by (symmetry; apply Nat.eqb_neq; lia).
    rewrite IH by (simpl in Hf; lia). reflexivity.
Qed.

Lemma repeat_lazy_char : forall s fuel pr c k,
  length s < fuel ->
  repeat_matcher fuel m 0 None false k (mkState pr s c) = lazy_run p k pr s c.
Proof.
  induction s as [|x s IH]; intros fuel pr c k Hf;
    (destruct fuel as [|fuel]; [inversion Hf|]); simpl.
  - rewrite m_char. reflexivity.
  - rewrite m_char. unfold step_char. simpl.
    destruct (k (mkState pr (x :: s) c)); [reflexivity|].
    destruct (p x); [|reflexivity].
    replace (Nat.eqb (length s) (S (length s))) with false
      by (symmetry; apply Nat.eqb_neq; lia).
    rewrite IH by (simpl in Hf; lia). reflexivity.
Qed.

Lemma repeat_plus_char : forall s fuel pr c k,
  S (length s) < fuel ->
  repeat_matcher fuel m 1 None true k (mkState pr s c) =
  match s with
  | x :: s' => if p x then greedy_run p k (Some x) s' c else None
  | [] => None
  end.
Proof.
  intros s fuel pr c k Hf. destruct fuel as [|fuel]; [inversion Hf|]. simpl.
  rewrite m_char. unfold step_char. simpl.
  destruct s as [|x s]; [reflexivity|].
  destruct (p x); [|reflexivity].
  apply repeat_greedy_char. simpl in Hf. lia.
Qed.

End CharClass.

(** The greedy run when the continuation cannot start with a character
    of the class: no backtracking, the whole run is taken. *)
Lemma greedy_run_det : forall p k,
  (forall pr x s c, p x = true -> k (mkState pr (x :: s) c) = None) ->
  forall s pr c,
    greedy_run p k pr s c =
    k (mkState (adv pr (take_while p s)) (drop_while p s) c).
Proof.
  intros p k Hk s. induction s as [|x s IH]; intros pr c; simpl; [reflexivity|].
  destruct (p x) eqn:E; [|reflexivity].
  rewrite IH. rewrite (Hk pr x s c E). rewrite adv_cons.
  destruct (k _); reflexivity.
Qed.

(** The greedy run passes over a prefix of the class when it succeeds
    further on. *)
Lemma greedy_run_skip : forall p k w s pr c z,
  forallb p w = true ->
  greedy_run p k (adv pr w) s c = Some z ->
  greedy_run p k pr (w ++ s) c = Some z.
Proof.
  intros p k w. induction w as [|x w IH]; intros s pr c z Hw H; simpl in *; [exact H|].
  apply andb_prop in Hw. destruct Hw as [Hx Hw]. rewrite Hx.
  rewrite (IH s (Some x) c z Hw H). reflexivity.
Qed.

(** * The steps of the matcher on the pieces of the expressions *)

Lemma cls_space : forall c, cls_matches false [CSpace] c = is_space c.
Proof. intros c. unfold cls_matches. simpl. now rewrite orb_false_r. Qed.

Lemma cls_not_char : forall d c, cls_matches true [CChar d] c = not_c d c.
Proof. intros d c. unfold cls_matches, not_c. simpl. rewrite orb_false_r. reflexivity. Qed.

Lemma cls_any : forall c, cls_matches false [CSpace; CNonSpace] c = true.
Proof. intros c. unfold cls_matches. simpl. destruct (is_space c); reflexivity. Qed.

Lemma rmatch_cat_cons : forall mu da a l k st,
  rmatch mu da (cat (a :: l)) k st = rmatch mu da a (rmatch mu da (cat l) k) st.
Proof. reflexivity. Qed.

Lemma rmatch_chars : forall mu da w k pr s c,
  rmatch mu da (cat (map Chr w)) k (mkState pr s c) =
  match strip_prefix w s with
  | Some s' => k (mkState (adv pr w) s' c)
  | None => None
  end.
Proof.
  intros mu da w. induction w as [|x w IH]; intros k pr s c.
  - reflexivity.
  - simpl map. rewrite rmatch_cat_cons. simpl rmatch at 1. unfold step_char. simpl.
    unfold strip_prefix. simpl. destruct s as [|y s]; [reflexivity|].
    unfold char_eqb at 1 2. destruct (N.eqb x y) eqn:E; [|reflexivity].
    apply N.eqb_eq in E. subst y. simpl. rewrite IH. unfold strip_prefix.
    reflexivity.
Qed.

Lemma rmatch_lit : forall mu da w k pr s c,
  rmatch mu da (lit w) k (mkState pr s c) =
  match strip_prefix (str w) s with
  | Some s' => k (mkState (adv pr (str w)) s' c)
  | None => None
  end.
Proof. intros. unfold lit. apply rmatch_chars. Qed.

Lemma rmatch_chr : forall mu da x k pr s c,
  rmatch mu da (Chr x) k (mkState pr s c) =
  match strip_char x s with
  | Some s' => k (mkState (Some x) s' c)
  | None => None
  end.
Proof.
  intros. simpl. unfold step_char, strip_char. simpl.
  destruct s as [|y s]; [reflexivity|].
  unfold char_eqb. destruct (N.eqb x y) eqn:E; [|reflexivity].
  apply N.eqb_eq in E. now subst.
Qed.

Section Quantified.

Variables (mu da : bool) (a : re) (p : char -> bool).
Hypothesis a_char : forall k st, rmatch mu da a k st = step_char p k st.

Lemma rmatch_star : forall k pr s c,
  rmatch mu da (star a) k (mkState pr s c) = greedy_run p k pr s c.
Proof.
  intros. unfold star. simpl. apply repeat_greedy_char; [exact a_char | lia].
Qed.

Lemma rmatch_lazy_star : forall k pr s c,
  rmatch mu da (lazy_star a) k (mkState pr s c) = lazy_run p k pr s c.
Proof.
  intros. unfold lazy_star. simpl. apply repeat_lazy_char; [exact a_char | lia].
Qed.

Lemma rmatch_plus : forall k pr s c,
  rmatch mu da (plus a) k (mkState pr s c) =
  match s with
  | x :: s' => if p x then greedy_run p k (Some x) s' c else None
  | [] => None
  end.
Proof.
  intros. unfold plus.
  change (rmatch mu da (Quant 1 None true a) k (mkState pr s c))
    with (repeat_matcher (1 + length s + 1) (rmatch mu da a) 1 None true k (mkState pr s c)).
  apply repeat_plus_char; [exact a_char | lia].
Qed.

(** Without backtracking, when the continuation cannot start with a
    character of the class. *)
Lemma rmatch_star_det : forall k pr s c,
  (forall pr' x s' c', p x = true -> k (mkState pr' (x :: s') c') = None) ->
  rmatch mu da (star a) k (mkState pr s c) =
  k (mkState (adv pr (take_while p s)) (drop_while p s) c).
Proof.
  intros. rewrite rmatch_star. now apply greedy_run_det.
Qed.

Lemma rmatch_plus_det : forall k pr s c,
  (forall pr' x s' c', p x = true -> k (mkState pr' (x :: s') c') = None) ->
  rmatch mu da (plus a) k (mkState pr s c) =
  match strip_run1 p s with
  | Some s' => k (mkState (adv pr (take_while p s)) s' c)
  | None => None
  end.
Proof.
  intros k pr s c Hk. rewrite rmatch_plus. unfold strip_run1.
  destruct s as [|x s]; [reflexivity|]. simpl.
  destruct (p x); [|reflexivity].
  rewrite greedy_run_det by exact Hk. reflexivity.
Qed.

End Quantified.

(** * The opening of a declaration *)

Lemma step_char_ext : forall p q k st, (forall x, p x = q x) ->
  step_char p k st = step_char q k st.
Proof.
  intros p q k st H. unfold step_char. destruct (rest st); [reflexivity|]. now rewrite H.
Qed.

Lemma space_is_char : forall mu da k st,
  rmatch mu da space k st = step_char is_space k st.
Proof. intros. simpl. apply step_char_ext, cls_space. Qed.

Lemma not_char_is_char : forall mu da d k st,
  rmatch mu da (not_char d) k st = step_char (not_c d) k st.
Proof. intros. simpl. apply step_char_ext, cls_not_char. Qed.

Lemma any_char_is_char : forall mu da k st,
  rmatch mu da any_char k st = step_char (fun _ => true) k st.
Proof. intros. simpl. apply step_char_ext, cls_any. Qed.

Lemma not_c_true : forall d x, not_c d x = true -> char_eqb d x = false.
Proof. intros d x. unfold not_c. now destruct (char_eqb d x). Qed.

Lemma is_space_not_dq : forall x, is_space x = true -> char_eqb dq x = false.
Proof.
  intros x H. unfold char_eqb. destruct (N.eqb dq x) eqn:E; [|reflexivity].
  apply N.eqb_eq in E. subst x. discriminate.
Qed.

Lemma is_space_not_lbrace : forall x, is_space x = true -> char_eqb lbrace x = false.
Proof.
  intros x H. unfold char_eqb. destruct (N.eqb lbrace x) eqn:E; [|reflexivity].
  apply N.eqb_eq in E. subst x. discriminate.
Qed.

Lemma chr_fails_on : forall mu da d l k pr x s c,
  char_eqb d x = false ->
  rmatch mu da (cat (Chr d :: l)) k (mkState pr (x :: s) c) = None.
Proof.
  intros. rewrite rmatch_cat_cons, rmatch_chr. simpl. now rewrite H.
Qed.

Lemma rmatch_decl_open : forall mu da kw kind tail k pr s c,
  rmatch mu da (cat (decl_open kw kind ++ tail)) k (mkState pr s c) =
  match after_open kw kind s with
  | Some s' => rmatch mu da (cat tail) k (mkState (Some lbrace) s' c)
  | None => None
  end.
Proof.
  intros. unfold decl_open, after_open. simpl app.
  rewrite rmatch_cat_cons, rmatch_lit.
  destruct (strip_prefix (str kw) s) as [s1|]; [simpl and_then|reflexivity].
  rewrite rmatch_cat_cons.
  rewrite (@rmatch_plus_det mu da space is_space (space_is_char mu da))
    by (intros; apply chr_fails_on, is_space_not_dq; assumption).
  destruct (strip_run1 is_space s1) as [s2|]; [simpl and_then|reflexivity].
  rewrite rmatch_cat_cons, rmatch_chr.
  destruct (strip_char dq s2) as [s3|]; [simpl and_then|reflexivity].
  rewrite rmatch_cat_cons, rmatch_lit.
  destruct (strip_prefix (str kind) s3) as [s4|]; [simpl and_then|reflexivity].
  rewrite rmatch_cat_cons, rmatch_chr.
  destruct (strip_char dq s4) as [s5|]; [simpl and_then|reflexivity].
  rewrite rmatch_cat_cons.
  rewrite (@rmatch_plus_det mu da space is_space (space_is_char mu da))
    by (intros; apply chr_fails_on, is_space_not_dq; assumption).
  destruct (strip_run1 is_space s5) as [s6|]; [simpl and_then|reflexivity].
  rewrite rmatch_cat_cons, rmatch_chr.
  destruct (strip_char dq s6) as [s7|]; [simpl and_then|reflexivity].
  rewrite rmatch_cat_cons.
  rewrite (@rmatch_plus_det mu da (not_char dq) (not_c dq) (fun k st => not_char_is_char mu da dq k st))
    by (intros; apply chr_fails_on, not_c_true; assumption).
  destruct (strip_run1 (not_c dq) s7) as [s8|]; [simpl and_then|reflexivity].
  rewrite rmatch_cat_cons, rmatch_chr.
  destruct (strip_char dq s8) as [s9|]; [simpl and_then|reflexivity].
  rewrite rmatch_cat_cons.
  rewrite (@rmatch_star_det mu da space is_space (space_is_char mu da))
    by (intros; apply chr_fails_on, is_space_not_lbrace; assumption).
  rewrite rmatch_cat_cons, rmatch_chr.
  destruct (strip_char lbrace (drop_while is_space s9)); reflexivity.
Qed.

(** * The scan *)

Lemma scan_skip : forall R w s p i,
  scan R (length w) p (w ++ s) i = scan R 0 (adv p w) s (i + length w).
Proof.
  intros R w. induction w as [|x w IH]; intros s p i.
  - simpl. now rewrite Nat.add_0_r.
  - change (adv p (x :: w)) with (adv (Some x) w).
    change (scan R (length (x :: w)) p ((x :: w) ++ s) i)
      with (scan R (length w) (Some x) (w ++ s) (S i)).
    rewrite IH. f_equal. simpl. lia.
Qed.

Lemma scan_0 : forall R p s i,
  scan R 0 p s i =
  match exec_at R p s with
  | Some st' =>
      Hit (result_at i s st') ::
      match length s - length (rest st'), s with
      | _, [] => []
      | O, c :: s' => Kept c :: scan R 0 (Some c) s' (S i)
      | S n, c :: s' => scan R n (Some c) s' (S i)
      end
  | None =>
      match s with
      | [] => []
      | c :: s' => Kept c :: scan R 0 (Some c) s' (S i)
      end
  end.
Proof. intros. destruct s; reflexivity. Qed.

Lemma scan_hit : forall R p s i st' w,
  exec_at R p s = Some st' -> s = w ++ rest st' -> w <> [] ->
  scan R 0 p s i =
  Hit (mkMatch i w (caps st')) :: scan R 0 (adv p w) (rest st') (i + length w).
Proof.
  intros R p s i st' w He Hs Hw. destruct w as [|x w]; [congruence|]. subst s.
  rewrite scan_0, He. unfold result_at.
  assert (Hl : length ((x :: w) ++ rest st') - length (rest st') = S (length w)).
  { rewrite length_app. change (length (x :: w)) with (S (length w)). lia. }
  rewrite Hl. f_equal.
  - f_equal.
    rewrite firstn_app. rewrite firstn_all2 by (simpl; lia).
    replace (S (length w) - length (x :: w)) with 0 by (simpl; lia).
    simpl. now rewrite app_nil_r.
  - change ((x :: w) ++ rest st') with (x :: (w ++ rest st')). cbv iota beta.
    rewrite scan_skip. change (adv p (x :: w)) with (adv (Some x) w).
    f_equal. simpl. lia.
Qed.

Lemma scan_miss : forall R p x s i,
  exec_at R p (x :: s) = None ->
  scan R 0 p (x :: s) i = Kept x :: scan R 0 (Some x) s (S i).
Proof. intros R p x s i H. rewrite scan_0. now rewrite H. Qed.

Section PrevFree.

Variable R : RegExp.
Hypothesis R_free : prev_free R.
Variable by_ : text.

Lemma fill_scan_indep : forall s n p p' i i',
  flat_map (fill (fun _ => by_)) (scan R n p s i) =
  flat_map (fill (fun _ => by_)) (scan R n p' s i').
Proof.
  induction s as [|x s IH]; intros n p p' i i'.
  - destruct n; [|reflexivity]. rewrite (scan_0 R p [] i), (scan_0 R p' [] i').
    pose proof (R_free p p' []) as H.
    destruct (exec_at R p []) as [st1|], (exec_at R p' []) as [st2|];
      simpl in H; try discriminate; [|reflexivity].
    destruct (length (@nil char) - length (rest st1)),
             (length (@nil char) - length (rest st2)); reflexivity.
  - destruct n; [|apply IH].
    rewrite (scan_0 R p (x :: s) i), (scan_0 R p' (x :: s) i').
    pose proof (R_free p p' (x :: s)) as H.
    destruct (exec_at R p (x :: s)) as [st1|], (exec_at R p' (x :: s)) as [st2|];
      simpl in H; try discriminate.
    + inversion H as [H1]. rewrite H1.
      destruct (length (x :: s) - length (rest st2)); simpl; f_equal;
        [f_equal|]; apply IH.
    + simpl. f_equal. apply IH.
Qed.

Lemma replace_nil_miss : exec_at R None [] = None -> replace [] R by_ = [].
Proof. intros H. unfold replace, replace_fn. rewrite scan_0, H. reflexivity. Qed.

Lemma replace_miss : forall x s,
  exec_at R None (x :: s) = None -> replace (x :: s) R by_ = x :: replace s R by_.
Proof.
  intros x s H. unfold replace, replace_fn. rewrite scan_miss by exact H.
  simpl. f_equal. apply fill_scan_indep.
Qed.

Lemma replace_hit : forall s st' w,
  exec_at R None s = Some st' -> s = w ++ rest st' -> w <> [] ->
  replace s R by_ = by_ ++ replace (rest st') R by_.
Proof.
  intros s st' w He Hs Hw. unfold replace, replace_fn.
  rewrite (@scan_hit R None s 0 st' w He Hs Hw). simpl. f_equal. apply fill_scan_indep.
Qed.

End PrevFree.

(** * The blocks *)

Lemma rmatch_group : forall mu da i a k st,
  rmatch mu da (Group i a) k st =
  rmatch mu da a (fun st' => k (set_cap i (consumed st st') st')) st.
Proof. reflexivity. Qed.

Lemma greedy_to_rbrace : forall mu da k pr s c,
  rmatch mu da (cat [star (not_char rbrace); Chr rbrace]) k (mkState pr s c) =
  match after_rbrace s with
  | Some s' => k (mkState (Some rbrace) s' c)
  | None => None
  end.
Proof.
  intros. rewrite rmatch_cat_cons.
  rewrite (@rmatch_star_det mu da (not_char rbrace) (not_c rbrace)
             (fun k st => not_char_is_char mu da rbrace k st))
    by (intros; apply chr_fails_on, not_c_true; assumption).
  rewrite rmatch_cat_cons, rmatch_chr. unfold after_rbrace.
  destruct (strip_char rbrace (drop_while (not_c rbrace) s)); reflexivity.
Qed.

Lemma lazy_run_to_rbrace : forall (K k : cont),
  (forall pr s c, K (mkState pr s c) =
     match strip_char rbrace s with
     | Some s' => k (mkState (Some rbrace) s' c)
     | None => None
     end) ->
  (forall st, k st <> None) ->
  forall s pr c,
    lazy_run (fun _ => true) K pr s c =
    match after_rbrace s with
    | Some s' => k (mkState (Some rbrace) s' c)
    | None => None
    end.
Proof.
  intros K k HK Hk s. unfold after_rbrace.
  induction s as [|x s IH]; intros pr c; cbn [lazy_run]; rewrite HK;
    cbn [strip_char drop_while].
  - reflexivity.
  - unfold not_c. destruct (char_eqb rbrace x) eqn:E; cbn [negb strip_char].
    + rewrite E. destruct (k _) eqn:Ek; [reflexivity | now apply Hk in Ek].
    + apply IH.
Qed.

Lemma lazy_to_rbrace : forall mu da k,
  (forall st, k st <> None) ->
  forall s pr c,
  rmatch mu da (cat [lazy_star any_char; Chr rbrace]) k (mkState pr s c) =
  match after_rbrace s with
  | Some s' => k (mkState (Some rbrace) s' c)
  | None => None
  end.
Proof.
  intros mu da k Hk s pr c. rewrite rmatch_cat_cons.
  rewrite (@rmatch_lazy_star mu da any_char (fun _ => true) (any_char_is_char mu da)).
  apply lazy_run_to_rbrace; [|exact Hk].
  intros. rewrite rmatch_cat_cons, rmatch_chr. reflexivity.
Qed.

Lemma exec_block : forall kind p s,
  option_map rest (exec_at (block_regexp kind) p s) = after_decl kind s.
Proof.
  intros kind p s. unfold exec_at, after_decl.
  destruct kind; cbn [block_regexp re_local_file re_archive_file re_aws_lambda
                      re_gcp_function re_azure_function re_function_block
                      source multiline dotAll keyword_of label_of];
    rewrite ?rmatch_group; rewrite rmatch_decl_open;
    (destruct (after_open _ _ s) as [s1|]; [simpl and_then|reflexivity]).
  1,2: rewrite greedy_to_rbrace; destruct (after_rbrace s1); reflexivity.
  all: rewrite lazy_to_rbrace by discriminate; destruct (after_rbrace s1); reflexivity.
Qed.

(** * The shape of a block *)

Lemma starts_with_app : forall w s, starts_with w (w ++ s) = true.
Proof.
  induction w as [|x w IH]; intros s; simpl; [reflexivity|].
  unfold char_eqb. now rewrite N.eqb_refl, IH.
Qed.

Lemma starts_with_split : forall w s, starts_with w s = true -> s = w ++ skipn (length w) s.
Proof.
  induction w as [|x w IH]; intros s H; simpl in *; [reflexivity|].
  destruct s as [|y s]; [discriminate|].
  apply andb_prop in H. destruct H as [H1 H2].
  apply N.eqb_eq in H1. subst y. simpl. f_equal. now apply IH.
Qed.

Lemma strip_prefix_some : forall w s s', strip_prefix w s = Some s' -> s = w ++ s'.
Proof.
  intros w s s' H. unfold strip_prefix in H.
  destruct (starts_with w s) eqn:E; [|discriminate].
  inversion H; subst. now apply starts_with_split.
Qed.

Lemma strip_prefix_app : forall w s, strip_prefix w (w ++ s) = Some s.
Proof.
  intros w s. unfold strip_prefix. rewrite starts_with_app.
  rewrite skipn_app, Nat.sub_diag, skipn_all. reflexivity.
Qed.

Lemma strip_char_some : forall c s s', strip_char c s = Some s' -> s = c :: s'.
Proof.
  intros c s s' H. destruct s as [|x s]; simpl in H; [discriminate|].
  destruct (char_eqb c x) eqn:E; [|discriminate].
  apply N.eqb_eq in E. inversion H; subst. reflexivity.
Qed.

Lemma strip_char_cons : forall c s, strip_char c (c :: s) = Some s.
Proof. intros. simpl. unfold char_eqb. now rewrite N.eqb_refl. Qed.

Lemma strip_run1_some : forall p s s', strip_run1 p s = Some s' ->
  exists w, s = w ++ s' /\ w <> [] /\ forallb p w = true.
Proof.
  intros p s s' H. destruct s as [|x s]; simpl in H; [discriminate|].
  destruct (p x) eqn:E; [|discriminate]. inversion H; subst.
  exists (x :: take_while p s). repeat split.
  - simpl. now rewrite take_drop_while.
  - discriminate.
  - simpl. now rewrite E, take_while_all.
Qed.

Lemma strip_run1_app : forall p w s,
  w <> [] -> forallb p w = true -> drop_while p s = s ->
  strip_run1 p (w ++ s) = Some s.
Proof.
  intros p w s Hw Hp Hs. destruct w as [|x w]; [congruence|]. simpl in *.
  apply andb_prop in Hp. destruct Hp as [Hx Hp]. rewrite Hx.
  rewrite drop_while_app by exact Hp. now rewrite Hs.
Qed.

Lemma drop_while_split : forall p s, exists w,
  s = w ++ drop_while p s /\ forallb p w = true.
Proof.
  intros p s. exists (take_while p s). split;
    [now rewrite take_drop_while | apply take_while_all].
Qed.

Lemma not_c_forall_notin : forall c w, forallb (not_c c) w = true -> ~ In c w.
Proof.
  intros c w. induction w as [|x w IH]; simpl; intros H; [tauto|].
  apply andb_prop in H. destruct H as [H1 H2].
  intros [Hx|Hx]; [|now apply IH].
  subst x. unfold not_c, char_eqb in H1. now rewrite N.eqb_refl in H1.
Qed.

Lemma notin_not_c_forall : forall c w, ~ In c w -> forallb (not_c c) w = true.
Proof.
  intros c w. induction w as [|x w IH]; simpl; intros H; [reflexivity|].
  apply andb_true_intro. split.
  - unfold not_c, char_eqb. destruct (N.eqb c x) eqn:E; [|reflexivity].
    apply N.eqb_eq in E. subst. exfalso. apply H. now left.
  - apply IH. intros Hx. apply H. now right.
Qed.

Lemma after_rbrace_some : forall s s', after_rbrace s = Some s' ->
  exists body, s = body ++ rbrace :: s' /\ ~ In rbrace body.
Proof.
  intros s s' H. unfold after_rbrace in H. apply strip_char_some in H.
  exists (take_while (not_c rbrace) s). split.
  - rewrite <- H. now rewrite take_drop_while.
  - apply not_c_forall_notin, take_while_all.
Qed.

Lemma after_rbrace_app : forall body s,
  ~ In rbrace body -> after_rbrace (body ++ rbrace :: s) = Some s.
Proof.
  intros body s H. unfold after_rbrace.
  rewrite drop_while_app by now apply notin_not_c_forall.
  reflexivity.
Qed.

Lemma and_then_some : forall a f s', and_then a f = Some s' ->
  exists x, a = Some x /\ f x = Some s'.
Proof. intros [x|] f s' H; simpl in H; [eauto | discriminate]. Qed.

Lemma after_open_some : forall kw kind s s',
  after_open kw kind s = Some s' ->
  exists hdr, s = hdr ++ lbrace :: s' /\ is_header kw kind hdr.
Proof.
  intros kw kind s s' H. unfold after_open in H.
  apply and_then_some in H. destruct H as [s1 [H1 H]].
  apply and_then_some in H. destruct H as [s2 [H2 H]].
  apply and_then_some in H. destruct H as [s3 [H3 H]].
  apply and_then_some in H. destruct H as [s4 [H4 H]].
  apply and_then_some in H. destruct H as [s5 [H5 H]].
  apply and_then_some in H. destruct H as [s6 [H6 H]].
  apply and_then_some in H. destruct H as [s7 [H7 H]].
  apply and_then_some in H. destruct H as [s8 [H8 H]].
  apply and_then_some in H. destruct H as [s9 [H9 H]].
  apply strip_prefix_some in H1, H4.
  apply strip_char_some in H3, H5, H7, H9, H.
  apply strip_run1_some in H2, H6, H8.
  destruct H2 as [w1 [H2 [Hw1 Hp1]]]. destruct H6 as [w2 [H6 [Hw2 Hp2]]].
  destruct H8 as [name [H8 [Hn Hpn]]].
  destruct (drop_while_split is_space s9) as [w3 [E3 Hp3]].
  exists (str kw ++ w1 ++ dq :: str kind ++ dq :: w2 ++ dq :: name ++ dq :: w3). split.
  - rewrite H in E3. subst.
    repeat (rewrite <- ?app_assoc; simpl). reflexivity.
  - exists w1, w2, name, w3. repeat split; assumption.
Qed.

Lemma head_drop_while : forall p x s, p x = false -> drop_while p (x :: s) = x :: s.
Proof. intros p x s H. simpl. now rewrite H. Qed.

Lemma after_open_app : forall kw kind hdr s,
  is_header kw kind hdr -> after_open kw kind (hdr ++ lbrace :: s) = Some s.
Proof.
  intros kw kind hdr s [w1 [w2 [name [w3 [E [Hw1 [Hp1 [Hw2 [Hp2 [Hn [Hpn Hp3]]]]]]]]]]].
  subst hdr. unfold after_open.
  repeat (rewrite <- app_assoc || rewrite <- app_comm_cons).
  rewrite strip_prefix_app. cbn [and_then].
  rewrite strip_run1_app by (auto; apply head_drop_while; reflexivity). cbn [and_then].
  rewrite strip_char_cons. cbn [and_then].
  rewrite strip_prefix_app. cbn [and_then].
  rewrite strip_char_cons. cbn [and_then].
  rewrite strip_run1_app by (auto; apply head_drop_while; reflexivity). cbn [and_then].
  rewrite strip_char_cons. cbn [and_then].
  rewrite strip_run1_app by (auto; apply head_drop_while; reflexivity).
  cbn [and_then].
  rewrite strip_char_cons. cbn [and_then].
  rewrite drop_while_app by exact Hp3.
  rewrite head_drop_while by reflexivity.
  apply strip_char_cons.
Qed.

Lemma after_decl_some : forall kind s s',
  after_decl kind s = Some s' ->
  exists b, s = b ++ s' /\ is_block kind b.
Proof.
  intros kind s s' H. unfold after_decl in H.
  apply and_then_some in H. destruct H as [s1 [H1 H2]].
  apply after_open_some in H1. destruct H1 as [hdr [E Hh]].
  apply after_rbrace_some in H2. destruct H2 as [body [E2 Hb]].
  exists (hdr ++ lbrace :: body ++ [rbrace]). split.
  - subst. repeat (rewrite <- app_assoc || rewrite <- app_comm_cons). reflexivity.
  - exists hdr, body. auto.
Qed.

Lemma after_decl_app : forall kind b s,
  is_block kind b -> after_decl kind (b ++ s) = Some s.
Proof.
  intros kind b s [hdr [body [E [Hh Hb]]]]. subst b. unfold after_decl.
  repeat (rewrite <- app_assoc || rewrite <- app_comm_cons).
  rewrite after_open_app by exact Hh. cbn [and_then app].
  now apply after_rbrace_app.
Qed.

Lemma is_block_nonempty : forall kind b, is_block kind b -> b <> [].
Proof.
  intros kind b [hdr [body [E _]]] Hb. subst b.
  destruct hdr; discriminate.
Qed.

(** * Scans that find nothing, and what a scan finds *)

Lemma search_from_none : forall R s p i,
  search_from R p s i = None ->
  exec_at R p s = None /\
  match s with
  | [] => True
  | x :: s' => search_from R (Some x) s' (S i) = None
  end.
Proof.
  intros R s p i H. destruct s as [|x s]; simpl in H;
    destruct (exec_at R p _); try discriminate; auto.
Qed.




Lemma test_false_search : forall R s, test R s = false -> search_from R None s 0 = None.
Proof.
  intros R s H. unfold test, jsmatch in H.
  destruct (search_from R None s 0); [discriminate | reflexivity].
Qed.




(** Every match of a scan is the text taken by a successful attempt. *)
Lemma scan_hits : forall R s n p i b,
  In b (flat_map hit_text (scan R n p s i)) ->
  exists p' s' st', exec_at R p' s' = Some st' /\
    b = firstn (length s' - length (rest st')) s'.
Proof.
  intros R s. induction s as [|x s IH]; intros n p i b H.
  - destruct n; [|contradiction]. rewrite scan_0 in H.
    destruct (exec_at R p []) as [st'|] eqn:E; [|contradiction].
    cbn [flat_map hit_text app In result_at m_text] in H. destruct H as [H|H].
    + exists p, [], st'. split; [exact E | now rewrite <- H].
    + destruct (length (@nil char) - length (rest st')); contradiction.
  - destruct n; [|cbn [scan] in H; eapply IH; eauto]. rewrite scan_0 in H.
    destruct (exec_at R p (x :: s)) as [st'|] eqn:E.
    + cbn [flat_map hit_text app In result_at m_text] in H. destruct H as [H|H].
      * exists p, (x :: s), st'. split; [exact E | now rewrite <- H].
      * destruct (length (x :: s) - length (rest st'));
          cbn [flat_map hit_text app] in H; eapply IH; eauto.
    + cbn [flat_map hit_text app] in H. eapply IH; eauto.
Qed.



(** * Blocks end at the first closing brace *)

Lemma exec_block_shape : forall kind p s st',
  exec_at (block_regexp kind) p s = Some st' ->
  exists b, s = b ++ rest st' /\ is_block kind b.
Proof.
  intros kind p s st' H. pose proof (exec_block kind p s) as E.
  rewrite H in E. simpl in E. symmetry in E. now apply after_decl_some in E.
Qed.

Lemma firstn_app_exact : forall (b s : text), firstn (length (b ++ s) - length s) (b ++ s) = b.
Proof.
  intros b s. rewrite length_app. replace (length b + length s - length s) with (length b) by lia.
  rewrite firstn_app, Nat.sub_diag, firstn_all. simpl. apply app_nil_r.
Qed.

(** C3 (as amended).  Every block that the scan locates, of any of the
    five kinds, is an opening (keyword, quoted kind, quoted name, opening
    brace) followed by a body without closing brace and by one closing
    brace: the block ends at the first closing brace after the opening
    one, whatever the braces, quotes and heredocs in between. *)
Theorem located_block_shape : forall kind code b,
  In b (find_blocks kind code) -> is_block kind b.
Proof.
  intros kind code b H. unfold find_blocks, matches in H.
  apply scan_hits in H. destruct H as [p [s [st' [He Hb]]]].
  apply exec_block_shape in He. destruct He as [b' [Hs Hblk]].
  rewrite Hs in Hb. rewrite firstn_app_exact in Hb. now subst.
Qed.

(** C3, an instance: the block located in [lambda_with_source]. *)
Lemma located_block_shape_witness :
  In lambda_with_source_block (find_blocks AwsLambda lambda_with_source) /\
  is_block AwsLambda lambda_with_source_block.
Proof.
  split.
  - vm_compute. left. reflexivity.
  - apply (@located_block_shape AwsLambda lambda_with_source). vm_compute. left. reflexivity.
Defined.

(** C3, counterexample.  The block located for a function with a nested
    block stops at the first closing brace: its body opens two braces
    more than it closes. *)
Lemma located_block_unbalanced :
  find_blocks AwsLambda lambda_with_source = [lambda_with_source_block] /\
  brace_balance (block_body lambda_with_source_block) = 2%Z.
Proof. split; vm_compute; reflexivity. Qed.

(** * Text without a closing brace *)

Lemma is_block_has_rbrace : forall kind b, is_block kind b -> In rbrace b.
Proof.
  intros kind b [hdr [body [E _]]]. subst b.
  apply in_or_app. right. right. apply in_or_app. right. now left.
Qed.

Lemma exec_block_needs_rbrace : forall kind p s,
  ~ In rbrace s -> exec_at (block_regexp kind) p s = None.
Proof.
  intros kind p s H. destruct (exec_at (block_regexp kind) p s) as [st'|] eqn:E; [|reflexivity].
  apply exec_block_shape in E. destruct E as [b [Hs Hb]].
  exfalso. apply H. rewrite Hs. apply in_or_app. left. eapply is_block_has_rbrace; eauto.
Qed.

Lemma search_block_needs_rbrace : forall kind s p i,
  ~ In rbrace s -> search_from (block_regexp kind) p s i = None.
Proof.
  intros kind s. induction s as [|x s IH]; intros p i H; simpl;
    rewrite exec_block_needs_rbrace by exact H; [reflexivity|].
  apply IH. intros Hx. apply H. now right.
Qed.

Lemma test_block_needs_rbrace : forall kind s,
  ~ In rbrace s -> test (block_regexp kind) s = false.
Proof.
  intros kind s H. unfold test, jsmatch. now rewrite search_block_needs_rbrace.
Qed.






(** * What the removal of blocks leaves *)

Lemma block_prev_free : forall kind, prev_free (block_regexp kind).
Proof. intros kind p p' s. now rewrite !exec_block. Qed.

Lemma exec_block_none : forall kind p s,
  exec_at (block_regexp kind) p s = None <-> after_decl kind s = None.
Proof.
  intros kind p s. pose proof (exec_block kind p s) as E. split; intros H.
  - now rewrite H in E.
  - rewrite H in E. destruct (exec_at _ _ _); [discriminate | reflexivity].
Qed.

Lemma search_block_indep : forall kind s p p' i i',
  search_from (block_regexp kind) p s i = None ->
  search_from (block_regexp kind) p' s i' = None.
Proof.
  intros kind s. induction s as [|x s IH]; intros p p' i i' H;
    apply search_from_none in H; destruct H as [He Hs]; simpl;
    apply exec_block_none in He; apply (exec_block_none kind p') in He; rewrite He.
  - reflexivity.
  - eapply IH; eauto.
Qed.

Lemma test_block_nil : forall kind, test (block_regexp kind) [] = false.
Proof. intros kind. apply test_block_needs_rbrace. intros []. Qed.

Lemma test_block_cons : forall kind x s,
  after_decl kind (x :: s) = None -> test (block_regexp kind) s = false ->
  test (block_regexp kind) (x :: s) = false.
Proof.
  intros kind x s Ha Ht. unfold test, jsmatch. simpl.
  apply (exec_block_none kind None) in Ha. rewrite Ha.
  apply test_false_search in Ht.
  now rewrite (@search_block_indep kind s None (Some x) 0 1 Ht).
Qed.

Lemma after_decl_more : forall kind s y r,
  after_decl kind s = Some r -> after_decl kind (s ++ y) = Some (r ++ y).
Proof.
  intros kind s y r H. apply after_decl_some in H. destruct H as [b [E Hb]].
  subst s. rewrite <- app_assoc. now apply after_decl_app.
Qed.

Lemma after_decl_none_prefix : forall kind s y,
  after_decl kind (s ++ y) = None -> after_decl kind s = None.
Proof.
  intros kind s y H. destruct (after_decl kind s) as [r|] eqn:E; [|reflexivity].
  rewrite (@after_decl_more kind s y r E) in H. discriminate.
Qed.

Lemma after_decl_nil : forall kind, after_decl kind [] = None.
Proof. intros kind. destruct kind; reflexivity. Qed.

Lemma removal_decomposes : forall kind n code,
  length code <= n ->
  blocks_removed kind code (replace code (block_regexp kind) []).
Proof.
  intros kind n. induction n as [|n IH]; intros code Hn.
  - destruct code; [|simpl in Hn; lia].
    exists [], []. rewrite replace_nil_miss.
    + repeat split; auto. apply test_block_nil.
    + apply exec_block_none, after_decl_nil.
  - destruct code as [|x s].
    { exists [], []. rewrite replace_nil_miss.
      + repeat split; auto. apply test_block_nil.
      + apply exec_block_none, after_decl_nil. }
    destruct (after_decl kind (x :: s)) as [r|] eqn:Ea.
    + destruct (exec_at (block_regexp kind) None (x :: s)) as [st'|] eqn:Ee;
        [|apply exec_block_none in Ee; congruence].
      pose proof (exec_block kind None (x :: s)) as Er. rewrite Ee, Ea in Er.
      simpl in Er. inversion Er as [Er'].
      apply after_decl_some in Ea. destruct Ea as [b [Es Hb]].
      assert (Hne : b <> []) by (eapply is_block_nonempty; eauto).
      rewrite (@replace_hit _ (block_prev_free kind) [] (x :: s) st' b Ee)
        by (rewrite ?Er'; auto).
      rewrite Er'. simpl app.
      assert (Hlen : length r <= n).
      { apply (f_equal (@length char)) in Es. rewrite length_app in Es. simpl in Es, Hn.
        destruct b; [congruence|]. simpl in Es. lia. }
      destruct (IH r Hlen) as [parts [last [H1 [H2 [H3 H4]]]]].
      exists (([], b) :: parts), last. repeat split.
      * simpl. rewrite Es. rewrite <- app_assoc. f_equal. exact H1.
      * simpl. exact H2.
      * constructor; [split; [apply test_block_nil | exact Hb] | exact H3].
      * exact H4.
    + rewrite (@replace_miss _ (block_prev_free kind) [] x s)
        by (now apply exec_block_none).
      assert (Hlen : length s <= n) by (simpl in Hn; lia).
      destruct (IH s Hlen) as [parts [last [H1 [H2 [H3 H4]]]]].
      destruct parts as [|[s0 m0] parts].
      * exists [], (x :: last). simpl in *. repeat split; auto.
        -- now rewrite H1.
        -- now rewrite H2.
        -- apply test_block_cons; [now rewrite <- H1 | exact H4].
      * exists ((x :: s0, m0) :: parts), last. simpl in *. repeat split.
        -- now rewrite H1.
        -- now rewrite H2.
        -- pose proof (Forall_inv H3) as [Ht Hb]. pose proof (Forall_inv_tail H3) as Hrest.
           simpl in Ht, Hb.
           constructor; [split; [|exact Hb] | exact Hrest].
           apply test_block_cons; [|exact Ht]. simpl.
           apply (@after_decl_none_prefix kind (x :: s0)
                    (m0 ++ concat (map (fun sm => fst sm ++ snd sm) parts) ++ last)).
           simpl. rewrite <- Ea. f_equal. f_equal. rewrite H1.
           now rewrite <- !app_assoc.
        -- exact H4.
Qed.

(** C2 (as amended).  The removal of the [local_file] blocks, and likewise
    of the [archive_file] blocks, deletes blocks of that kind (from the
    keyword up to the first closing brace after the opening brace) and
    keeps the stretches of text between them, in none of which the
    expression of that kind finds a declaration.  A declaration of the
    kind can be in the output only across a place where a block was
    deleted. *)
Theorem removal_leaves_block_free_stretches : forall code,
  blocks_removed LocalFile code (remove_local_files code) /\
  blocks_removed ArchiveFile code (remove_archive_files code).
Proof.
  intros code. split.
  - apply (@removal_decomposes LocalFile (length code)). lia.
  - apply (@removal_decomposes ArchiveFile (length code)). lia.
Qed.

(** C2, counterexample.  The input holds an [archive_file] declaration,
    and the output of the generic clean-ups holds a [local_file]
    declaration: the opening and the body that the deleted block stood
    between. *)
Lemma declaration_left_by_cleaner :
  find_blocks ArchiveFile split_declaration = [str "data `archive_file` `z` {}"] /\
  find_blocks LocalFile (generic_cleanups split_declaration)
  = [text_of ["resource `local_file` `a`"; ""; "{"; "  content = `x`"; "}"]].
Proof. split; vm_compute; reflexivity. Qed.

(** * The expression for empty lines *)

Lemma greedy_run_stop : forall p k pr s c,
  drop_while p s = s -> greedy_run p k pr s c = k (mkState pr s c).
Proof.
  intros p k pr s c H. destruct s as [|x s]; [reflexivity|]. simpl in *.
  destruct (p x) eqn:E; [|reflexivity].
  exfalso. pose proof (drop_while_head p s) as Hh.
  destruct (drop_while p s) as [|y t] eqn:Ed; [discriminate|].
  inversion H; subst. specialize (Hh x s eq_refl). congruence.
Qed.

Lemma drop_while_idem : forall p s, drop_while p (drop_while p s) = drop_while p s.
Proof.
  intros p s. induction s as [|x s IH]; simpl; [reflexivity|].
  destruct (p x) eqn:E; [exact IH | simpl; now rewrite E].
Qed.

(** A result of the greedy run is a result of the continuation at some
    split of the run. *)
Lemma greedy_run_result : forall p k s pr c z,
  greedy_run p k pr s c = Some z ->
  exists w t pr', s = w ++ t /\ forallb p w = true /\ k (mkState pr' t c) = Some z.
Proof.
  intros p k s. induction s as [|x s IH]; intros pr c z H; simpl in H.
  - exists [], [], pr. auto.
  - destruct (p x) eqn:E.
    + destruct (greedy_run p k (Some x) s c) eqn:Eg.
      * inversion H; subst. apply IH in Eg. destruct Eg as [w [t [pr' [H1 [H2 H3]]]]].
        exists (x :: w), t, pr'. repeat split; auto.
        -- simpl. now rewrite H1.
        -- simpl. now rewrite E.
      * exists [], (x :: s), pr. auto.
    + exists [], (x :: s), pr. auto.
Qed.

(** The greedy run succeeds when the continuation succeeds at some
    split. *)
Lemma greedy_run_exists : forall p k w t pr c z0,
  forallb p w = true -> k (mkState (adv pr w) t c) = Some z0 ->
  exists z, greedy_run p k pr (w ++ t) c = Some z.
Proof.
  intros p k w. induction w as [|x w IH]; intros t pr c z0 Hw Hk.
  - simpl in *. destruct t as [|y t]; simpl; [eauto|].
    destruct (p y); [|eauto].
    destruct (greedy_run p k (Some y) t c); eauto.
  - simpl in Hw. apply andb_prop in Hw. destruct Hw as [Hx Hw].
    simpl. rewrite Hx. destruct (IH t (Some x) c z0 Hw Hk) as [z Hz].
    rewrite Hz. eauto.
Qed.

Lemma line_group_run : forall K pr s c,
  rmatch false false line_group K (mkState pr s c) =
  match strip_char nl s with
  | Some s1 =>
      greedy_run is_space
        (fun st' => K (set_cap 1 (consumed (mkState pr s c) st') st')) (Some nl) s1 c
  | None => None
  end.
Proof.
  intros. unfold line_group. rewrite rmatch_group, rmatch_cat_cons, rmatch_chr.
  destruct (strip_char nl s) as [s1|]; [|reflexivity].
  rewrite rmatch_cat_cons.
  rewrite (@rmatch_star false false space is_space (space_is_char false false)).
  reflexivity.
Qed.

Lemma is_space_nl : is_space nl = true.
Proof. reflexivity. Qed.

Lemma strip_nl_after_spaces : forall s, strip_char nl (drop_while is_space s) = None.
Proof.
  intros s. destruct (drop_while is_space s) as [|x t] eqn:E; [reflexivity|].
  apply drop_while_head in E. cbn [strip_char]. unfold char_eqb.
  destruct (N.eqb nl x) eqn:En; [|reflexivity].
  apply N.eqb_eq in En. subst x. discriminate.
Qed.

Lemma repeat_unfold_star : forall f m k x,
  repeat_matcher (S f) m 0 None true k x =
  match m (fun y => if Nat.eqb (length (rest y)) (length (rest x)) then None
                    else repeat_matcher f m 0 None true k y) x with
  | Some z => Some z
  | None => k x
  end.
Proof. reflexivity. Qed.

Lemma repeat_unfold_min : forall f m n g k x,
  repeat_matcher (S f) m (S n) None g k x =
  m (fun y => repeat_matcher f m n None g k y) x.
Proof. reflexivity. Qed.

(** No further iteration where the input does not go on with a line
    feed. *)
Lemma lines_star_stop : forall f pr r c,
  strip_char nl r = None ->
  repeat_matcher (S f) (rmatch false false line_group) 0 None true k_end (mkState pr r c)
  = Some (mkState pr r c).
Proof.
  intros f pr r c H. rewrite repeat_unfold_star, line_group_run, H. reflexivity.
Qed.

Lemma lines_one_fail : forall f k pr s c,
  strip_char nl s = None ->
  repeat_matcher f (rmatch false false line_group) 1 None true k (mkState pr s c) = None.
Proof.
  intros f k pr s c H. destruct f as [|f]; [reflexivity|].
  rewrite repeat_unfold_min, line_group_run, H. reflexivity.
Qed.

(** One more iteration takes a line feed and all the white space after
    it. *)
Lemma lines_one : forall f pr v c,
  exists z,
    repeat_matcher (S (S f)) (rmatch false false line_group) 1 None true k_end
                   (mkState pr (nl :: v) c) = Some z /\
    rest z = drop_while is_space v.
Proof.
  intros f pr v c.
  rewrite repeat_unfold_min, line_group_run, strip_char_cons.
  match goal with
  | |- exists z, greedy_run ?p ?K ?q v ?c0 = Some z /\ _ =>
      assert (H : exists z, greedy_run p K q (take_while is_space v ++ drop_while is_space v) c0
                            = Some z /\ rest z = drop_while is_space v)
  end.
  { eexists. split.
    - apply greedy_run_skip; [apply take_while_all|].
      rewrite greedy_run_stop by apply drop_while_idem.
      unfold set_cap. cbn [rest prev caps]. apply lines_star_stop, strip_nl_after_spaces.
    - reflexivity. }
  rewrite take_drop_while in H. exact H.
Qed.

Lemma exec_empty_lines_unfold : forall p s,
  exec_at re_empty_lines p s =
  match strip_char nl s with
  | Some s1 =>
      greedy_run is_space
        (fun st' =>
           repeat_matcher (S (S (length s))) (rmatch false false line_group) 1 None true k_end
                          (set_cap 1 (consumed (mkState p s []) st') st'))
        (Some nl) s1 []
  | None => None
  end.
Proof.
  intros p s. unfold exec_at, re_empty_lines. cbn [source multiline dotAll].
  change (rmatch false false (Quant 2 None true (Group 1 (cat [Chr nl; star space])))
            (fun st => Some st) (mkState p s []))
    with (repeat_matcher (2 + length s + 1) (rmatch false false line_group) 2 None true
            k_end (mkState p s [])).
  replace (2 + length s + 1) with (S (S (S (length s)))) by lia.
  rewrite repeat_unfold_min, line_group_run. reflexivity.
Qed.

Lemma has_nl_app : forall a b, has_nl (a ++ b) = has_nl a || has_nl b.
Proof. intros. unfold has_nl. apply existsb_app. Qed.

Lemma strip_char_none_or : forall c s,
  strip_char c s = None \/ exists v, s = c :: v.
Proof.
  intros c s. destruct (strip_char c s) as [v|] eqn:E; [right|now left].
  exists v. now apply strip_char_some.
Qed.

Lemma exec_empty_lines_some : forall p s z,
  exec_at re_empty_lines p s = Some z ->
  blank_run s = true /\ rest z = drop_while is_space s.
Proof.
  intros p s z H. rewrite exec_empty_lines_unfold in H.
  destruct (strip_char nl s) as [u|] eqn:Es; [|discriminate].
  apply strip_char_some in Es. subst s.
  apply greedy_run_result in H. destruct H as [w [t [pr' [Hu [Hw Hk]]]]].
  unfold set_cap in Hk. cbn [rest prev caps] in Hk.
  destruct (strip_char_none_or nl t) as [Hn|[v Hv]].
  - rewrite lines_one_fail in Hk by exact Hn. discriminate.
  - subst t.
    match type of Hk with
    | repeat_matcher (S (S ?f)) _ _ _ _ _ (mkState ?q _ ?c0) = _ =>
        destruct (lines_one f q v c0) as [z' [Hz' Hr]]
    end.
    rewrite Hz' in Hk. inversion Hk; subst z'. subst u. split.
    + cbn [blank_run]. rewrite take_while_app by exact Hw.
      rewrite has_nl_app. cbn [take_while]. rewrite is_space_nl. cbn [has_nl existsb].
      unfold char_eqb at 1 2. rewrite N.eqb_refl. cbn [orb andb]. apply orb_true_r.
    + rewrite Hr. cbn [drop_while]. rewrite is_space_nl.
      rewrite drop_while_app by exact Hw. cbn [drop_while]. now rewrite is_space_nl.
Qed.

Lemma has_nl_split : forall w, has_nl w = true -> exists w1 w2, w = w1 ++ nl :: w2.
Proof.
  intros w H. unfold has_nl in H. apply existsb_exists in H.
  destruct H as [x [Hin Hx]]. apply N.eqb_eq in Hx. subst x.
  now apply in_split.
Qed.

Lemma exec_empty_lines_exists : forall p s,
  blank_run s = true -> exists z, exec_at re_empty_lines p s = Some z.
Proof.
  intros p s H. rewrite exec_empty_lines_unfold.
  destruct s as [|x u]; [discriminate|]. cbn [blank_run] in H.
  apply andb_prop in H. destruct H as [Hx Hn].
  apply N.eqb_eq in Hx. subst x. rewrite strip_char_cons.
  apply has_nl_split in Hn. destruct Hn as [w1 [w2 Hw]].
  pose proof (take_while_all is_space u) as Hall. rewrite Hw in Hall.
  rewrite forallb_app in Hall. apply andb_prop in Hall. destruct Hall as [Hall1 _].
  rewrite <- (take_drop_while is_space u). rewrite Hw. rewrite <- app_assoc.
  match goal with
  | |- exists z, greedy_run _ ?K ?q (w1 ++ ?t) ?c0 = Some z =>
      destruct (lines_one (length (nl :: w1 ++ t)) (adv q w1) (w2 ++ drop_while is_space u)
                          ((1, consumed (mkState p (nl :: w1 ++ t) [])
                                 (mkState (adv q w1) t c0)) :: c0))
        as [z0 [Hz0 _]]
  end.
  eapply greedy_run_exists; [exact Hall1|].
  unfold set_cap. cbn [rest prev caps]. 
  rewrite <- Hz0. reflexivity.
Qed.

Lemma exec_empty_lines : forall p s,
  option_map rest (exec_at re_empty_lines p s) =
  if blank_run s then Some (drop_while is_space s) else None.
Proof.
  intros p s. destruct (exec_at re_empty_lines p s) as [z|] eqn:E.
  - apply exec_empty_lines_some in E. destruct E as [Hb Hr]. cbn [option_map]. now rewrite Hb, Hr.
  - destruct (blank_run s) eqn:Hb; [|reflexivity].
    destruct (exec_empty_lines_exists p s Hb) as [z Hz]. congruence.
Qed.

Lemma empty_lines_prev_free : prev_free re_empty_lines.
Proof. intros p p' s. now rewrite !exec_empty_lines. Qed.

(** The three equations of the collapse of empty lines. *)
Lemma collapse_nil : collapse_empty_lines [] = [].
Proof.
  unfold collapse_empty_lines. apply replace_nil_miss.
  destruct (exec_at re_empty_lines None []) eqn:E; [|reflexivity].
  apply exec_empty_lines_some in E. destruct E as [Hb _]. discriminate.
Qed.

Lemma collapse_miss : forall x s,
  blank_run (x :: s) = false ->
  collapse_empty_lines (x :: s) = x :: collapse_empty_lines s.
Proof.
  intros x s H. unfold collapse_empty_lines.
  apply (replace_miss empty_lines_prev_free).
  destruct (exec_at re_empty_lines None (x :: s)) eqn:E; [|reflexivity].
  apply exec_empty_lines_some in E. destruct E as [Hb _]. congruence.
Qed.

Lemma blank_run_starts : forall s, blank_run s = true -> exists u, s = nl :: u.
Proof.
  intros [|x u] H; [discriminate|]. cbn [blank_run] in H. apply andb_prop in H.
  destruct H as [H _]. apply N.eqb_eq in H. subst. eauto.
Qed.

Lemma collapse_hit : forall s,
  blank_run s = true ->
  collapse_empty_lines s = nl :: nl :: collapse_empty_lines (drop_while is_space s).
Proof.
  intros s H. unfold collapse_empty_lines.
  destruct (exec_empty_lines_exists None s H) as [z Ez].
  pose proof (exec_empty_lines_some _ _ Ez) as [_ Er].
  rewrite (@replace_hit _ empty_lines_prev_free [nl; nl] s z (take_while is_space s) Ez).
  - now rewrite Er.
  - rewrite Er. now rewrite take_drop_while.
  - apply blank_run_starts in H. destruct H as [u ->]. simpl. discriminate.
Qed.

(** * Runs of white space *)

Lemma drop_while_nil_all : forall p s, drop_while p s = [] -> forallb p s = true.
Proof.
  intros p s H. rewrite <- (take_drop_while p s) at 1. rewrite H, app_nil_r.
  apply take_while_all.
Qed.

Lemma take_while_id : forall p s, forallb p s = true -> take_while p s = s.
Proof.
  intros p s. induction s as [|x s IH]; simpl; intros H; [reflexivity|].
  apply andb_prop in H. destruct H as [Hx Hs]. rewrite Hx. now rewrite IH.
Qed.

Lemma take_while_app_stop : forall p a b,
  drop_while p a <> [] -> take_while p (a ++ b) = take_while p a.
Proof.
  intros p a b. induction a as [|x a IH]; simpl; intros H; [congruence|].
  destruct (p x); [now rewrite IH | reflexivity].
Qed.

Lemma drop_while_app_stop : forall p a b,
  drop_while p a <> [] -> drop_while p (a ++ b) = drop_while p a ++ b.
Proof.
  intros p a b. induction a as [|x a IH]; simpl; intros H; [congruence|].
  destruct (p x); [now rewrite IH | reflexivity].
Qed.

Lemma take_while_prefix : forall p u v, exists t,
  take_while p (u ++ v) = take_while p u ++ t.
Proof.
  intros p u v. induction u as [|x u [t IH]]; simpl.
  - exists (take_while p v). reflexivity.
  - destruct (p x); [exists t; now rewrite IH | exists []; reflexivity].
Qed.

Lemma drop_while_length : forall p s, length (drop_while p s) <= length s.
Proof.
  intros p s. induction s as [|x s IH]; simpl; [lia|].
  destruct (p x); simpl; lia.
Qed.

Lemma forallb_rev : forall (p : char -> bool) s, forallb p (rev s) = forallb p s.
Proof.
  intros p s. induction s as [|x s IH]; simpl; [reflexivity|].
  rewrite forallb_app, IH. simpl. rewrite andb_true_r. apply andb_comm.
Qed.

Lemma has_nl_rev : forall s, has_nl (rev s) = has_nl s.
Proof.
  intros s. induction s as [|x s IH]; simpl; [reflexivity|].
  rewrite has_nl_app, IH. simpl. rewrite orb_false_r. apply orb_comm.
Qed.

(** * The end of the line *)

Lemma ends_in_line_suffix : forall a suf,
  ends_in_line (a ++ suf) = true -> ends_in_line suf = true.
Proof.
  intros a suf H. unfold ends_in_line in *. rewrite rev_app_distr in H.
  destruct (take_while_prefix is_space (rev suf) (rev a)) as [t Ht].
  rewrite Ht, has_nl_app in H.
  destruct (has_nl (take_while is_space (rev suf))); [discriminate | reflexivity].
Qed.

Lemma ends_in_line_tail : forall x s, ends_in_line (x :: s) = true -> ends_in_line s = true.
Proof. intros x s. apply (ends_in_line_suffix [x] s). Qed.

Lemma ends_in_line_stops : forall s,
  ends_in_line (nl :: s) = true -> drop_while is_space s <> [].
Proof.
  intros s H Hd. apply drop_while_nil_all in Hd.
  unfold ends_in_line in H. simpl rev in H.
  rewrite take_while_id in H.
  - rewrite has_nl_app in H. simpl in H. now rewrite orb_true_r in H.
  - rewrite forallb_app, forallb_rev, Hd. reflexivity.
Qed.

Lemma blank_run_app : forall x s y,
  ends_in_line (x :: s) = true -> blank_run ((x :: s) ++ y) = blank_run (x :: s).
Proof.
  intros x s y H. cbn [app blank_run]. unfold char_eqb.
  destruct (N.eqb nl x) eqn:E; [|reflexivity].
  apply N.eqb_eq in E. subst x.
  now rewrite take_while_app_stop by now apply ends_in_line_stops.
Qed.

(** * The collapse of empty lines, piece by piece *)

Lemma collapse_app_bounded : forall n pre y,
  length pre <= n -> ends_in_line pre = true ->
  collapse_empty_lines (pre ++ y) = collapse_empty_lines pre ++ collapse_empty_lines y.
Proof.
  induction n as [|n IH]; intros pre y Hn He.
  - destruct pre; [|simpl in Hn; lia]. now rewrite collapse_nil.
  - destruct pre as [|x s]; [now rewrite collapse_nil|].
    pose proof (blank_run_app x s y He) as Hb.
    destruct (blank_run (x :: s)) eqn:Hx.
    + rewrite (collapse_hit _ Hb), (collapse_hit _ Hx).
      destruct (blank_run_starts _ Hx) as [u Hu]. inversion Hu; subst x u.
      assert (Hd : drop_while is_space (nl :: s) <> [])
        by (cbn [drop_while]; rewrite is_space_nl; now apply ends_in_line_stops).
      rewrite drop_while_app_stop by exact Hd.
      rewrite IH.
      * reflexivity.
      * cbn [drop_while]. rewrite is_space_nl.
        pose proof (drop_while_length is_space s). simpl in Hn. lia.
      * rewrite <- (take_drop_while is_space (nl :: s)) in He.
        now apply ends_in_line_suffix in He.
    + change ((x :: s) ++ y) with (x :: s ++ y) in *.
      rewrite (collapse_miss _ _ Hb), (collapse_miss _ _ Hx).
      rewrite IH; [reflexivity | simpl in Hn; lia | now apply ends_in_line_tail in He].
Qed.

Lemma collapse_app : forall pre y,
  ends_in_line pre = true ->
  collapse_empty_lines (pre ++ y) = collapse_empty_lines pre ++ collapse_empty_lines y.
Proof. intros pre y. apply (@collapse_app_bounded (length pre)). lia. Qed.

Lemma collapse_run : forall ws post,
  blank_run ws = true -> forallb is_space ws = true -> drop_while is_space post = post ->
  collapse_empty_lines (ws ++ post) = nl :: nl :: collapse_empty_lines post.
Proof.
  intros ws post Hb Hs Hp.
  assert (Hb' : blank_run (ws ++ post) = true).
  { destruct (blank_run_starts _ Hb) as [u ->]. cbn [app blank_run] in *.
    apply andb_prop in Hb. destruct Hb as [_ Hn].
    simpl in Hs. rewrite take_while_app by exact Hs.
    rewrite take_while_id in Hn by exact Hs.
    rewrite has_nl_app, Hn. reflexivity. }
  rewrite (collapse_hit _ Hb'). rewrite drop_while_app by exact Hs. now rewrite Hp.
Qed.

Lemma drop_while_fixed_head : forall p x s, drop_while p (x :: s) = x :: s -> p x = false.
Proof.
  intros p x s H. simpl in H. destruct (p x) eqn:E; [|reflexivity].
  pose proof (drop_while_length p s) as Hl. rewrite H in Hl. simpl in Hl. lia.
Qed.

Lemma drop_while_fixed_take : forall p s, drop_while p s = s -> take_while p s = [].
Proof.
  intros p [|x s] H; [reflexivity|].
  apply drop_while_fixed_head in H. simpl. now rewrite H.
Qed.

Lemma drop_while_snoc : forall p s c, p c = false -> drop_while p (s ++ [c]) = drop_while p s ++ [c].
Proof.
  intros p s c H. induction s as [|x s IH]; simpl; [now rewrite H|].
  destruct (p x); [exact IH | reflexivity].
Qed.

Lemma not_space_not_nl : forall x, is_space x = false -> char_eqb nl x = false.
Proof.
  intros x H. unfold char_eqb. destruct (N.eqb nl x) eqn:E; [|reflexivity].
  apply N.eqb_eq in E. subst x. discriminate.
Qed.

Lemma blank_run_not_space : forall x s, is_space x = false -> blank_run (x :: s) = false.
Proof. intros x s H. cbn [blank_run]. now rewrite not_space_not_nl. Qed.

Lemma collapse_head : forall post,
  drop_while is_space post = post ->
  drop_while is_space (collapse_empty_lines post) = collapse_empty_lines post.
Proof.
  intros [|x s] H; [now rewrite collapse_nil|].
  apply drop_while_fixed_head in H.
  rewrite collapse_miss by now apply blank_run_not_space.
  simpl. now rewrite H.
Qed.

Lemma collapse_take : forall t,
  has_nl (take_while is_space t) = false ->
  take_while is_space (collapse_empty_lines t) = take_while is_space t.
Proof.
  induction t as [|x t IH]; intros H; [now rewrite collapse_nil|].
  cbn [take_while] in *. destruct (is_space x) eqn:Ex.
  - cbn [has_nl existsb] in H. apply orb_false_elim in H. destruct H as [Hx Ht].
    rewrite collapse_miss by (cbn [blank_run]; now rewrite Hx).
    cbn [take_while]. rewrite Ex. f_equal. now apply IH.
  - rewrite collapse_miss by now apply blank_run_not_space.
    cbn [take_while]. now rewrite Ex.
Qed.

Lemma collapse_no_nl : forall s, has_nl s = false -> collapse_empty_lines s = s.
Proof.
  induction s as [|x s IH]; intros H; [apply collapse_nil|].
  cbn [has_nl existsb] in H. apply orb_false_elim in H. destruct H as [Hx Hs].
  rewrite collapse_miss by (cbn [blank_run]; now rewrite Hx).
  f_equal. now apply IH.
Qed.

Lemma collapse_snoc_bounded : forall n s c,
  length s <= n -> is_space c = false ->
  exists z, collapse_empty_lines (s ++ [c]) = z ++ [c].
Proof.
  induction n as [|n IH]; intros s c Hn Hc.
  - destruct s; [|simpl in Hn; lia]. exists [].
    simpl. rewrite collapse_miss by now apply blank_run_not_space.
    now rewrite collapse_nil.
  - destruct s as [|x s].
    { exists []. simpl. rewrite collapse_miss by now apply blank_run_not_space.
      now rewrite collapse_nil. }
    destruct (blank_run ((x :: s) ++ [c])) eqn:Hb.
    + rewrite (collapse_hit _ Hb). rewrite drop_while_snoc by exact Hc.
      destruct (IH (drop_while is_space (x :: s)) c) as [z Hz]; [|exact Hc|].
      * destruct (blank_run_starts _ Hb) as [u Hu]. inversion Hu; subst x.
        cbn [drop_while]. rewrite is_space_nl.
        pose proof (drop_while_length is_space s). simpl in Hn. lia.
      * exists (nl :: nl :: z). now rewrite Hz.
    + change ((x :: s) ++ [c]) with (x :: s ++ [c]) in *.
      rewrite (collapse_miss _ _ Hb).
      destruct (IH s c) as [z Hz]; [simpl in Hn; lia | exact Hc |].
      exists (x :: z). now rewrite Hz.
Qed.

Lemma ends_in_line_snoc : forall s c, is_space c = false -> ends_in_line (s ++ [c]) = true.
Proof.
  intros s c H. unfold ends_in_line. rewrite rev_app_distr. simpl. now rewrite H.
Qed.

Lemma collapse_ends_in_line : forall pre,
  ends_in_line pre = true -> ends_in_line (collapse_empty_lines pre) = true.
Proof.
  intros pre H.
  pose proof (take_drop_while is_space (rev pre)) as Hsplit.
  pose proof (take_while_all is_space (rev pre)) as Hall.
  assert (Hn : has_nl (take_while is_space (rev pre)) = false)
    by (unfold ends_in_line in H; now destruct (has_nl _)).
  set (t := take_while is_space (rev pre)) in *.
  destruct (drop_while is_space (rev pre)) as [|c r] eqn:Ed.
  - rewrite app_nil_r in Hsplit.
    assert (Hp : has_nl pre = false) by (rewrite <- has_nl_rev, <- Hsplit; exact Hn).
    now rewrite collapse_no_nl.
  - apply drop_while_head in Ed.
    assert (Hpre : pre = (rev r ++ [c]) ++ rev t).
    { rewrite <- (rev_involutive pre), <- Hsplit, rev_app_distr. simpl. reflexivity. }
    rewrite Hpre. rewrite collapse_app by now apply ends_in_line_snoc.
    rewrite (@collapse_no_nl (rev t)) by now rewrite has_nl_rev.
    destruct (@collapse_snoc_bounded (length (rev r)) (rev r) c (le_n _) Ed) as [z Hz].
    rewrite Hz. unfold ends_in_line.
    rewrite !rev_app_distr, rev_involutive. simpl.
    rewrite take_while_app by exact Hall. simpl. rewrite Ed, app_nil_r.
    now rewrite Hn.
Qed.

(** * Trimming *)

Lemma trim_start_drop : forall s, trim_start s = drop_while is_space s.
Proof.
  induction s as [|x s IH]; simpl; [reflexivity|].
  destruct (is_space x); [exact IH | reflexivity].
Qed.

Lemma trim_unfold : forall s,
  trim s = rev (drop_while is_space (rev (drop_while is_space s))).
Proof. intros s. unfold trim, trim_end. now rewrite !trim_start_drop. Qed.

Lemma trim_is_trimmed : forall s, trimmed (trim s).
Proof.
  intros s. rewrite trim_unfold. unfold trimmed. split.
  - destruct (drop_while is_space s) as [|c a] eqn:Ea; [reflexivity|].
    apply drop_while_head in Ea. simpl rev.
    rewrite drop_while_snoc by exact Ea. rewrite rev_app_distr. simpl. now rewrite Ea.
  - rewrite rev_involutive. apply drop_while_idem.
Qed.

Lemma trimmed_trim : forall s, trimmed s -> trim s = s.
Proof.
  intros s [H1 H2]. rewrite trim_unfold, H1, H2. apply rev_involutive.
Qed.

Lemma trim_idempotent : forall s, trim (trim s) = trim s.
Proof. intros s. apply trimmed_trim, trim_is_trimmed. Qed.

(** * Idempotence of the collapse followed by the trim *)

Lemma stable_suffix : forall a b, stable (a ++ b) -> stable b.
Proof.
  intros a b H a' b' E Hb. apply (H (a ++ a') b'); [now rewrite E, app_assoc | exact Hb].
Qed.

Lemma stable_nil : stable [].
Proof.
  intros a b E Hb. symmetry in E. apply app_eq_nil in E. destruct E as [_ ->]. discriminate.
Qed.

Lemma stable_cons : forall x s,
  blank_run (x :: s) = false -> stable s -> stable (x :: s).
Proof.
  intros x s Hb Hs a b E Hbb. destruct a as [|y a].
  - simpl in E. subst b. congruence.
  - simpl in E. inversion E; subst. now apply (Hs a b).
Qed.

Lemma stable_collapse_id_bounded : forall n s,
  length s <= n -> stable s -> collapse_empty_lines s = s.
Proof.
  induction n as [|n IH]; intros s Hn Hs.
  - destruct s; [apply collapse_nil | simpl in Hn; lia].
  - destruct s as [|x s]; [apply collapse_nil|].
    destruct (blank_run (x :: s)) eqn:Hb.
    + rewrite (collapse_hit _ Hb).
      pose proof (Hs [] (x :: s) eq_refl Hb) as Ht.
      pose proof (take_drop_while is_space (x :: s)) as Hsplit.
      rewrite Ht in Hsplit.
      remember (drop_while is_space (x :: s)) as d eqn:Ed. clear Ed.
      rewrite IH.
      * exact Hsplit.
      * apply (f_equal (@length char)) in Hsplit. simpl in Hsplit, Hn. lia.
      * apply (@stable_suffix [nl; nl]). now rewrite Hsplit.
    + rewrite (collapse_miss _ _ Hb). f_equal. apply IH; [simpl in Hn; lia|].
      now apply (@stable_suffix [x]).
Qed.

Lemma collapse_stable_bounded : forall n t,
  length t <= n -> stable (collapse_empty_lines t).
Proof.
  induction n as [|n IH]; intros t Hn.
  - destruct t; [|simpl in Hn; lia]. rewrite collapse_nil. apply stable_nil.
  - destruct t as [|x t]; [rewrite collapse_nil; apply stable_nil|].
    destruct (blank_run (x :: t)) eqn:Hb.
    + rewrite (collapse_hit _ Hb).
      assert (Hlen : length (drop_while is_space (x :: t)) <= n).
      { destruct (blank_run_starts _ Hb) as [u Hu]. inversion Hu; subst x u.
        cbn [drop_while]. rewrite is_space_nl.
        pose proof (drop_while_length is_space t). simpl in Hn. lia. }
      set (z := collapse_empty_lines (drop_while is_space (x :: t))).
      assert (Hz : stable z) by (apply IH; exact Hlen).
      assert (Hh : take_while is_space z = [])
        by (apply drop_while_fixed_take, collapse_head, drop_while_idem).
      intros a b E Hbb. destruct a as [|y1 [|y2 a]]; simpl in E.
      * subst b. cbn [take_while]. rewrite is_space_nl. now rewrite Hh.
      * inversion E; subst. cbn [blank_run] in Hbb. rewrite Hh in Hbb.
        simpl in Hbb. discriminate.
      * inversion E; subst. now apply (Hz a b).
    + rewrite (collapse_miss _ _ Hb). apply stable_cons.
      * cbn [blank_run] in *. destruct (char_eqb nl x); [|reflexivity].
        simpl in Hb. simpl. now rewrite collapse_take.
      * apply IH. simpl in Hn. lia.
Qed.

Lemma trim_end_split : forall s, exists q,
  s = trim_end s ++ q /\ forallb is_space q = true /\
  (trim_end s = [] \/ exists p c, trim_end s = p ++ [c] /\ is_space c = false).
Proof.
  intros s. unfold trim_end. rewrite trim_start_drop.
  exists (rev (take_while is_space (rev s))). repeat split.
  - rewrite <- rev_app_distr, take_drop_while. now rewrite rev_involutive.
  - rewrite forallb_rev. apply take_while_all.
  - destruct (drop_while is_space (rev s)) as [|c r] eqn:E; [now left|].
    right. exists (rev r), c. split; [reflexivity | now apply drop_while_head in E].
Qed.

Lemma stable_trim_end : forall s, stable s -> stable (trim_end s).
Proof.
  intros s Hs. destruct (trim_end_split s) as [q [Hq [Hall Hend]]].
  intros a b E Hb.
  destruct Hend as [Hnil|[p [c [Hp Hc]]]].
  - rewrite Hnil in E. symmetry in E. apply app_eq_nil in E. destruct E as [_ ->]. discriminate.
  - assert (Hb' : exists b', b = b' ++ [c]).
    { destruct (exists_last (l := b)) as [b' [y Hy]]; [intros ->; discriminate|].
      exists b'. rewrite Hy in E. rewrite Hp, app_assoc in E.
      apply app_inj_tail in E. destruct E as [_ ->]. exact Hy. }
    destruct Hb' as [b' Eb].
    assert (Hel : ends_in_line b = true) by (rewrite Eb; now apply ends_in_line_snoc).
    destruct b as [|x b0]; [discriminate|].
    pose proof (blank_run_app x b0 q Hel) as Hrun. rewrite Hb in Hrun.
    assert (Hst : take_while is_space ((x :: b0) ++ q) = [nl; nl]).
    { apply (Hs a ((x :: b0) ++ q)); [|exact Hrun].
      rewrite Hq at 1. rewrite E. now rewrite app_assoc. }
    rewrite take_while_app_stop in Hst; [exact Hst|].
    rewrite Eb, drop_while_snoc by exact Hc. now destruct (drop_while is_space b').
Qed.

Lemma stable_trim : forall s, stable s -> stable (trim s).
Proof.
  intros s Hs. unfold trim. apply stable_trim_end.
  rewrite trim_start_drop.
  apply (@stable_suffix (take_while is_space s)). now rewrite take_drop_while.
Qed.

(** C1 (as amended).  The last step of the clean-up, the collapse of empty
    lines followed by the trim, is idempotent: run on its own output it
    changes nothing.  (The whole clean-up is not idempotent, see
    [pipeline_not_idempotent].) *)
Theorem collapse_and_trim_idempotent : forall code,
  collapse_and_trim (collapse_and_trim code) = collapse_and_trim code.
Proof.
  intros code. unfold collapse_and_trim.
  rewrite (@stable_collapse_id_bounded (length (trim (collapse_empty_lines code)))).
  - apply trim_idempotent.
  - lia.
  - apply stable_trim. apply (@collapse_stable_bounded (length code)). lia.
Qed.

(** C1, counterexample.  On a code cut off inside an interpolation that is
    followed by two more lines and a closed interpolation, the second
    run of the clean-up for AWS closes an interpolation that the first
    run left open: the two results differ. *)
Lemma pipeline_not_idempotent :
  sanitize (str "aws") (sanitize (str "aws") unclosed_interpolation)
  <> sanitize (str "aws") unclosed_interpolation.
Proof. intros H. vm_compute in H. discriminate. Qed.

(** * A run of empty lines *)

Lemma collapse_keeps_text : forall s,
  drop_while is_space s <> [] -> drop_while is_space (collapse_empty_lines s) <> [].
Proof.
  induction s as [|x s IH]; intros H; [now simpl in H|].
  destruct (blank_run (x :: s)) eqn:Hb.
  - rewrite (collapse_hit _ Hb).
    pose proof (drop_while_idem is_space (x :: s)) as Hi.
    destruct (drop_while is_space (x :: s)) as [|y r] eqn:Ed; [congruence|].
    apply drop_while_head in Ed.
    rewrite collapse_miss by now apply blank_run_not_space.
    cbn [drop_while]. rewrite is_space_nl, Ed. discriminate.
  - rewrite (collapse_miss _ _ Hb). cbn [drop_while] in *.
    destruct (is_space x); [now apply IH | discriminate].
Qed.

Lemma trim_around : forall a b,
  drop_while is_space a <> [] -> drop_while is_space (rev b) <> [] ->
  trim (a ++ nl :: nl :: b) = drop_while is_space a ++ nl :: nl :: trim_end b.
Proof.
  intros a b Ha Hb. rewrite trim_unfold.
  rewrite drop_while_app_stop by exact Ha.
  rewrite rev_app_distr. cbn [rev]. rewrite <- !app_assoc. cbn [app].
  rewrite drop_while_app_stop by exact Hb.
  rewrite rev_app_distr. cbn [rev]. rewrite rev_involutive.
  rewrite <- !app_assoc. cbn [app].
  unfold trim_end. now rewrite trim_start_drop.
Qed.

(** C8.  A run of white space that starts with a line feed and holds at
    least one more, after a text [pre] whose last line it ends and before
    a text [post] that starts with visible text, becomes two line feeds,
    that is one empty line, between what the collapse makes of [pre] and
    of [post]; the result of the final step has no white space at its
    ends, and when there is visible text on both sides the empty line is
    in the final result, between the two. *)
Theorem empty_lines_collapse : forall pre ws post,
  ends_in_line pre = true ->
  blank_run ws = true -> forallb is_space ws = true ->
  drop_while is_space post = post ->
  collapse_empty_lines (pre ++ ws ++ post) =
    collapse_empty_lines pre ++ [nl; nl] ++ collapse_empty_lines post /\
  ends_in_line (collapse_empty_lines pre) = true /\
  drop_while is_space (collapse_empty_lines post) = collapse_empty_lines post /\
  trimmed (collapse_and_trim (pre ++ ws ++ post)) /\
  (drop_while is_space pre <> [] -> post <> [] ->
   collapse_and_trim (pre ++ ws ++ post) =
     drop_while is_space (collapse_empty_lines pre) ++ [nl; nl] ++
     trim_end (collapse_empty_lines post)).
Proof.
  intros pre ws post Hpre Hrun Hws Hpost.
  assert (E : collapse_empty_lines (pre ++ ws ++ post) =
              collapse_empty_lines pre ++ [nl; nl] ++ collapse_empty_lines post).
  { rewrite collapse_app by exact Hpre. now rewrite collapse_run. }
  split; [exact E|].
  split; [now apply collapse_ends_in_line|].
  split; [now apply collapse_head|].
  split; [apply trim_is_trimmed|].
  intros Hp Hq. unfold collapse_and_trim. rewrite E. cbn [app].
  apply trim_around; [now apply collapse_keeps_text|].
  destruct post as [|x post]; [congruence|].
  apply drop_while_fixed_head in Hpost.
  rewrite collapse_miss by now apply blank_run_not_space.
  cbn [rev]. rewrite drop_while_snoc by exact Hpost.
  now destruct (drop_while is_space (rev (collapse_empty_lines post))).
Qed.

(** C8, an instance: three empty lines. *)
Lemma empty_lines_collapse_witness :
  ends_in_line (str "a = 1") = true /\
  blank_run [nl; nl; nl; nl] = true /\
  collapse_and_trim three_empty_lines = text_of ["a = 1"; ""; "b = 2"].
Proof.
  split; [reflexivity|]. split; [reflexivity|].
  pose proof (@empty_lines_collapse (str "a = 1") [nl; nl; nl; nl] (lines ["b = 2"])
                eq_refl eq_refl eq_refl eq_refl) as [_ [_ [_ [_ H]]]].
  change (str "a = 1" ++ [nl; nl; nl; nl] ++ lines ["b = 2"]) with three_empty_lines in H.
  rewrite H; [vm_compute; reflexivity | discriminate | discriminate].
Defined.

(** * The scenario of the three blocks *)







(** * A block that holds its source *)




(** * The handlers *)

(** C4 (as amended).  When neither the provider detected in the diagram
    nor the one of the query parameter is, in lower case, one of aws,
    azure and gcp, [/upload] answers with status 400 and leaves the
    state as it was: no code is generated or cleaned.  Whenever a
    provider is accepted, it is one of the three. *)
Theorem unsupported_provider_rejected :
  forall askModel uniqueTfFilePath tflintPath detected query sv,
    includes supportedProviders (provider_token detected) = false ->
    includes supportedProviders (provider_token query) = false ->
    (exists error action,
       upload askModel uniqueTfFilePath tflintPath detected query sv
       = (SendError 400 error action, sv)) /\
    (forall d q cloudProvider,
       resolve_provider d q = UseProvider cloudProvider ->
       includes supportedProviders cloudProvider = true).
Proof.
  intros askModel path tfl detected query sv Hd Hq. split.
  - unfold upload, resolve_provider. cbv zeta.
    assert (E : (text_eqb (if truthy detected then toLowerCase (value_of detected)
                           else str "unknown") (str "unknown")
                 || negb (includes supportedProviders
                            (if truthy detected then toLowerCase (value_of detected)
                             else str "unknown"))) = true).
    { destruct (truthy detected); [|reflexivity].
      unfold provider_token in Hd. rewrite Hd. apply orb_true_r. }
    rewrite E. unfold provider_token in Hq.
    destruct query as [[|x q]|]; cbn [truthy value_of andb];
      try (eexists; eexists; reflexivity).
    cbn [value_of] in Hq. rewrite Hq.
    cbn [truthy toLowerCase map andb negb]. eexists; eexists; reflexivity.
  - intros d q cp H. unfold resolve_provider in H. cbv zeta in H.
    destruct (text_eqb _ (str "unknown") || negb (includes supportedProviders _)) eqn:E.
    + destruct q as [[|x q]|]; cbn [truthy value_of andb] in H; try discriminate.
      destruct (includes supportedProviders (toLowerCase (x :: q))) eqn:Ei.
      * cbn [truthy toLowerCase map andb] in H. injection H as Hcp.
        rewrite <- Hcp. exact Ei.
      * cbn [truthy toLowerCase map andb negb] in H. discriminate.
    + injection H as Hcp. rewrite <- Hcp.
      apply orb_false_elim in E. destruct E as [_ E].
      now apply negb_false_iff in E.
Qed.

(** C4, an instance: the diagram says unknown and the query names a
    provider that is not supported. *)
Lemma unsupported_provider_rejected_witness :
  includes supportedProviders (provider_token (Some (str "unknown"))) = false /\
  includes supportedProviders (provider_token (Some (str "oracle"))) = false /\
  exists error action,
    upload (fun _ => Some plain_lambda) (str "generated_1.tf") (str ".tflint.hcl")
           (Some (str "unknown")) (Some (str "oracle")) (mkServer [] [] [])
    = (SendError 400 error action, mkServer [] [] []).
Proof.
  split; [reflexivity|]. split; [reflexivity|].
  destruct (@unsupported_provider_rejected (fun _ => Some plain_lambda) (str "generated_1.tf")
              (str ".tflint.hcl") (Some (str "unknown")) (Some (str "oracle"))
              (mkServer [] [] []) eq_refl eq_refl) as [H _].
  exact H.
Defined.

(** C4, counterexample.  The identifier AWS is not one of the three
    lower-case names, and [/upload] accepts it: the code is generated,
    cleaned for aws, stored and sent. *)
Lemma upper_case_provider_accepted :
  includes supportedProviders (str "AWS") = false /\
  upload (fun _ => Some plain_lambda) (str "generated_1.tf") (str ".tflint.hcl")
         (Some (str "AWS")) None (mkServer [] [] [])
  = (SendText (sanitize (str "aws") plain_lambda),
     mkServer (sanitize (str "aws") plain_lambda) (str "generated_1.tf")
              [(str ".tflint.hcl", tflintConfig);
               (str "generated_1.tf", sanitize (str "aws") plain_lambda)]).
Proof. split; vm_compute; reflexivity. Qed.

(** C10.  When the editing call fails, [/edit] answers with status 500 and
    the state (the current code, the path and the files) is as before;
    and when the state has changed, the editing call has returned the
    code that is now the current one and that was sent. *)
Theorem failed_edit_keeps_state : forall editTerraformCode instruction sv,
  (editTerraformCode (lastGeneratedCode sv) instruction = None ->
   edit editTerraformCode instruction sv
   = (SendStatus 500 (str "Failed to edit code"), sv)) /\
  (snd (edit editTerraformCode instruction sv) <> sv ->
   exists updatedCode,
     editTerraformCode (lastGeneratedCode sv) instruction = Some updatedCode /\
     fst (edit editTerraformCode instruction sv) = SendText updatedCode /\
     lastGeneratedCode (snd (edit editTerraformCode instruction sv)) = updatedCode).
Proof.
  intros editTerraformCode instruction sv. unfold edit.
  destruct (editTerraformCode (lastGeneratedCode sv) instruction) as [updatedCode|].
  - split; [discriminate|]. intros _. exists updatedCode. auto.
  - split; [reflexivity|]. intros H. exfalso. now apply H.
Qed.

(** C10, an instance. *)
Lemma failed_edit_keeps_state_witness :
  (fun _ _ : text => @None text) (str "a = 1") (str "rename a") = None /\
  edit (fun _ _ => None) (str "rename a")
       (mkServer (str "a = 1") (str "generated_1.tf") [(str "generated_1.tf", str "a = 1")])
  = (SendStatus 500 (str "Failed to edit code"),
     mkServer (str "a = 1") (str "generated_1.tf") [(str "generated_1.tf", str "a = 1")]).
Proof.
  split; [reflexivity|].
  destruct (@failed_edit_keeps_state (fun _ _ => None) (str "rename a")
              (mkServer (str "a = 1") (str "generated_1.tf")
                        [(str "generated_1.tf", str "a = 1")])) as [H _].
  apply H. reflexivity.
Defined.

(** * The settings block of a function app *)

(** C9.  The settings block that is left with the assignment of
    LOG_LEVEL, after the packaging entry is stripped, is removed all the
    same: the test for an assignment wants the equals sign right after
    the name. *)
Lemma settings_block_removed_despite_assignment :
  test (re_quoted_attribute "LOG_LEVEL") kept_settings = true /\
  app_settings_block kept_settings = [] /\
  sanitize (str "azure") function_app
  = text_of ["resource `azurerm_function_app` `fn` {"; "  name = `fn`"; ""; "}"].
Proof. repeat split; vm_compute; reflexivity. Qed.

(** * The fences of a reply *)

Lemma exec_chars : forall w p s,
  exec_at (mkRegExp (cat (map Chr w)) false false) p s =
  match strip_prefix w s with
  | Some s' => Some (mkState (adv p w) s' [])
  | None => None
  end.
Proof. intros w p s. unfold exec_at. simpl. now rewrite rmatch_chars. Qed.

Lemma exec_hcl_fence : forall p s,
  exec_at re_hcl_fence p s =
  match strip_prefix (fence ++ str "hcl") s with
  | Some s' => Some (mkState (adv p (fence ++ str "hcl")) s' [])
  | None =>
      match strip_prefix fence s with
      | Some s' => Some (mkState (adv p fence) s' [])
      | None => None
      end
  end.
Proof.
  intros p s. unfold exec_at, re_hcl_fence.
  cbn [source multiline dotAll rmatch]. rewrite !rmatch_chars.
  destruct (strip_prefix (fence ++ str "hcl") s); reflexivity.
Qed.

Lemma starts_with_prefix : forall a b s,
  starts_with (a ++ b) s = true -> starts_with a s = true.
Proof.
  induction a as [|x a IH]; intros b s H; [reflexivity|].
  destruct s as [|y s]; [discriminate|]. simpl in *.
  apply andb_true_iff in H. destruct H as [H1 H2]. rewrite H1. simpl. now apply IH with b.
Qed.

Lemma strip_prefix_length : forall w s s',
  strip_prefix w s = Some s' -> length s = length w + length s'.
Proof.
  intros w s s' H. apply strip_prefix_some in H. subst. apply length_app.
Qed.

Lemma sw_cons : forall x w y s,
  starts_with (x :: w) (y :: s) = char_eqb x y && starts_with w s.
Proof. reflexivity. Qed.

(** What the proofs need of an expression that takes fences off. *)
Section Fences.

Variable R : RegExp.
Hypothesis R_free : prev_free R.
Hypothesis R_starts : forall p s st',
  exec_at R p s = Some st' -> starts_with fence s = true /\ length (rest st') < length s.

Lemma fence_hit : forall s st',
  exec_at R None s = Some st' -> replace s R [] = replace (rest st') R [].
Proof.
  intros s st' H. destruct (R_starts _ _ H) as [_ Hl].
  destruct (@exec_at_suffix _ _ _ _ H) as [w Hw].
  apply (@replace_hit R R_free [] s st' w H Hw).
  intros ->. simpl in Hw. subst s. lia.
Qed.

Lemma fence_miss : forall x s,
  exec_at R None (x :: s) = None -> replace (x :: s) R [] = x :: replace s R [].
Proof. intros x s H. now apply replace_miss. Qed.

Lemma fence_nil : replace [] R [] = [].
Proof.
  apply replace_nil_miss.
  destruct (exec_at R None []) as [st'|] eqn:E; [|reflexivity].
  apply R_starts in E. destruct E as [E _]. discriminate.
Qed.

Lemma fence_other : forall x s,
  char_eqb bt x = false -> replace (x :: s) R [] = x :: replace s R [].
Proof.
  intros x s Hx. apply fence_miss.
  destruct (exec_at R None (x :: s)) as [st'|] eqn:E; [|reflexivity].
  apply R_starts in E. destruct E as [E _]. unfold fence in E.
  rewrite sw_cons, Hx in E. discriminate.
Qed.

Lemma fence_free : forall w s,
  has_char bt w = false -> replace (w ++ s) R [] = w ++ replace s R [].
Proof.
  induction w as [|x w IH]; intros s H; [reflexivity|].
  simpl in H. apply orb_false_iff in H. destruct H as [Hx Hw].
  simpl. rewrite fence_other by exact Hx. now rewrite IH.
Qed.

Lemma fence_free_all : forall w, has_char bt w = false -> replace w R [] = w.
Proof.
  intros w H. rewrite <- (app_nil_r w) at 1. rewrite fence_free by exact H.
  now rewrite fence_nil, app_nil_r.
Qed.

(** Every fence is taken. *)
Hypothesis R_takes : forall s, starts_with fence s = true -> exec_at R None s <> None.

Lemma not_fence_miss : forall s, starts_with fence s = false -> exec_at R None s = None.
Proof.
  intros s H. destruct (exec_at R None s) as [st'|] eqn:E; [|reflexivity].
  apply R_starts in E. destruct E as [E _]. congruence.
Qed.

Lemma occurrences_cons : forall w x s,
  occurrences w (x :: s) = (if starts_with w (x :: s) then 1 else 0) + occurrences w s.
Proof. reflexivity. Qed.

Lemma no_fence_left_bounded : forall n s,
  length s <= n -> occurrences fence (replace s R []) = 0.
Proof.
  induction n as [|n IH]; intros s Hn.
  - destruct s; [|simpl in Hn; lia]. now rewrite fence_nil.
  - destruct (exec_at R None s) as [st'|] eqn:E.
    + rewrite (@fence_hit _ _ E). apply IH. apply R_starts in E. lia.
    + destruct s as [|x s]; [now rewrite fence_nil|].
      rewrite (@fence_miss _ _ E). simpl in Hn.
      assert (Hs : starts_with fence (x :: s) = false).
      { destruct (starts_with fence (x :: s)) eqn:F; [|reflexivity].
        exfalso. now apply (R_takes _ F). }
      rewrite occurrences_cons, IH by lia. rewrite Nat.add_0_r.
      unfold fence in Hs |- *. rewrite sw_cons in Hs |- *.
      destruct (char_eqb bt x) eqn:Hx; [|reflexivity].
      (* [x] is a backquote: at most one more follows it *)
      cbn [andb] in Hs |- *.
      destruct s as [|y s]; [now rewrite fence_nil|].
      rewrite sw_cons in Hs.
      destruct (char_eqb bt y) eqn:Hy.
      * cbn [andb] in Hs.
        assert (Hs' : starts_with fence (y :: s) = false).
        { unfold fence. rewrite sw_cons, Hy. cbn [andb].
          destruct s as [|z s]; [reflexivity|].
          rewrite sw_cons in Hs |- *.
          destruct (char_eqb bt z); [discriminate|reflexivity]. }
        rewrite (@fence_miss _ _ (@not_fence_miss _ Hs')).
        rewrite sw_cons, Hy. cbn [andb].
        destruct s as [|z s]; [now rewrite fence_nil|].
        rewrite sw_cons in Hs.
        assert (Hz : char_eqb bt z = false).
        { destruct (char_eqb bt z); [discriminate|reflexivity]. }
        rewrite (@fence_other _ _ Hz). now rewrite sw_cons, Hz.
      * rewrite (@fence_other _ _ Hy). now rewrite sw_cons, Hy.
Qed.

Lemma no_fence_left : forall s, occurrences fence (replace s R []) = 0.
Proof. intros s. now apply no_fence_left_bounded with (length s). Qed.

End Fences.

Lemma fence_prev_free : prev_free re_fence.
Proof.
  intros p p' s. unfold re_fence. rewrite !exec_chars.
  destruct (strip_prefix fence s); reflexivity.
Qed.

Lemma json_fence_prev_free : prev_free re_json_fence.
Proof.
  intros p p' s. unfold re_json_fence. rewrite !exec_chars.
  destruct (strip_prefix (fence ++ str "json") s); reflexivity.
Qed.

Lemma hcl_fence_prev_free : prev_free re_hcl_fence.
Proof.
  intros p p' s. rewrite !exec_hcl_fence.
  destruct (strip_prefix (fence ++ str "hcl") s); [reflexivity|].
  destruct (strip_prefix fence s); reflexivity.
Qed.

Lemma strip_prefix_starts : forall w s s',
  strip_prefix w s = Some s' -> starts_with w s = true.
Proof.
  intros w s s' H. unfold strip_prefix in H.
  destruct (starts_with w s); [reflexivity|discriminate].
Qed.

Lemma fence_starts : forall p s st',
  exec_at re_fence p s = Some st' ->
  starts_with fence s = true /\ length (rest st') < length s.
Proof.
  intros p s st' H. unfold re_fence in H. rewrite exec_chars in H.
  destruct (strip_prefix fence s) as [s'|] eqn:E; [|discriminate].
  injection H as <-. split; [now apply strip_prefix_starts in E|].
  apply strip_prefix_length in E. simpl in *. lia.
Qed.

Lemma json_fence_starts : forall p s st',
  exec_at re_json_fence p s = Some st' ->
  starts_with fence s = true /\ length (rest st') < length s.
Proof.
  intros p s st' H. unfold re_json_fence in H. rewrite exec_chars in H.
  destruct (strip_prefix (fence ++ str "json") s) as [s'|] eqn:E; [|discriminate].
  injection H as <-. split.
  - apply strip_prefix_starts in E. now apply starts_with_prefix in E.
  - apply strip_prefix_length in E. simpl in *. lia.
Qed.

Lemma hcl_fence_starts : forall p s st',
  exec_at re_hcl_fence p s = Some st' ->
  starts_with fence s = true /\ length (rest st') < length s.
Proof.
  intros p s st' H. rewrite exec_hcl_fence in H.
  destruct (strip_prefix (fence ++ str "hcl") s) as [s'|] eqn:E.
  - injection H as <-. split.
    + apply strip_prefix_starts in E. now apply starts_with_prefix in E.
    + apply strip_prefix_length in E. simpl in *. lia.
  - destruct (strip_prefix fence s) as [s'|] eqn:E'; [|discriminate].
    injection H as <-. split; [now apply strip_prefix_starts in E'|].
    apply strip_prefix_length in E'. simpl in *. lia.
Qed.

Lemma fence_takes : forall s, starts_with fence s = true -> exec_at re_fence None s <> None.
Proof.
  intros s H. unfold re_fence. rewrite exec_chars. unfold strip_prefix. now rewrite H.
Qed.

Lemma hcl_fence_takes : forall s,
  starts_with fence s = true -> exec_at re_hcl_fence None s <> None.
Proof.
  intros s H. rewrite exec_hcl_fence.
  destruct (strip_prefix (fence ++ str "hcl") s); [discriminate|].
  unfold strip_prefix. now rewrite H.
Qed.

(** Occurrences in a part of a text. *)
Lemma starts_with_app_r : forall w a b,
  starts_with w a = true -> starts_with w (a ++ b) = true.
Proof.
  induction w as [|x w IH]; intros a b H; [reflexivity|].
  destruct a as [|y a]; [discriminate|]. simpl in *.
  apply andb_true_iff in H. destruct H as [H1 H2]. rewrite H1. simpl. now apply IH.
Qed.

Lemma occurrences_suffix : forall w a b,
  occurrences w (a ++ b) = 0 -> occurrences w b = 0.
Proof.
  induction a as [|x a IH]; intros b H; [exact H|].
  simpl in H. apply IH. lia.
Qed.

Lemma occurrences_prefix : forall w a b,
  w <> [] -> occurrences w (a ++ b) = 0 -> occurrences w a = 0.
Proof.
  intros w a b Hw. induction a as [|x a IH]; intros H.
  - destruct w; [congruence|reflexivity].
  - change (occurrences w (x :: a))
      with ((if starts_with w (x :: a) then 1 else 0) + occurrences w a).
    change (occurrences w ((x :: a) ++ b))
      with ((if starts_with w ((x :: a) ++ b) then 1 else 0) + occurrences w (a ++ b)) in H.
    destruct (starts_with w (x :: a)) eqn:E.
    + rewrite (starts_with_app_r _ _ b E) in H. lia.
    + rewrite IH by lia. reflexivity.
Qed.

Lemma trim_start_suffix : forall s, exists a, s = a ++ trim_start s.
Proof.
  induction s as [|c s [a IH]]; [now exists []|].
  simpl. destruct (is_space c); [|now exists []].
  exists (c :: a). simpl. now rewrite <- IH.
Qed.

Lemma trim_part : forall s, exists a b, s = a ++ trim s ++ b.
Proof.
  intros s. destruct (trim_start_suffix s) as [a Ha].
  destruct (trim_end_split (trim_start s)) as [q [Hq _]].
  exists a, q. unfold trim. now rewrite <- Hq.
Qed.

Lemma occurrences_trim : forall w s,
  w <> [] -> occurrences w s = 0 -> occurrences w (trim s) = 0.
Proof.
  intros w s Hw H. destruct (trim_part s) as [a [b E]].
  rewrite E in H. apply occurrences_suffix in H.
  now apply occurrences_prefix in H.
Qed.

(** X1.  The reply about the diagram, once cleaned, holds no fence and has no
    white space at its ends, whatever the model wrote. *)
Theorem cleaned_reply_has_no_fence : forall rawGeminiResponse,
  occurrences fence (cleanRawResponse rawGeminiResponse) = 0 /\
  trimmed (cleanRawResponse rawGeminiResponse).
Proof.
  intros raw. unfold cleanRawResponse. split; [|apply trim_is_trimmed].
  apply occurrences_trim; [discriminate|].
  apply (no_fence_left fence_prev_free fence_starts fence_takes).
Qed.

Lemma json_fence_at_start : forall s,
  replace (fence ++ str "json" ++ s) re_json_fence [] = replace s re_json_fence [].
Proof.
  intros s.
  assert (E : exec_at re_json_fence None (fence ++ str "json" ++ s)
              = Some (mkState (adv None (fence ++ str "json")) s [])).
  { unfold re_json_fence. rewrite exec_chars.
    change (fence ++ str "json" ++ s) with ((fence ++ str "json") ++ s).
    now rewrite strip_prefix_app. }
  now rewrite (@fence_hit _ json_fence_prev_free json_fence_starts _ _ E).
Qed.

Lemma fence_at_start : forall s,
  replace (fence ++ s) re_fence [] = replace s re_fence [].
Proof.
  intros s.
  assert (E : exec_at re_fence None (fence ++ s) = Some (mkState (adv None fence) s [])).
  { unfold re_fence. rewrite exec_chars. now rewrite strip_prefix_app. }
  now rewrite (@fence_hit _ fence_prev_free fence_starts _ _ E).
Qed.

Lemma hcl_fence_at_start : forall s,
  replace (fence ++ str "hcl" ++ s) re_hcl_fence [] = replace s re_hcl_fence [].
Proof.
  intros s.
  assert (E : exec_at re_hcl_fence None (fence ++ str "hcl" ++ s)
              = Some (mkState (adv None (fence ++ str "hcl")) s [])).
  { rewrite exec_hcl_fence.
    change (fence ++ str "hcl" ++ s) with ((fence ++ str "hcl") ++ s).
    now rewrite strip_prefix_app. }
  now rewrite (@fence_hit _ hcl_fence_prev_free hcl_fence_starts _ _ E).
Qed.

Lemma starts_with_same : forall a w s,
  starts_with (a ++ w) (a ++ s) = starts_with w s.
Proof.
  induction a as [|x a IH]; intros w s; [reflexivity|].
  simpl. unfold char_eqb at 1. now rewrite N.eqb_refl, IH.
Qed.

Lemma starts_before_fence : forall w body,
  forallb (fun c => negb (char_eqb c bt)) w = true ->
  starts_with w body = false -> starts_with w (body ++ fence) = false.
Proof.
  induction w as [|x w IH]; intros body Hw H; [discriminate|].
  simpl in Hw. apply andb_true_iff in Hw. destruct Hw as [Hx Hw].
  destruct body as [|y body].
  - unfold fence. simpl app. rewrite sw_cons.
    apply negb_true_iff in Hx. now rewrite Hx.
  - simpl app. rewrite sw_cons in H |- *.
    destruct (char_eqb x y); [|reflexivity]. cbn [andb] in H |- *. now apply IH.
Qed.

Lemma json_fence_misses : forall s,
  starts_with (str "json") s = false -> exec_at re_json_fence None (fence ++ s) = None.
Proof.
  intros s H. unfold re_json_fence. rewrite exec_chars. unfold strip_prefix.
  now rewrite starts_with_same, H.
Qed.

Lemma plain_fence_for_hcl : forall s,
  starts_with (str "hcl") s = false ->
  replace (fence ++ s) re_hcl_fence [] = replace s re_hcl_fence [].
Proof.
  intros s H.
  assert (E : exec_at re_hcl_fence None (fence ++ s) = Some (mkState (adv None fence) s [])).
  { rewrite exec_hcl_fence. unfold strip_prefix at 1.
    rewrite starts_with_same, H. now rewrite strip_prefix_app. }
  now rewrite (@fence_hit _ hcl_fence_prev_free hcl_fence_starts _ _ E).
Qed.

Lemma backquotes_then_other : forall R,
  prev_free R ->
  (forall p s st', exec_at R p s = Some st' ->
     starts_with fence s = true /\ length (rest st') < length s) ->
  forall x s, char_eqb bt x = false ->
    replace (bt :: bt :: x :: s) R [] = bt :: bt :: replace (x :: s) R [].
Proof.
  intros R HF HS x s Hx.
  rewrite (@fence_miss _ HF bt (bt :: x :: s)).
  - rewrite (@fence_miss _ HF bt (x :: s)); [reflexivity|].
    apply (@not_fence_miss _ HS). unfold fence. now rewrite !sw_cons, Hx, andb_false_r.
  - apply (@not_fence_miss _ HS). unfold fence. now rewrite !sw_cons, Hx, !andb_false_r.
Qed.

(** X2.  A reply without backquotes of its own comes out of its fence: with
    the fence that names json, with a bare fence (when the text does not
    itself start with json), or with no fence at all, what is handed to
    the parser is the text itself, trimmed. *)
Theorem fenced_reply_unwrapped : forall body,
  has_char bt body = false ->
  cleanRawResponse (fence ++ str "json" ++ body ++ fence) = trim body /\
  (starts_with (str "json") body = false ->
   cleanRawResponse (fence ++ body ++ fence) = trim body) /\
  cleanRawResponse body = trim body.
Proof.
  intros body H. unfold cleanRawResponse.
  pose proof (@fence_free re_json_fence json_fence_prev_free json_fence_starts) as J.
  pose proof (@fence_free re_fence fence_prev_free fence_starts) as F.
  pose proof (@fence_free_all re_json_fence json_fence_prev_free json_fence_starts) as JA.
  pose proof (@fence_free_all re_fence fence_prev_free fence_starts) as FA.
  assert (J3 : replace fence re_json_fence [] = fence) by (vm_compute; reflexivity).
  assert (F3 : replace fence re_fence [] = []) by (vm_compute; reflexivity).
  split; [|split].
  - rewrite json_fence_at_start, J by exact H. rewrite J3.
    rewrite F by exact H. now rewrite F3, app_nil_r.
  - intros Hj.
    assert (E2 : replace (fence ++ body ++ fence) re_json_fence [] = fence ++ body ++ fence).
    { destruct body as [|x body]; [vm_compute; reflexivity|].
      assert (Hx : char_eqb bt x = false).
      { simpl in H. now apply orb_false_iff in H. }
      assert (E : exec_at re_json_fence None (fence ++ (x :: body) ++ fence) = None).
      { apply json_fence_misses. now apply starts_before_fence. }
      change (fence ++ (x :: body) ++ fence) with (bt :: bt :: bt :: x :: body ++ fence) in *.
      rewrite (@fence_miss _ json_fence_prev_free _ _ E).
      rewrite (@backquotes_then_other _ json_fence_prev_free json_fence_starts _ _ Hx).
      change (x :: body ++ fence) with ((x :: body) ++ fence).
      rewrite J by exact H. now rewrite J3. }
    rewrite E2. rewrite fence_at_start. rewrite F by exact H. now rewrite F3, app_nil_r.
  - rewrite JA by exact H. now rewrite FA by exact H.
Qed.

(** X2, an instance. *)
Lemma fenced_reply_unwrapped_witness :
  has_char bt (nl :: str "{`cloudProvider`: `aws`}" ++ [nl]) = false /\
  cleanRawResponse (fence ++ str "json" ++ (nl :: str "{`cloudProvider`: `aws`}" ++ [nl]) ++ fence)
  = str "{`cloudProvider`: `aws`}" /\
  cleanRawResponse (fence ++ (nl :: str "{`cloudProvider`: `aws`}" ++ [nl]) ++ fence)
  = str "{`cloudProvider`: `aws`}".
Proof.
  split; [reflexivity|].
  destruct (@fenced_reply_unwrapped (nl :: str "{`cloudProvider`: `aws`}" ++ [nl]) eq_refl)
    as [H1 [H2 _]].
  split; [exact H1|exact (H2 eq_refl)].
Defined.

(** X3.  The code that [editTerraformCode] returns holds no fence and has no
    white space at its ends, whatever the model wrote. *)
Theorem edited_code_has_no_fence : forall generateContent originalCode userInstruction updatedCode,
  editTerraformCode generateContent originalCode userInstruction = Some updatedCode ->
  occurrences fence updatedCode = 0 /\ trimmed updatedCode.
Proof.
  intros gen code instr out H. unfold editTerraformCode in H.
  destruct (gen (editPrompt code instr)) as [r|]; [|discriminate].
  injection H as <-. split; [|apply trim_is_trimmed].
  apply occurrences_trim; [discriminate|].
  apply (no_fence_left hcl_fence_prev_free hcl_fence_starts hcl_fence_takes).
Qed.

(** X3, an instance. *)
Lemma edited_code_has_no_fence_witness :
  editTerraformCode (fun _ => Some (bt :: fence ++ str "hcl" ++ nl :: str "a = 1" ++ nl :: fence))
                    (str "a = 2") (str "set a to 1")
  = Some (bt :: str "hcl" ++ nl :: str "a = 1") /\
  occurrences fence (bt :: str "hcl" ++ nl :: str "a = 1") = 0.
Proof.
  split; [vm_compute; reflexivity|].
  destruct (@edited_code_has_no_fence
              (fun _ => Some (bt :: fence ++ str "hcl" ++ nl :: str "a = 1" ++ nl :: fence))
              (str "a = 2") (str "set a to 1") (bt :: str "hcl" ++ nl :: str "a = 1") eq_refl) as [H _].
  exact H.
Defined.

(** X4.  A reply of the editing model without backquotes of its own comes out
    of its fence, with hcl after the fence, with a bare fence (when the
    text does not itself start with hcl) or with no fence at all: the
    code that [editTerraformCode] returns is the text, trimmed. *)
Theorem fenced_code_unwrapped :
  forall generateContent originalCode userInstruction body,
    has_char bt body = false ->
    (generateContent (editPrompt originalCode userInstruction)
       = Some (fence ++ str "hcl" ++ body ++ fence) ->
     editTerraformCode generateContent originalCode userInstruction = Some (trim body)) /\
    (starts_with (str "hcl") body = false ->
     generateContent (editPrompt originalCode userInstruction)
       = Some (fence ++ body ++ fence) ->
     editTerraformCode generateContent originalCode userInstruction = Some (trim body)) /\
    (generateContent (editPrompt originalCode userInstruction) = Some body ->
     editTerraformCode generateContent originalCode userInstruction = Some (trim body)).
Proof.
  intros gen code instr body H.
  pose proof (@fence_free re_hcl_fence hcl_fence_prev_free hcl_fence_starts) as F.
  pose proof (@fence_free_all re_hcl_fence hcl_fence_prev_free hcl_fence_starts) as FA.
  assert (F3 : replace fence re_hcl_fence [] = []) by (vm_compute; reflexivity).
  split; [|split].
  - intros E. unfold editTerraformCode. rewrite E. f_equal. f_equal.
    rewrite hcl_fence_at_start. rewrite F by exact H. now rewrite F3, app_nil_r.
  - intros Hh E. unfold editTerraformCode. rewrite E. f_equal. f_equal.
    rewrite plain_fence_for_hcl by now apply starts_before_fence.
    rewrite F by exact H. now rewrite F3, app_nil_r.
  - intros E. unfold editTerraformCode. rewrite E. f_equal. f_equal. now apply FA.
Qed.

(** X4, an instance. *)
Lemma fenced_code_unwrapped_witness :
  has_char bt (nl :: str "a = 1" ++ [nl]) = false /\
  editTerraformCode (fun _ => Some (fence ++ str "hcl" ++ (nl :: str "a = 1" ++ [nl]) ++ fence))
                    (str "a = 2") (str "set a to 1")
  = Some (str "a = 1") /\
  editTerraformCode (fun _ => Some (fence ++ (nl :: str "a = 1" ++ [nl]) ++ fence))
                    (str "a = 2") (str "set a to 1")
  = Some (str "a = 1").
Proof.
  split; [reflexivity|].
  destruct (@fenced_code_unwrapped
              (fun _ => Some (fence ++ str "hcl" ++ (nl :: str "a = 1" ++ [nl]) ++ fence))
              (str "a = 2") (str "set a to 1") (nl :: str "a = 1" ++ [nl]) eq_refl) as [H1 _].
  destruct (@fenced_code_unwrapped
              (fun _ => Some (fence ++ (nl :: str "a = 1" ++ [nl]) ++ fence))
              (str "a = 2") (str "set a to 1") (nl :: str "a = 1" ++ [nl]) eq_refl)
    as [_ [H2 _]].
  split; [exact (H1 eq_refl)|exact (H2 eq_refl eq_refl)].
Defined.

(** * The handlers over a sequence of requests *)


Lemma text_eqb_eq : forall a b, text_eqb a b = true -> a = b.
Proof.
  induction a as [|x a IH]; intros [|y b] H; try discriminate; [reflexivity|].
  simpl in H. apply andb_true_iff in H. destruct H as [H1 H2].
  apply N.eqb_eq in H1. subst y. f_equal. now apply IH.
Qed.


(** What a handler can do to the state. *)
Lemma upload_cases : forall askModel path tflintPath detected query sv,
  (exists cloudProvider code,
     resolve_provider detected query = UseProvider cloudProvider /\
     askModel cloudProvider = Some code /\
     upload askModel path tflintPath detected query sv
     = (SendText (sanitize cloudProvider code),
        mkServer (sanitize cloudProvider code) path
                 ((tflintPath, tflintConfig) :: (path, sanitize cloudProvider code) :: disk sv)))
  \/
  (exists r, is_code r = false /\
     upload askModel path tflintPath detected query sv = (r, sv)).
Proof.
  intros askModel path tfl detected query sv. unfold upload.
  destruct (resolve_provider detected query) as [cp|r] eqn:E.
  - unfold generateTerraformFromJson.
    destruct (text_eqb (toLowerCase cp) (str "aws") || text_eqb (toLowerCase cp) (str "azure")
              || text_eqb (toLowerCase cp) (str "gcp")).
    + destruct (askModel cp) as [code|] eqn:Ea.
      * left. exists cp, code. repeat split; reflexivity || assumption.
      * right. eexists. split; [|reflexivity]. reflexivity.
    + right. eexists. split; [|reflexivity]. reflexivity.
  - right. exists r. split; [|reflexivity].
    unfold resolve_provider in E. cbv zeta in E.
    destruct (text_eqb _ (str "unknown") || negb (includes supportedProviders _));
      [|discriminate].
    destruct (truthy _ && includes _ _); [discriminate|].
    destruct (truthy _ && negb _); injection E as <-; reflexivity.
Qed.

Lemma lint_state : forall dirname basename exec sv,
  snd (lint dirname basename exec sv) = sv.
Proof.
  intros. unfold lint.
  destruct (negb (truthy (Some (lastTfFilePath sv)))); [reflexivity|].
  cbv zeta. destruct (error _); reflexivity.
Qed.

Lemma estimate_state : forall dirname exec sv,
  snd (estimateCost dirname exec sv) = sv.
Proof.
  intros. unfold estimateCost.
  destruct (negb (truthy (Some (lastTfFilePath sv)))); [reflexivity|].
  cbv zeta. destruct (error _); reflexivity.
Qed.

Lemma serve_cons : forall dirname basename rq rqs sv,
  serve dirname basename (rq :: rqs) sv =
  (fst (handle dirname basename rq sv)
     :: fst (serve dirname basename rqs (snd (handle dirname basename rq sv))),
   snd (serve dirname basename rqs (snd (handle dirname basename rq sv)))).
Proof.
  intros. cbn [serve]. destruct (handle dirname basename rq sv) as [r sv1].
  cbn [fst snd]. now destruct (serve dirname basename rqs sv1).
Qed.




Lemma serve_path : forall dirname basename rqs,
  Forall fresh_paths rqs ->
  forall sv,
    lastTfFilePath (snd (serve dirname basename rqs sv)) = [] <->
    lastTfFilePath sv = [] /\ uploaded rqs (fst (serve dirname basename rqs sv)) = false.
Proof.
  intros dirname basename rqs H.
  induction H as [|rq rqs Hrq _ IH]; intros sv.
  - cbn. tauto.
  - rewrite serve_cons. cbn [fst snd]. rewrite IH.
    unfold uploaded. cbn [combine existsb fst snd].
    fold (uploaded rqs (fst (serve dirname basename rqs (snd (handle dirname basename rq sv))))).
    destruct rq as [ask path tfl d q|gen instr|ex|ex]; cbn [handle is_upload andb orb].
    + destruct Hrq as [Hp _].
      destruct (upload_cases ask path tfl d q sv) as [[cp [code [_ [_ E]]]]|[r [Hr E]]];
        rewrite E; cbn [fst snd lastTfFilePath is_code orb].
      * split; [intros [A _]; contradiction | intros [_ A]; discriminate].
      * rewrite Hr. cbn [orb]. tauto.
    + unfold edit.
      destruct (editTerraformCode gen (lastGeneratedCode sv) instr);
        cbn [fst snd lastTfFilePath]; tauto.
    + rewrite lint_state. tauto.
    + rewrite estimate_state. tauto.
Qed.

(** X6.  [/lint] and [/estimate-cost] answer 400, whatever the shell would
    say, as long as no upload has been answered with code; once one
    has, they never answer 400 again, whatever comes after. *)
Theorem tools_wait_for_upload : forall dirname basename rqs exec,
  Forall fresh_paths rqs ->
  (uploaded rqs (fst (serve dirname basename rqs start)) = false ->
   lint dirname basename exec (snd (serve dirname basename rqs start))
   = (SendStatus 400 (str "No Terraform file for linting."),
      snd (serve dirname basename rqs start)) /\
   estimateCost dirname exec (snd (serve dirname basename rqs start))
   = (SendStatus 400 (str "No Terraform file for cost estimation."),
      snd (serve dirname basename rqs start))) /\
  (uploaded rqs (fst (serve dirname basename rqs start)) = true ->
   forall body,
     fst (lint dirname basename exec (snd (serve dirname basename rqs start)))
       <> SendStatus 400 body /\
     fst (estimateCost dirname exec (snd (serve dirname basename rqs start)))
       <> SendStatus 400 body).
Proof.
  intros dirname basename rqs exec H.
  pose proof (serve_path dirname basename H start) as P.
  split; intros U.
  - assert (E : lastTfFilePath (snd (serve dirname basename rqs start)) = []).
    { apply P. split; [reflexivity|exact U]. }
    unfold lint, estimateCost. rewrite E. split; reflexivity.
  - assert (E : lastTfFilePath (snd (serve dirname basename rqs start)) <> []).
    { intros A. apply P in A. destruct A as [_ A]. congruence. }
    intros body. unfold lint, estimateCost.
    destruct (lastTfFilePath (snd (serve dirname basename rqs start))) as [|x p];
      [congruence|].
    cbn [truthy negb]. cbv zeta.
    split.
    + destruct (error _); cbn [fst]; discriminate.
    + destruct (error _); cbn [fst]; discriminate.
Qed.

(** X6, an instance. *)
Lemma tools_wait_for_upload_witness :
  Forall fresh_paths
    [Edit (fun _ => Some (str "a = 0")) (str "start"); Lint (fun _ => mkExec false [] [])] /\
  lint (fun p => p) (fun p => p) (fun _ => mkExec false [] [])
       (snd (serve (fun p => p) (fun p => p)
          [Edit (fun _ => Some (str "a = 0")) (str "start");
           Lint (fun _ => mkExec false [] [])] start))
  = (SendStatus 400 (str "No Terraform file for linting."),
     mkServer (str "a = 0") [] []).
Proof.
  assert (F : Forall fresh_paths
    [Edit (fun _ => Some (str "a = 0")) (str "start"); Lint (fun _ => mkExec false [] [])]).
  { repeat constructor. }
  split; [exact F|].
  destruct (@tools_wait_for_upload (fun p => p) (fun p => p) _ (fun _ => mkExec false [] []) F)
    as [A _].
  destruct (A eq_refl) as [B _]. exact B.
Defined.

(** * The provider of an upload *)


Lemma lower_char_idem : forall c, lower_char (lower_char c) = lower_char c.
Proof.
  intros c. unfold lower_char.
  destruct (N.leb 65 c && N.leb c 90)%N eqn:E; [|now rewrite E].
  apply andb_true_iff in E. destruct E as [E1 E2].
  apply N.leb_le in E1. apply N.leb_le in E2.
  assert (F : (N.leb 65 (c + 32) && N.leb (c + 32) 90)%N = false).
  { apply andb_false_iff. right. apply N.leb_gt. lia. }
  now rewrite F.
Qed.

Lemma toLowerCase_idem : forall s, toLowerCase (toLowerCase s) = toLowerCase s.
Proof.
  intros s. unfold toLowerCase. rewrite map_map. apply map_ext. apply lower_char_idem.
Qed.




(** X8.  The provider read off the diagram wins over the query parameter:
    when it is, in lower case, one of the three supported providers, the
    parameter is not looked at, supported or not. *)
Theorem diagram_provider_wins : forall detected query,
  includes supportedProviders (provider_token detected) = true ->
  resolve_provider detected query = UseProvider (provider_token detected).
Proof.
  intros detected query H. unfold resolve_provider. cbv zeta.
  unfold provider_token in *.
  destruct detected as [[|x d]|]; try discriminate.
  cbn [truthy value_of] in *. rewrite H. cbn [negb orb].
  destruct (text_eqb (toLowerCase (x :: d)) (str "unknown")) eqn:E; [|reflexivity].
  apply text_eqb_eq in E. rewrite E in H. discriminate.
Qed.

(** X8, an instance. *)
Lemma diagram_provider_wins_witness :
  includes supportedProviders (provider_token (Some (str "Azure"))) = true /\
  resolve_provider (Some (str "Azure")) (Some (str "oracle")) = UseProvider (str "azure").
Proof.
  split; [reflexivity|].
  exact (@diagram_provider_wins (Some (str "Azure")) (Some (str "oracle")) eq_refl).
Defined.

Lemma truthy_lower : forall o, truthy (option_map toLowerCase o) = truthy o.
Proof. intros [[|x s]|]; reflexivity. Qed.

Lemma value_lower : forall o,
  toLowerCase (value_of (option_map toLowerCase o)) = toLowerCase (value_of o).
Proof. intros [s|]; [apply toLowerCase_idem|reflexivity]. Qed.

(** X9.  The resolution of the provider does not depend on the case of the
    letters, in the diagram or in the query parameter. *)
Theorem provider_case_insensitive : forall detected query,
  resolve_provider (option_map toLowerCase detected) (option_map toLowerCase query)
  = resolve_provider detected query.
Proof.
  intros detected query. unfold resolve_provider. cbv zeta.
  rewrite !truthy_lower, !value_lower. reflexivity.
Qed.

(** * The current code *)

Lemma trimmed_nil : trimmed [].
Proof. split; reflexivity. Qed.

Lemma sanitize_trimmed : forall cloudProvider code, trimmed (sanitize cloudProvider code).
Proof.
  intros. unfold sanitize, final_cleanups, collapse_and_trim. apply trim_is_trimmed.
Qed.

Lemma handle_trimmed : forall dirname basename rq sv,
  trimmed (lastGeneratedCode sv) ->
  trimmed (lastGeneratedCode (snd (handle dirname basename rq sv))).
Proof.
  intros dirname basename rq sv Hs. destruct rq as [ask path tfl d q|gen instr|ex|ex].
  - cbn [handle].
    destruct (upload_cases ask path tfl d q sv) as [[cp [code [_ [_ E]]]]|[r [_ E]]];
      rewrite E; cbn [snd lastGeneratedCode]; [apply sanitize_trimmed|exact Hs].
  - cbn [handle]. unfold edit, editTerraformCode.
    destruct (gen _) as [u|]; cbn [snd lastGeneratedCode]; [apply trim_is_trimmed|exact Hs].
  - cbn [handle]. now rewrite lint_state.
  - cbn [handle]. now rewrite estimate_state.
Qed.

(** X10.  Whatever the requests and whatever the model answers, the current
    code has no white space at its ends, and so has every code that an
    upload or an edit sends. *)
Theorem current_code_is_trimmed : forall dirname basename rqs,
  trimmed (lastGeneratedCode (snd (serve dirname basename rqs start))) /\
  (forall rq code,
     In (rq, SendText code) (combine rqs (fst (serve dirname basename rqs start))) ->
     match rq with
     | Upload _ _ _ _ _ | Edit _ _ => trimmed code
     | _ => True
     end).
Proof.
  intros dirname basename rqs.
  assert (G : forall sv, trimmed (lastGeneratedCode sv) ->
    trimmed (lastGeneratedCode (snd (serve dirname basename rqs sv))) /\
    (forall rq code,
       In (rq, SendText code) (combine rqs (fst (serve dirname basename rqs sv))) ->
       match rq with
       | Upload _ _ _ _ _ | Edit _ _ => trimmed code
       | _ => True
       end)).
  { induction rqs as [|rq rqs IH]; intros sv Hs.
    - split; [exact Hs|]. intros rq code [].
    - rewrite serve_cons. cbn [fst snd combine].
      destruct (IH _ (@handle_trimmed dirname basename rq sv Hs)) as [A B].
      split; [exact A|].
      intros rq' code [E|Hin]; [|now apply B].
      injection E as <- E.
      destruct rq as [ask path tfl d q|gen instr|ex|ex]; try exact I.
      + cbn [handle] in E.
        destruct (upload_cases ask path tfl d q sv) as [[cp [c [_ [_ U]]]]|[r [Hr U]]];
          rewrite U in E; cbn [fst] in E.
        * injection E as <-. apply sanitize_trimmed.
        * rewrite E in Hr. discriminate.
      + cbn [handle] in E. unfold edit, editTerraformCode in E.
        destruct (gen _) as [u|]; cbn [fst] in E; [|discriminate].
        injection E as <-. apply trim_is_trimmed. }
  apply G. apply trimmed_nil.
Qed.

(** * The shape of the cleaned code *)

Lemma stable_tail : forall x s, stable (x :: s) -> stable s.
Proof. intros x s H. now apply (@stable_suffix [x] s). Qed.

Lemma stable_no_three_feeds : forall s, stable s -> occurrences [nl; nl; nl] s = 0.
Proof.
  induction s as [|x s IH]; intros H; [reflexivity|].
  rewrite occurrences_cons, (IH (stable_tail H)), Nat.add_0_r.
  destruct (starts_with [nl; nl; nl] (x :: s)) eqn:E; [|reflexivity].
  exfalso. apply starts_with_split in E. cbn [length skipn app] in E.
  specialize (H [] (x :: s) eq_refl). rewrite E in H.
  assert (B : blank_run (nl :: nl :: nl :: skipn 2 s) = true) by reflexivity.
  specialize (H B). cbn in H. discriminate.
Qed.

(** X11.  The cleaned code, for every provider and every generated code, has
    no white space at its ends, and every run of empty lines in it is one
    empty line followed by visible text: a line feed followed by white
    space that holds another line feed is two line feeds and no more.
    So there are never three line feeds in a row, no line of white space
    only, and no indented line right after an empty line. *)
Theorem cleaned_code_normal_form : forall cloudProvider terraformCode,
  trimmed (sanitize cloudProvider terraformCode) /\
  stable (sanitize cloudProvider terraformCode) /\
  occurrences [nl; nl; nl] (sanitize cloudProvider terraformCode) = 0.
Proof.
  intros p code.
  assert (S : stable (sanitize p code)).
  { unfold sanitize, final_cleanups, collapse_and_trim.
    apply stable_trim. now apply collapse_stable_bounded with (n := length (fix_interpolations
      (provider_cleanups p (generic_cleanups code)))). }
  split; [|split; [exact S|now apply stable_no_three_feeds]].
  unfold sanitize, final_cleanups, collapse_and_trim. apply trim_is_trimmed.
Qed.

(** * Steps that only delete *)

Lemma subsequence_nil : forall s, subsequence [] s.
Proof. induction s; constructor; assumption. Qed.

Lemma subsequence_refl : forall s, subsequence s s.
Proof. induction s; constructor; assumption. Qed.

Lemma subsequence_app : forall a b c d,
  subsequence a b -> subsequence c d -> subsequence (a ++ c) (b ++ d).
Proof.
  intros a b c d H. induction H; intros G; simpl.
  - exact G.
  - constructor. now apply IHsubsequence.
  - constructor. now apply IHsubsequence.
Qed.

Lemma subsequence_trans : forall b c, subsequence b c ->
  forall a, subsequence a b -> subsequence a c.
Proof.
  intros b c H. induction H; intros a' G.
  - exact G.
  - inversion G; subst.
    + constructor. now apply IHsubsequence.
    + constructor. now apply IHsubsequence.
  - constructor. now apply IHsubsequence.
Qed.

Lemma subsequence_of_nil : forall a, subsequence a [] -> a = [].
Proof. intros a H. now inversion H. Qed.

Lemma subsequence_length : forall a b, subsequence a b -> length a <= length b.
Proof. intros a b H. induction H; simpl; lia. Qed.

(** A replacement that puts, for each match, a part of the matched text. *)
Section Shrinking.

Variable R : RegExp.
Variable f : match_result -> text.
Hypothesis f_part : forall p s st' i,
  exec_at R p s = Some st' ->
  subsequence (f (result_at i s st')) (firstn (length s - length (rest st')) s).

Lemma scan_subsequence : forall s n p i,
  n <= length s -> subsequence (flat_map (fill f) (scan R n p s i)) (skipn n s).
Proof.
  induction s as [|c s IH]; intros n p i Hn.
  - destruct n; [|simpl in Hn; lia]. rewrite scan_0.
    destruct (exec_at R p []) as [st'|] eqn:E; [|constructor].
    cbn [flat_map fill app]. rewrite app_nil_r.
    apply (f_part _ _ i) in E. exact E.
  - destruct n as [|n].
    + rewrite scan_0. cbn [skipn].
      destruct (exec_at R p (c :: s)) as [st'|] eqn:E.
      * pose proof (f_part _ _ i E) as F.
        assert (L : length (rest st') <= length (c :: s)).
        { destruct (exec_at_suffix _ _ _ E) as [u Hu]. rewrite Hu, length_app. lia. }
        destruct (length (c :: s) - length (rest st')) as [|k] eqn:K.
        -- cbn [flat_map fill]. cbn [firstn] in F.
           rewrite (subsequence_of_nil F). cbn [app]. constructor. apply (IH 0). lia.
        -- cbn [flat_map fill].
           rewrite <- (firstn_skipn (S k) (c :: s)) at 2.
           apply subsequence_app; [exact F|]. cbn [skipn]. apply IH.
           cbn [length] in K, L. lia.
      * cbn [flat_map fill app]. constructor. apply (IH 0). lia.
    + cbn [scan skipn]. apply IH. simpl in Hn. lia.
Qed.

Lemma replace_fn_subsequence : forall s, subsequence (replace_fn s R f) s.
Proof. intros s. unfold replace_fn. apply (@scan_subsequence s 0 None 0). lia. Qed.

End Shrinking.

Lemma remove_subsequence : forall R s, subsequence (replace s R []) s.
Proof.
  intros R s. unfold replace. apply replace_fn_subsequence.
  intros. apply subsequence_nil.
Qed.

Lemma firstn_take_while : forall p s,
  firstn (length s - length (drop_while p s)) s = take_while p s.
Proof.
  intros p s. rewrite <- (take_drop_while p s) at 1 3.
  rewrite length_app, Nat.add_sub. rewrite firstn_app, Nat.sub_diag, firstn_all.
  cbn [firstn]. apply app_nil_r.
Qed.

Lemma collapse_subsequence : forall s, subsequence (collapse_empty_lines s) s.
Proof.
  intros s. unfold collapse_empty_lines, replace. apply replace_fn_subsequence.
  intros p t st' i E. apply exec_empty_lines_some in E. destruct E as [B E].
  rewrite E, firstn_take_while.
  destruct (blank_run_starts _ B) as [u ->].
  unfold blank_run in B. apply andb_true_iff in B. destruct B as [_ B].
  cbn [take_while]. rewrite is_space_nl.
  apply has_nl_split in B. destruct B as [w1 [w2 ->]].
  constructor. change [nl] with ([] ++ [nl]).
  change (w1 ++ nl :: w2) with (w1 ++ [nl] ++ w2).
  apply subsequence_app; [apply subsequence_nil|].
  apply (@subsequence_app [nl] [nl] [] w2); [apply subsequence_refl|apply subsequence_nil].
Qed.

Lemma trim_subsequence : forall s, subsequence (trim s) s.
Proof.
  intros s. destruct (trim_part s) as [a [b E]]. rewrite E at 2.
  change (trim s) with ([] ++ trim s) at 1.
  apply subsequence_app; [apply subsequence_nil|].
  rewrite <- (app_nil_r (trim s)) at 1.
  apply subsequence_app; [apply subsequence_refl|apply subsequence_nil].
Qed.

Lemma app_settings_subsequence : forall b, subsequence (app_settings_block b) b.
Proof.
  intros b. unfold app_settings_block.
  destruct (_ || _); [apply subsequence_nil|apply subsequence_refl].
Qed.

Lemma azure_block_subsequence : forall b, subsequence (azure_function_block b) b.
Proof.
  intros b. unfold azure_function_block.
  eapply subsequence_trans; [|apply replace_fn_subsequence].
  - eapply subsequence_trans; [apply remove_subsequence|].
    eapply subsequence_trans; [apply remove_subsequence|].
    apply remove_subsequence.
  - intros p s st' i E. cbn [result_at m_text]. apply app_settings_subsequence.
Qed.

(** X12.  The removal of the artifact blocks and of the hash attributes, the
    clean-up for Azure, and the collapse of empty lines with the trim
    only delete: what they return is their input with some characters
    left out, nothing added and nothing moved. *)
Theorem deletions_only : forall code,
  subsequence (generic_cleanups code) code /\
  subsequence (provider_cleanups (str "azure") code) code /\
  subsequence (collapse_and_trim code) code /\
  length (collapse_and_trim (provider_cleanups (str "azure") (generic_cleanups code)))
    <= length code.
Proof.
  intros code.
  assert (G : subsequence (generic_cleanups code) code).
  { unfold generic_cleanups, remove_source_code_hashes, remove_archive_files,
      remove_local_files.
    eapply subsequence_trans; [|apply remove_subsequence].
    eapply subsequence_trans; [|apply remove_subsequence].
    apply remove_subsequence. }
  assert (A : forall c, subsequence (provider_cleanups (str "azure") c) c).
  { intros c. change (provider_cleanups (str "azure") c)
      with (replace_fn c re_azure_function (fun m => azure_function_block (m_text m))).
    apply replace_fn_subsequence.
    intros p s st' i E. cbn [result_at m_text]. apply azure_block_subsequence. }
  assert (C : forall c, subsequence (collapse_and_trim c) c).
  { intros c. unfold collapse_and_trim.
    eapply subsequence_trans; [apply collapse_subsequence|apply trim_subsequence]. }
  repeat split; [exact G|apply A|apply C|].
  apply subsequence_length.
  eapply subsequence_trans; [exact G|].
  eapply subsequence_trans; [apply A|]. apply C.
Qed.

(** * What the rewriting of a function block ensures *)

(** ** Matches that end with a line feed leave the last character *)

Lemma cat_ends_with : forall mu da l c st z,
  rmatch mu da (cat (l ++ [Chr c])) k_end st = Some z ->
  exists w, rest st = w ++ c :: rest z.
Proof.
  intros mu da l c. induction l as [|a l IH]; intros st z H.
  - simpl in H. unfold step_char in H. destruct (rest st) as [|x r] eqn:E; [discriminate|].
    destruct (char_eqb c x) eqn:Ex; [|discriminate].
    apply N.eqb_eq in Ex. subst x. injection H as <-. now exists [].
  - simpl app in H. rewrite rmatch_cat_cons in H. apply rmatch_cont in H.
    destruct H as [st1 [[u Hu] H1]]. apply IH in H1. destruct H1 as [w Hw].
    exists (u ++ w). now rewrite Hu, Hw, app_assoc.
Qed.

Section KeepsLast.

Variable R : RegExp.
Variable f : match_result -> text.
Hypothesis ends_nl : forall p s st',
  exec_at R p s = Some st' -> exists w, s = w ++ nl :: rest st'.

Lemma scan_keeps_last : forall c, c <> nl ->
  forall t n p i, n <= length t ->
    exists t', flat_map (fill f) (scan R n p (t ++ [c]) i) = t' ++ [c].
Proof.
  intros c Hc. induction t as [|x t IH]; intros n p i Hn.
  - destruct n; [|simpl in Hn; lia]. simpl app. rewrite scan_0.
    destruct (exec_at R p [c]) as [st'|] eqn:E.
    + exfalso. apply ends_nl in E. destruct E as [w E].
      destruct w as [|y w]; [injection E as E _; congruence|].
      injection E as _ E. destruct w; discriminate.
    + rewrite scan_0.
      destruct (exec_at R (Some c) []) as [st'|] eqn:E'.
      * exfalso. apply ends_nl in E'. destruct E' as [w E']. destruct w; discriminate.
      * now exists [].
  - destruct n as [|n].
    + simpl app. rewrite scan_0.
      destruct (exec_at R p (x :: t ++ [c])) as [st'|] eqn:E.
      * destruct (ends_nl _ _ E) as [w Hw].
        assert (Hr : rest st' <> []).
        { intros Er. rewrite Er in Hw.
          assert (L : last (x :: t ++ [c]) nl = c).
          { change (x :: t ++ [c]) with ((x :: t) ++ [c]). apply last_last. }
          rewrite Hw in L. rewrite last_last in L. congruence. }
        assert (K : length (x :: t ++ [c]) - length (rest st') = S (length w)).
        { rewrite Hw at 1. rewrite length_app. simpl. lia. }
        rewrite K.
        assert (Lw : length w <= length t).
        { assert (L2 : length (x :: t ++ [c]) = length (w ++ nl :: rest st')) by now rewrite <- Hw.
          simpl in L2. rewrite !length_app in L2. simpl in L2.
          destruct (rest st'); [congruence|]. simpl in L2. lia. }
        destruct (IH (length w) (Some x) (S i) Lw) as [t' Ht'].
        cbn [flat_map fill]. rewrite Ht'.
        exists (f (result_at i (x :: t ++ [c]) st') ++ t'). now rewrite app_assoc.
      * destruct (IH 0 (Some x) (S i) (Nat.le_0_l _)) as [t' Ht'].
        cbn [flat_map fill app]. rewrite Ht'. now exists (x :: t').
    + simpl app. cbn [scan]. apply IH. simpl in Hn. lia.
Qed.

Lemma replace_fn_keeps_last : forall c t, c <> nl ->
  exists t', replace_fn (t ++ [c]) R f = t' ++ [c].
Proof.
  intros c t Hc. unfold replace_fn. apply scan_keeps_last; [exact Hc|lia].
Qed.

End KeepsLast.

Lemma attribute_line_ends : forall name p s st',
  exec_at (re_attribute_line name) p s = Some st' -> exists w, s = w ++ nl :: rest st'.
Proof.
  intros name p s st' H. unfold exec_at, re_attribute_line in H.
  cbn [source multiline dotAll] in H.
  change (cat [star space; lit name; star space; lit "="; star space; lazy_star Dot; Chr nl])
    with (cat ([star space; lit name; star space; lit "="; star space; lazy_star Dot] ++ [Chr nl]))
    in H.
  apply cat_ends_with in H. exact H.
Qed.

Lemma inline_code_ends : forall p s st',
  exec_at re_inline_code p s = Some st' -> exists w, s = w ++ nl :: rest st'.
Proof.
  intros p s st' H. unfold exec_at, re_inline_code in H.
  cbn [source multiline dotAll] in H.
  change (cat [star space; lit "inline_code"; star space; Chr lbrace;
               lazy_star any_char; Chr rbrace; Chr nl])
    with (cat ([star space; lit "inline_code"; star space; Chr lbrace;
                lazy_star any_char; Chr rbrace] ++ [Chr nl])) in H.
  apply cat_ends_with in H. exact H.
Qed.

Lemma rbrace_not_nl : rbrace <> nl.
Proof. discriminate. Qed.

Lemma strip_line_keeps_brace : forall name t,
  exists t', replace (t ++ [rbrace]) (re_attribute_line name) [nl] = t' ++ [rbrace].
Proof.
  intros name t. unfold replace.
  apply replace_fn_keeps_last; [apply attribute_line_ends|apply rbrace_not_nl].
Qed.

Lemma strip_inline_keeps_brace : forall t,
  exists t', replace (t ++ [rbrace]) re_inline_code [nl] = t' ++ [rbrace].
Proof.
  intros t. unfold replace.
  apply replace_fn_keeps_last; [apply inline_code_ends|apply rbrace_not_nl].
Qed.

(** ** The insertion before the last closing brace *)

Lemma last_index_absent : forall c Q i found,
  ~ In c Q -> last_index_from [c] Q i found = found.
Proof.
  intros c Q. induction Q as [|x Q IH]; intros i found H; [reflexivity|].
  cbn [last_index_from starts_with].
  assert (E : char_eqb c x = false).
  { destruct (char_eqb c x) eqn:E; [|reflexivity].
    apply N.eqb_eq in E. subst x. exfalso. apply H. now left. }
  rewrite E. cbn [andb]. apply IH. intros Hin. apply H. now right.
Qed.

Lemma last_index_found : forall c P Q i found,
  ~ In c Q ->
  last_index_from [c] (P ++ c :: Q) i found = (i + Z.of_nat (length P))%Z.
Proof.
  intros c P. induction P as [|x P IH]; intros Q i found H.
  - cbn [app last_index_from starts_with length]. unfold char_eqb. rewrite N.eqb_refl.
    cbn [andb]. rewrite last_index_absent by exact H. simpl. lia.
  - cbn [app last_index_from length]. rewrite IH by exact H. lia.
Qed.

Lemma clamp_length : forall (P Q : text), clamp (P ++ Q) (Z.of_nat (length P)) = length P.
Proof.
  intros P Q. unfold clamp. rewrite length_app. lia.
Qed.

Lemma insert_at_last_brace : forall P Q ins,
  ~ In rbrace Q ->
  insert_before_last_brace (P ++ rbrace :: Q) ins = P ++ ins ++ rbrace :: Q.
Proof.
  intros P Q ins H. unfold insert_before_last_brace, lastIndexOf.
  rewrite last_index_found by exact H. cbn [Z.add].
  assert (E : (Z.of_nat (length P) =? -1)%Z = false) by (apply Z.eqb_neq; lia).
  rewrite E. unfold substring, substring_from. rewrite clamp_length.
  assert (C0 : clamp (P ++ rbrace :: Q) 0 = 0) by (unfold clamp; lia).
  rewrite C0. rewrite Nat.max_0_l, Nat.min_0_l, Nat.sub_0_r. cbn [skipn].
  rewrite firstn_app, Nat.sub_diag, firstn_all. cbn [firstn]. rewrite app_nil_r.
  rewrite skipn_app, Nat.sub_diag, skipn_all. reflexivity.
Qed.

(** ** Finding an attribute with a quoted value *)

Lemma search_finds : forall R t,
  (forall p, exec_at R p t <> None) ->
  forall a p i, search_from R p (a ++ t) i <> None.
Proof.
  intros R t H a. induction a as [|x a IH]; intros p i.
  - simpl app. destruct t as [|y t]; cbn [search_from].
    + specialize (H p). destruct (exec_at R p []); [discriminate|contradiction].
    + specialize (H p). destruct (exec_at R p (y :: t)); [discriminate|contradiction].
  - cbn [app search_from]. destruct (exec_at R p (x :: a ++ t)); [discriminate|apply IH].
Qed.

Lemma test_finds : forall R a t,
  (forall p, exec_at R p t <> None) -> test R (a ++ t) = true.
Proof.
  intros R a t H. unfold test, jsmatch.
  pose proof (@search_finds R t H a None 0) as G.
  destruct (search_from R None (a ++ t) 0); [reflexivity|contradiction].
Qed.

Lemma search_found : forall R s p i m,
  search_from R p s i = Some m ->
  exists a t p' st', s = a ++ t /\ exec_at R p' t = Some st'.
Proof.
  intros R s. induction s as [|x s IH]; intros p i m H; cbn [search_from] in H.
  - destruct (exec_at R p []) as [st'|] eqn:E; [|discriminate].
    exists [], [], p, st'. auto.
  - destruct (exec_at R p (x :: s)) as [st'|] eqn:E.
    + exists [], (x :: s), p, st'. auto.
    + apply IH in H. destruct H as [a [t [p' [st' [Hs He]]]]].
      exists (x :: a), t, p', st'. split; [now rewrite Hs|exact He].
Qed.

Lemma test_found : forall R s,
  test R s = true -> exists a t p st', s = a ++ t /\ exec_at R p t = Some st'.
Proof.
  intros R s H. unfold test, jsmatch in H.
  destruct (search_from R None s 0) as [m|] eqn:E; [|discriminate].
  now apply search_found in E.
Qed.

Lemma lazy_run_exists : forall p k w t pr c,
  forallb p w = true -> k (mkState (adv pr w) t c) <> None ->
  lazy_run p k pr (w ++ t) c <> None.
Proof.
  intros p k w. induction w as [|x w IH]; intros t pr c Hw Hk.
  - simpl app. simpl adv in Hk. destruct t as [|y t]; cbn [lazy_run].
    + destruct (k (mkState pr [] c)); [discriminate|contradiction].
    + destruct (k (mkState pr (y :: t) c)); [discriminate|contradiction].
  - simpl in Hw. apply andb_prop in Hw. destruct Hw as [Hx Hw].
    cbn [app lazy_run]. destruct (k (mkState pr (x :: w ++ t) c)); [discriminate|].
    rewrite Hx. apply IH; [exact Hw|]. now rewrite adv_cons in Hk.
Qed.

Lemma lazy_run_result : forall p k s pr c z,
  lazy_run p k pr s c = Some z ->
  exists w t pr', s = w ++ t /\ forallb p w = true /\ k (mkState pr' t c) = Some z.
Proof.
  intros p k s. induction s as [|x s IH]; intros pr c z H; cbn [lazy_run] in H.
  - destruct (k (mkState pr [] c)) eqn:E; [|discriminate].
    exists [], [], pr. injection H as <-. auto.
  - destruct (k (mkState pr (x :: s) c)) eqn:E.
    + exists [], (x :: s), pr. injection H as <-. auto.
    + destruct (p x) eqn:Ex; [|discriminate].
      apply IH in H. destruct H as [w [t [pr' [H1 [H2 H3]]]]].
      exists (x :: w), t, pr'. repeat split; auto.
      * simpl. now rewrite H1.
      * simpl. now rewrite Ex.
Qed.

Lemma greedy_run_alive : forall p k w t pr c,
  forallb p w = true -> k (mkState (adv pr w) t c) <> None ->
  greedy_run p k pr (w ++ t) c <> None.
Proof.
  intros p k w t pr c Hw Hk.
  destruct (k (mkState (adv pr w) t c)) as [z0|] eqn:E; [|contradiction].
  destruct (@greedy_run_exists p k w t pr c z0 Hw E) as [z Hz]. rewrite Hz. discriminate.
Qed.

Lemma dot_is_char : forall mu k st,
  rmatch mu false Dot k st = step_char (fun c => negb (is_line_terminator c)) k st.
Proof. reflexivity. Qed.

(** The opening of an assignment, then a quoted value on one line. *)
Lemma assignment_alive : forall mu da name tl k w1 w2 t pr c,
  forallb is_space w1 = true -> forallb is_space w2 = true ->
  (forall pr', rmatch mu da (cat tl) k (mkState pr' t c) <> None) ->
  rmatch mu da (cat (lit name :: star space :: lit "=" :: star space :: tl)) k
         (mkState pr (str name ++ w1 ++ str "=" ++ w2 ++ t) c) <> None.
Proof.
  intros mu da name tl k w1 w2 t pr c H1 H2 Ht.
  rewrite rmatch_cat_cons, rmatch_lit, strip_prefix_app.
  rewrite rmatch_cat_cons, (@rmatch_star mu da space is_space (space_is_char mu da)).
  apply greedy_run_alive; [exact H1|].
  rewrite rmatch_cat_cons, rmatch_lit, strip_prefix_app.
  rewrite rmatch_cat_cons, (@rmatch_star mu da space is_space (space_is_char mu da)).
  apply greedy_run_alive; [exact H2|]. apply Ht.
Qed.

Lemma quoted_value_alive : forall mu k v t pr c,
  no_line_break v = true ->
  (forall st, k st <> None) ->
  rmatch mu false (cat [Chr dq; lazy_star Dot; Chr dq]) k (mkState pr (dq :: v ++ dq :: t) c)
  <> None.
Proof.
  intros mu k v t pr c Hv Hk.
  rewrite rmatch_cat_cons, rmatch_chr, strip_char_cons.
  rewrite rmatch_cat_cons.
  rewrite (@rmatch_lazy_star mu false Dot (fun c => negb (is_line_terminator c)) (dot_is_char mu)).
  apply lazy_run_exists; [exact Hv|].
  rewrite rmatch_cat_cons, rmatch_chr, strip_char_cons. apply Hk.
Qed.

Lemma has_attr_test : forall name s,
  has_attr name s -> test (re_quoted_attribute name) s = true.
Proof.
  intros name s [a [w1 [w2 [v [c [E [H1 [H2 Hv]]]]]]]]. subst s.
  apply test_finds. intros p. unfold exec_at, re_quoted_attribute.
  cbn [source multiline dotAll].
  apply assignment_alive; [exact H1|exact H2|].
  intros pr'. apply quoted_value_alive; [exact Hv|]. intros st. discriminate.
Qed.

Lemma exec_quoted_attribute : forall name p s st',
  exec_at (re_quoted_attribute name) p s = Some st' ->
  exists w1 w2 v,
    s = str name ++ w1 ++ str "=" ++ w2 ++ dq :: v ++ dq :: rest st' /\
    forallb is_space w1 = true /\ forallb is_space w2 = true /\ no_line_break v = true.
Proof.
  intros name p s st' H. unfold exec_at, re_quoted_attribute in H.
  cbn [source multiline dotAll] in H.
  rewrite rmatch_cat_cons, rmatch_lit in H.
  destruct (strip_prefix (str name) s) as [s1|] eqn:E1; [|discriminate].
  apply strip_prefix_some in E1.
  rewrite rmatch_cat_cons, (@rmatch_star false false space is_space (space_is_char _ _)) in H.
  apply greedy_run_result in H. destruct H as [w1 [t1 [pr1 [E2 [H1 H]]]]].
  rewrite rmatch_cat_cons, rmatch_lit in H.
  destruct (strip_prefix (str "=") t1) as [s2|] eqn:E3; [|discriminate].
  apply strip_prefix_some in E3.
  rewrite rmatch_cat_cons, (@rmatch_star false false space is_space (space_is_char _ _)) in H.
  apply greedy_run_result in H. destruct H as [w2 [t2 [pr2 [E4 [H2 H]]]]].
  rewrite rmatch_cat_cons, rmatch_chr in H.
  destruct (strip_char dq t2) as [s3|] eqn:E5; [|discriminate].
  apply strip_char_some in E5.
  rewrite rmatch_cat_cons in H.
  rewrite (@rmatch_lazy_star false false Dot (fun c => negb (is_line_terminator c))
             (dot_is_char false)) in H.
  apply lazy_run_result in H. destruct H as [v [t3 [pr3 [E6 [Hv H]]]]].
  rewrite rmatch_cat_cons, rmatch_chr in H.
  destruct (strip_char dq t3) as [s4|] eqn:E7; [|discriminate].
  apply strip_char_some in E7. simpl in H. injection H as <-. cbn [rest].
  exists w1, w2, v. subst. repeat split; assumption.
Qed.

Lemma test_has_attr : forall name s,
  test (re_quoted_attribute name) s = true -> has_attr name s.
Proof.
  intros name s H. apply test_found in H. destruct H as [a [t [p [st' [E H]]]]].
  apply exec_quoted_attribute in H. destruct H as [w1 [w2 [v [Et [H1 [H2 Hv]]]]]].
  exists a, w1, w2, v, (rest st'). subst. repeat split; assumption.
Qed.

(** ** An attribute stays when text is inserted before a closing brace *)

Ltac norm_app := repeat (progress (rewrite <- ?app_assoc; cbn [app])).

Lemma app_split_at : forall (X Y P Q : text) (x : char),
  X ++ Y = P ++ x :: Q ->
  (exists l, X = P ++ x :: l /\ Q = l ++ Y) \/
  (exists l, P = X ++ l /\ Y = l ++ x :: Q).
Proof.
  induction X as [|y X IH]; intros Y P Q x H.
  - right. exists P. auto.
  - destruct P as [|p P].
    + simpl in H. injection H as -> H. left. exists X. auto.
    + simpl in H. injection H as -> H. apply IH in H.
      destruct H as [[l [H1 H2]]|[l [H1 H2]]].
      * left. exists l. split; [simpl; now rewrite H1|exact H2].
      * right. exists l. split; [simpl; now rewrite H1|exact H2].
Qed.

Lemma forallb_mid : forall (p : char -> bool) l x l',
  forallb p (l ++ x :: l') = true -> p x = true.
Proof.
  intros p l x l' H. rewrite forallb_app in H. apply andb_prop in H.
  destruct H as [_ H]. simpl in H. now apply andb_prop in H.
Qed.

Lemma space_not_rbrace : forall l l', forallb is_space (l ++ rbrace :: l') = true -> False.
Proof. intros l l' H. apply forallb_mid in H. discriminate. Qed.

Lemma one_not_rbrace : forall (d : char) l l',
  d <> rbrace -> [d] = l ++ rbrace :: l' -> False.
Proof.
  intros d l l' Hd H. destruct l as [|y l].
  - injection H as H _. contradiction.
  - injection H as _ H. destruct l; discriminate.
Qed.

Lemma has_attr_insert : forall name P Q g h,
  ~ In rbrace (str name) -> no_line_break g = true ->
  has_attr name (P ++ rbrace :: Q) ->
  has_attr name (P ++ (g ++ dq :: h) ++ rbrace :: Q).
Proof.
  intros name P Q g h Hname Hg [a [w1 [w2 [v [c [E [H1 [H2 Hv]]]]]]]].
  symmetry in E. apply app_split_at in E.
  destruct E as [[l [Ea EQ]]|[l1 [EP E]]].
  { exists (P ++ (g ++ dq :: h) ++ rbrace :: l), w1, w2, v, c.
    split; [|auto]. rewrite EQ. rewrite <- !app_assoc. reflexivity. }
  apply app_split_at in E. destruct E as [[l [Ea _]]|[l2 [E1 E]]].
  { exfalso. apply Hname. rewrite Ea. apply in_or_app. right. now left. }
  apply app_split_at in E. destruct E as [[l [Ea _]]|[l3 [E2 E]]].
  { exfalso. rewrite Ea in H1. now apply space_not_rbrace in H1. }
  apply app_split_at in E. destruct E as [[l [Ea _]]|[l4 [E3 E]]].
  { exfalso. now apply one_not_rbrace in Ea. }
  apply app_split_at in E. destruct E as [[l [Ea _]]|[l5 [E4 E]]].
  { exfalso. rewrite Ea in H2. now apply space_not_rbrace in H2. }
  change (dq :: v ++ dq :: c) with ([dq] ++ v ++ dq :: c) in E.
  apply app_split_at in E. destruct E as [[l [Ea _]]|[l6 [E5 E]]].
  { exfalso. now apply one_not_rbrace in Ea. }
  apply app_split_at in E. destruct E as [[l [Ea EQ]]|[l7 [E6 E]]].
  { (* the brace is inside the value *)
    exists a, w1, w2, (l6 ++ g), (h ++ rbrace :: l ++ dq :: c).
    split; [|split; [exact H1|split; [exact H2|]]].
    - rewrite EP, E1, E2, E3, E4, E5, EQ. rewrite <- !app_assoc. reflexivity.
    - unfold no_line_break in *. rewrite Ea in Hv. rewrite forallb_app in Hv |- *.
      apply andb_prop in Hv. destruct Hv as [Hv _]. now rewrite Hv, Hg. }
  change (dq :: c) with ([dq] ++ c) in E.
  apply app_split_at in E. destruct E as [[l [Ea _]]|[l8 [E7 E]]].
  { exfalso. now apply one_not_rbrace in Ea. }
  exists a, w1, w2, v, (l8 ++ (g ++ dq :: h) ++ rbrace :: Q).
  split; [|auto].
  rewrite EP, E1, E2, E3, E4, E5, E6, E7. rewrite <- !app_assoc. reflexivity.
Qed.

(** ** The indentation of a located block *)

Lemma indent_of_resource : forall r, blockContentIndent (str "resource" ++ r) = str "  ".
Proof.
  intros r. unfold blockContentIndent, capture_or, jsmatch.
  assert (E : exec_at re_indent None (str "resource" ++ r)
              = Some (mkState (adv None (str "resource")) r [(1, [])])).
  { unfold exec_at, re_indent. cbn [source multiline dotAll].
    rewrite rmatch_cat_cons. cbn [rmatch at_bol prev].
    rewrite rmatch_cat_cons, rmatch_group.
    rewrite (@rmatch_star true false space is_space (space_is_char _ _)).
    rewrite greedy_run_stop by reflexivity.
    cbv beta. unfold set_cap. cbn [prev rest caps].
    rewrite rmatch_cat_cons, rmatch_lit, strip_prefix_app.
    unfold consumed. cbn [rest]. rewrite Nat.sub_diag. reflexivity. }
  destruct (str "resource" ++ r) as [|x s] eqn:Es; [discriminate|].
  cbn [search_from]. rewrite E. reflexivity.
Qed.

Lemma block_starts_with_keyword : forall kind b,
  is_block kind b -> exists r, b = str (keyword_of kind) ++ r.
Proof.
  intros kind b [hdr [body [E [[w1 [w2 [name [w3 [Eh _]]]]] _]]]].
  subst b hdr. eexists. rewrite <- !app_assoc. reflexivity.
Qed.

Lemma block_ends_with_brace : forall kind b,
  is_block kind b -> exists t, b = t ++ [rbrace].
Proof.
  intros kind b [hdr [body [E _]]]. exists (hdr ++ lbrace :: body).
  rewrite E. rewrite <- app_assoc. reflexivity.
Qed.

Lemma in_last : forall (t : text) c, In c (t ++ [c]).
Proof. intros t c. apply in_or_app. right. now left. Qed.

(** ** The function of Google Cloud *)

Lemma inserted_attr : forall name P Q indent pad v,
  forallb is_space pad = true -> no_line_break v = true ->
  has_attr name
    (P ++ (indent ++ str name ++ pad ++ str "=" ++ [32%N] ++ dq :: v ++ [dq; nl]) ++ rbrace :: Q).
Proof.
  intros name P Q indent pad v Hp Hv.
  exists (P ++ indent), pad, [32%N], v, (nl :: rbrace :: Q).
  split; [|auto]. norm_app. reflexivity.
Qed.

Lemma insert_at_end : forall t ins,
  insert_before_last_brace (t ++ [rbrace]) ins = t ++ ins ++ [rbrace].
Proof. intros t ins. apply insert_at_last_brace. intros []. Qed.

Lemma gcp_entry_step : forall t1,
  has_attr "source_archive_url" (t1 ++ [rbrace]) ->
  test (re_quoted_attribute "source_archive_url")
    (if test (re_quoted_attribute "entry_point") (t1 ++ [rbrace]) then t1 ++ [rbrace]
     else insert_before_last_brace (t1 ++ [rbrace])
            (str "  " ++ lines ["entry_point        = `main`"]))
  = true /\
  test (re_quoted_attribute "entry_point")
    (if test (re_quoted_attribute "entry_point") (t1 ++ [rbrace]) then t1 ++ [rbrace]
     else insert_before_last_brace (t1 ++ [rbrace])
            (str "  " ++ lines ["entry_point        = `main`"]))
  = true /\
  exists t',
    (if test (re_quoted_attribute "entry_point") (t1 ++ [rbrace]) then t1 ++ [rbrace]
     else insert_before_last_brace (t1 ++ [rbrace])
            (str "  " ++ lines ["entry_point        = `main`"]))
    = t' ++ [rbrace].
Proof.
  intros t1 A1.
  destruct (test (re_quoted_attribute "entry_point") (t1 ++ [rbrace])) eqn:T.
  - split; [now apply has_attr_test|]. split; [exact T|now exists t1].
  - rewrite insert_at_end. split; [|split].
    + apply has_attr_test.
      apply (@has_attr_insert "source_archive_url" t1 [] (str "  entry_point        = ")
               (str "main" ++ [dq; nl])); [|reflexivity|exact A1].
      vm_compute. intuition discriminate.
    + apply has_attr_test.
      apply (@inserted_attr "entry_point" t1 [] (str "  ") (str "        ") (str "main"));
        reflexivity.
    + exists (t1 ++ str "  " ++ lines ["entry_point        = `main`"]).
      now rewrite <- !app_assoc.
Qed.

(** X13.  For every block of the shape that the scan locates, the rewritten
    function of Google Cloud has a [source_archive_url] and an
    [entry_point] attribute, each with a quoted value on one line, and
    still ends with its closing brace: whatever the block held, the two
    attributes are found by the same tests that decide on their
    insertion, and what is inserted stands before the brace. *)
Theorem gcp_block_gets_source_and_entry : forall block,
  is_block GcpFunction block ->
  test (re_quoted_attribute "source_archive_url") (gcp_function_block block) = true /\
  test (re_quoted_attribute "entry_point") (gcp_function_block block) = true /\
  exists t, gcp_function_block block = t ++ [rbrace].
Proof.
  intros b Hb.
  destruct (block_starts_with_keyword Hb) as [r Er].
  destruct (block_ends_with_brace Hb) as [t Et].
  assert (Hi : blockContentIndent b = str "  ").
  { rewrite Er. apply indent_of_resource. }
  unfold gcp_function_block. cbv zeta. rewrite Hi.
  rewrite Et.
  destruct (strip_line_keeps_brace "source_repository" t) as [t1 ->].
  destruct (strip_line_keeps_brace "build_environment_variables" t1) as [t2 ->].
  destruct (strip_line_keeps_brace "source_archive_bucket" t2) as [t3 ->].
  destruct (strip_line_keeps_brace "source_archive_object" t3) as [t4 ->].
  destruct (test (re_quoted_attribute "source_archive_url") (t4 ++ [rbrace])) eqn:T.
  - apply gcp_entry_step. now apply test_has_attr.
  - rewrite insert_at_end.
    replace (t4 ++ (str "  " ++
               lines ["source_archive_url = `gs://your-dummy-gcp-bucket/dummy-function.zip`"])
             ++ [rbrace])
      with ((t4 ++ str "  " ++
               lines ["source_archive_url = `gs://your-dummy-gcp-bucket/dummy-function.zip`"])
            ++ [rbrace]) by now rewrite <- !app_assoc.
    apply gcp_entry_step. rewrite <- !app_assoc.
    apply (@inserted_attr "source_archive_url" t4 [] (str "  ") [32%N]
             (str "gs://your-dummy-gcp-bucket/dummy-function.zip")); reflexivity.
Qed.

(** X13, an instance. *)
Lemma gcp_block_gets_source_and_entry_witness :
  is_block GcpFunction gcp_block_bare /\
  gcp_function_block gcp_block_bare = gcp_block_filled /\
  test (re_quoted_attribute "source_archive_url") (gcp_function_block gcp_block_bare) = true /\
  test (re_quoted_attribute "entry_point") (gcp_function_block gcp_block_bare) = true.
Proof.
  assert (B : is_block GcpFunction gcp_block_bare).
  { exists (str "resource `google_cloud_function` `fn` "),
           (nl :: str "  name    = `fn`" ++ nl :: str "  runtime = `python39`" ++ [nl]).
    split; [reflexivity|]. split.
    - exists [32%N], [32%N], (str "fn"), [32%N].
      repeat split; try reflexivity; discriminate.
    - vm_compute. intuition discriminate. }
  split; [exact B|]. split; [vm_compute; reflexivity|].
  destruct (@gcp_block_gets_source_and_entry gcp_block_bare B) as [H1 [H2 _]].
  split; [exact H1|exact H2].
Defined.

(** ** The function of AWS *)

Lemma source_code_found : forall a w1 w2 v c,
  forallb is_space w1 = true -> forallb is_space w2 = true -> no_line_break v = true ->
  test re_source_code (a ++ str "source_code" ++ w1 ++ str "=" ++ w2 ++ dq :: v ++ dq :: c)
  = true.
Proof.
  intros a w1 w2 v c H1 H2 Hv. apply test_finds. intros p.
  unfold exec_at, re_source_code. cbn [source multiline dotAll].
  apply assignment_alive; [exact H1|exact H2|].
  intros pr'. rewrite rmatch_cat_cons, rmatch_group. cbn [rmatch].
  match goal with
  | |- match ?x with _ => _ end <> None => destruct x eqn:E; [discriminate|]
  end.
  exfalso. revert E. apply quoted_value_alive; [exact Hv|]. intros st. discriminate.
Qed.

Lemma no_line_break_app : forall a b,
  no_line_break (a ++ b) = no_line_break a && no_line_break b.
Proof. intros a b. unfold no_line_break. apply forallb_app. Qed.

Lemma split_head_no_break : forall c v,
  no_line_break v = true -> no_line_break (split_head c v) = true.
Proof.
  intros c v. induction v as [|x v IH]; intros H; [reflexivity|].
  cbn [split_head]. destruct (char_eqb x c); [reflexivity|].
  unfold no_line_break in *. cbn [forallb] in *.
  apply andb_prop in H. destruct H as [Hx Hv]. rewrite Hx. now apply IH.
Qed.

(** The place of the inserted handler: before the last character. *)
Lemma index_from_spec : forall p s i,
  index_from p s i = (-1)%Z \/
  exists a b, s = a ++ p ++ b /\ index_from p s i = (i + Z.of_nat (length a))%Z.
Proof.
  intros p s. induction s as [|x s IH]; intros i.
  - cbn [index_from]. destruct (starts_with p []) eqn:E; [|now left].
    right. exists [], (skipn (length p) []). split; [now apply starts_with_split|simpl; lia].
  - cbn [index_from]. destruct (starts_with p (x :: s)) eqn:E.
    + right. exists [], (skipn (length p) (x :: s)).
      split; [now apply starts_with_split|simpl; lia].
    + destruct (IH (i + 1)%Z) as [H|[a [b [Hs H]]]]; [now left|].
      right. exists (x :: a), b. split; [simpl; now rewrite Hs|].
      rewrite H. cbn [length]. lia.
Qed.

Lemma insert_inside : forall t ip ins,
  (ip <= Z.of_nat (length t))%Z ->
  exists t',
    substring (t ++ [rbrace]) 0 ip ++ ins ++ substring_from (t ++ [rbrace]) ip
    = t' ++ [rbrace].
Proof.
  intros t ip ins H. unfold substring, substring_from.
  assert (C0 : clamp (t ++ [rbrace]) 0 = 0) by (unfold clamp; lia).
  rewrite C0, Nat.max_0_l, Nat.min_0_l, Nat.sub_0_r. cbn [skipn].
  assert (K : clamp (t ++ [rbrace]) ip <= length t).
  { unfold clamp. rewrite length_app. simpl. lia. }
  set (k := clamp (t ++ [rbrace]) ip) in *.
  exists (firstn k t ++ ins ++ skipn k t).
  rewrite firstn_app, skipn_app.
  replace (k - length t) with 0 by lia. cbn [firstn skipn].
  now rewrite app_nil_r, <- !app_assoc.
Qed.

Lemma search_found_text : forall R s p i m,
  search_from R p s i = Some m ->
  exists a t p' st',
    s = a ++ t /\ exec_at R p' t = Some st' /\
    m_text m = firstn (length t - length (rest st')) t.
Proof.
  intros R s. induction s as [|x s IH]; intros p i m H; cbn [search_from] in H.
  - destruct (exec_at R p []) as [st'|] eqn:E; [|discriminate].
    injection H as <-. exists [], [], p, st'. auto.
  - destruct (exec_at R p (x :: s)) as [st'|] eqn:E.
    + injection H as <-. exists [], (x :: s), p, st'. auto.
    + apply IH in H. destruct H as [a [t [p' [st' [Hs [He Hm]]]]]].
      exists (x :: a), t, p', st'. split; [now rewrite Hs|auto].
Qed.

Lemma cat_ends_with_k : forall mu da l c k st z,
  rmatch mu da (cat (l ++ [Chr c])) k st = Some z ->
  exists st1 w, rest st = w ++ c :: rest st1 /\ k st1 = Some z.
Proof.
  intros mu da l c k. induction l as [|a l IH]; intros st z H.
  - simpl in H. unfold step_char in H. destruct (rest st) as [|x r] eqn:E; [discriminate|].
    destruct (char_eqb c x) eqn:Ex; [|discriminate].
    apply N.eqb_eq in Ex. subst x.
    exists (mkState (Some c) r (caps st)), []. auto.
  - simpl app in H. rewrite rmatch_cat_cons in H. apply rmatch_cont in H.
    destruct H as [st1 [[u Hu] H1]]. apply IH in H1. destruct H1 as [st2 [w [Hw Hk]]].
    exists st2, (u ++ w). split; [now rewrite Hu, Hw, app_assoc|exact Hk].
Qed.

Lemma forallb_not_in : forall (p : char -> bool) (c : char) w,
  p c = false -> forallb p w = true -> ~ In c w.
Proof.
  intros p c w Hc H Hin. rewrite forallb_forall in H. apply H in Hin. congruence.
Qed.

Lemma matched_before : forall (u r : text), firstn (length (u ++ r) - length r) (u ++ r) = u.
Proof. intros u r. apply firstn_app_exact. Qed.

Lemma exec_fn_name_or_role : forall p t st',
  exec_at re_fn_name_or_role p t = Some st' ->
  exists u d, firstn (length t - length (rest st')) t = u ++ [d] /\ d <> rbrace.
Proof.
  intros p t st' H. unfold exec_at, re_fn_name_or_role in H.
  cbn [source multiline dotAll] in H.
  rewrite rmatch_cat_cons, rmatch_group in H.
  rewrite (@rmatch_star false false space is_space (space_is_char _ _)) in H.
  apply greedy_run_result in H. destruct H as [w0 [t0 [pr0 [E0 [H0 H]]]]].
  unfold set_cap in H. cbn [prev rest caps] in H.
  rewrite rmatch_cat_cons, rmatch_group in H. cbn [rmatch] in H.
  match type of H with
  | match ?x with _ => _ end = _ => destruct x as [z|] eqn:EA
  end.
  - (* the function name, which ends with a double quote *)
    injection H as <-.
    change (cat [lit "function_name"; star space; lit "="; star space;
                 Chr dq; lazy_star Dot; Chr dq])
      with (cat ([lit "function_name"; star space; lit "="; star space;
                  Chr dq; lazy_star Dot] ++ [Chr dq])) in EA.
    apply cat_ends_with_k in EA. destruct EA as [st1 [w [Ew Ek]]].
    cbn [rest] in Ew. cbn [rmatch] in Ek. injection Ek as <-. cbn [set_cap rest].
    exists (w0 ++ w), dq. split; [|discriminate].
    rewrite E0, Ew.
    replace (w0 ++ w ++ dq :: rest st1) with (((w0 ++ w) ++ [dq]) ++ rest st1)
      by now rewrite <- !app_assoc.
    apply matched_before.
  - (* the role, which holds no closing brace *)
    rewrite rmatch_cat_cons in H.
    rewrite (@rmatch_star false false space is_space (space_is_char _ _)) in H.
    apply greedy_run_result in H. destruct H as [w1 [t1 [pr1 [E1 [H1 H]]]]].
    rewrite rmatch_cat_cons, rmatch_lit in H.
    destruct (strip_prefix (str "role") t1) as [t2|] eqn:E2; [|discriminate].
    apply strip_prefix_some in E2.
    rewrite rmatch_cat_cons in H.
    rewrite (@rmatch_star false false space is_space (space_is_char _ _)) in H.
    apply greedy_run_result in H. destruct H as [w2 [t3 [pr2 [E3 [H2 H]]]]].
    rewrite rmatch_cat_cons, rmatch_lit in H.
    destruct (strip_prefix (str "=") t3) as [t4|] eqn:E4; [|discriminate].
    apply strip_prefix_some in E4.
    rewrite rmatch_cat_cons in H.
    rewrite (@rmatch_star false false space is_space (space_is_char _ _)) in H.
    apply greedy_run_result in H. destruct H as [w3 [t5 [pr3 [E5 [H3 H]]]]].
    rewrite rmatch_cat_cons in H.
    rewrite (@rmatch_star false false (Cls true [CChar rbrace; CChar nl])
               (cls_matches true [CChar rbrace; CChar nl])
               (fun k st => eq_refl)) in H.
    apply greedy_run_result in H. destruct H as [w4 [t6 [pr4 [E6 [H4 H]]]]].
    cbn [rmatch] in H. injection H as <-. cbn [set_cap rest].
    set (mt := w0 ++ w1 ++ str "role" ++ w2 ++ str "=" ++ w3 ++ w4).
    assert (Et : t = mt ++ t6).
    { unfold mt. subst. now rewrite <- !app_assoc. }
    assert (Hn : ~ In rbrace mt).
    { unfold mt. intros Hin.
      repeat (apply in_app_or in Hin; destruct Hin as [Hin|Hin]).
      - revert Hin. apply (@forallb_not_in is_space); [reflexivity|exact H0].
      - revert Hin. apply (@forallb_not_in is_space); [reflexivity|exact H1].
      - revert Hin. vm_compute. intuition discriminate.
      - revert Hin. apply (@forallb_not_in is_space); [reflexivity|exact H2].
      - revert Hin. vm_compute. intuition discriminate.
      - revert Hin. apply (@forallb_not_in is_space); [reflexivity|exact H3].
      - revert Hin.
        apply (@forallb_not_in (cls_matches true [CChar rbrace; CChar nl]));
          [reflexivity|exact H4]. }
    assert (Hne : mt <> []).
    { unfold mt. destruct w0; [|discriminate]. destruct w1; discriminate. }
    destruct (exists_last Hne) as [u [d Eu]].
    exists u, d. split.
    + rewrite Et, <- Eu. apply matched_before.
    + intros ->. apply Hn. rewrite Eu. apply in_last.
Qed.

Lemma last_char_differs : forall (a u : text) (d c : char) t,
  t ++ [c] = a ++ u ++ [d] -> d <> c -> False.
Proof.
  intros a u d c t E H.
  rewrite app_assoc in E. apply app_inj_tail in E. destruct E as [_ E]. congruence.
Qed.

Lemma handler_place : forall t,
  ((match jsmatch (t ++ [rbrace]) re_fn_name_or_role with
    | Some m => indexOf (t ++ [rbrace]) (m_text m) + Z.of_nat (length (m_text m))
    | None => indexOf (t ++ [rbrace]) [lbrace] + 1
    end) <= Z.of_nat (length t))%Z.
Proof.
  intros t. destruct (jsmatch (t ++ [rbrace]) re_fn_name_or_role) as [m|] eqn:J.
  - unfold jsmatch in J. apply search_found_text in J.
    destruct J as [a [s [p' [st' [Es [He Hm]]]]]].
    destruct (exec_fn_name_or_role _ _ He) as [u [d [Eu Hd]]].
    rewrite <- Hm in Eu.
    assert (Lm : length (m_text m) <= length t).
    { assert (L1 : length (m_text m) <= length (t ++ [rbrace])).
      { rewrite Hm, Es, length_firstn, length_app. lia. }
      rewrite length_app in L1. cbn [length] in L1.
      destruct (Nat.eq_dec (length (m_text m)) (length t + 1)) as [Eq|]; [|lia].
      exfalso.
      (* the match would be the whole text, which ends with the brace *)
      assert (Ea : a = [] /\ rest st' = []).
      { rewrite Hm in Eq. rewrite length_firstn in Eq.
        apply (f_equal (@length char)) in Es. rewrite !length_app in Es.
        cbn [length] in Es. destruct (exec_at_suffix _ _ _ He) as [v Hv].
        apply (f_equal (@length char)) in Hv. rewrite length_app in Hv.
        split; apply length_zero_iff_nil; lia. }
      destruct Ea as [-> Er]. cbn [app] in Es. subst s.
      rewrite Hm, Er in Eu. cbn [length] in Eu. rewrite Nat.sub_0_r, firstn_all in Eu.
      apply (@last_char_differs [] u d rbrace t); [exact Eu|exact Hd]. }
    unfold indexOf.
    destruct (index_from_spec (m_text m) (t ++ [rbrace]) 0) as [H|[x [y [Hs H]]]].
    + rewrite H. lia.
    + rewrite H. destruct y as [|c y].
      * exfalso. rewrite app_nil_r, Eu in Hs.
        apply (@last_char_differs x u d rbrace t); [exact Hs|exact Hd].
      * apply (f_equal (@length char)) in Hs. rewrite !length_app in Hs.
        cbn [length] in Hs. lia.
  - unfold indexOf.
    destruct (index_from_spec [lbrace] (t ++ [rbrace]) 0) as [H|[x [y [Hs H]]]].
    + rewrite H. lia.
    + rewrite H. destruct y as [|c y].
      * exfalso. cbn [app] in Hs.
        apply (@last_char_differs x [] lbrace rbrace t); [exact Hs|discriminate].
      * apply (f_equal (@length char)) in Hs. rewrite !length_app in Hs.
        cbn [length] in Hs. lia.
Qed.

Lemma aws_handler_step : forall t0 V cli,
  no_line_break V = true ->
  exists t1,
    (if test (re_quoted_attribute "handler") (t0 ++ [rbrace]) then t0 ++ [rbrace]
     else substring (t0 ++ [rbrace]) 0
            (match jsmatch (t0 ++ [rbrace]) re_fn_name_or_role with
             | Some m => indexOf (t0 ++ [rbrace]) (m_text m) + Z.of_nat (length (m_text m))
             | None => indexOf (t0 ++ [rbrace]) [lbrace] + 1
             end) ++
          (nl :: cli ++ str "handler          = `" ++ V ++ [dq]) ++
          substring_from (t0 ++ [rbrace])
            (match jsmatch (t0 ++ [rbrace]) re_fn_name_or_role with
             | Some m => indexOf (t0 ++ [rbrace]) (m_text m) + Z.of_nat (length (m_text m))
             | None => indexOf (t0 ++ [rbrace]) [lbrace] + 1
             end))
    = t1 ++ [rbrace] /\
    has_attr "handler" (t1 ++ [rbrace]).
Proof.
  intros t0 V cli HV.
  destruct (test (re_quoted_attribute "handler") (t0 ++ [rbrace])) eqn:T.
  - exists t0. split; [reflexivity|now apply test_has_attr].
  - destruct (@insert_inside t0 _ (nl :: cli ++ str "handler          = `" ++ V ++ [dq])
                (handler_place t0)) as [t1 E].
    exists t1. split; [exact E|]. rewrite <- E.
    eexists (substring (t0 ++ [rbrace]) 0 _ ++ nl :: cli), (str "          "), [32%N], V, _.
    split; [|auto]. norm_app. reflexivity.
Qed.

Lemma aws_source_step : forall t1 placeholderCode,
  has_attr "handler" (t1 ++ [rbrace]) -> no_line_break placeholderCode = true ->
  test (re_quoted_attribute "handler")
    (if test re_source_code (t1 ++ [rbrace]) then t1 ++ [rbrace]
     else insert_before_last_brace (t1 ++ [rbrace])
            (str "  " ++ str "source_code      = `" ++ placeholderCode ++ [dq; nl]))
  = true /\
  test re_source_code
    (if test re_source_code (t1 ++ [rbrace]) then t1 ++ [rbrace]
     else insert_before_last_brace (t1 ++ [rbrace])
            (str "  " ++ str "source_code      = `" ++ placeholderCode ++ [dq; nl]))
  = true /\
  exists t',
    (if test re_source_code (t1 ++ [rbrace]) then t1 ++ [rbrace]
     else insert_before_last_brace (t1 ++ [rbrace])
            (str "  " ++ str "source_code      = `" ++ placeholderCode ++ [dq; nl]))
    = t' ++ [rbrace].
Proof.
  intros t1 ph A1 Hp.
  destruct (test re_source_code (t1 ++ [rbrace])) eqn:T.
  - split; [now apply has_attr_test|]. split; [exact T|now exists t1].
  - rewrite insert_at_end. split; [|split].
    + apply has_attr_test.
      apply (@has_attr_insert "handler" t1 [] (str "  source_code      = ")
               (ph ++ [dq; nl])); [|reflexivity|exact A1].
      vm_compute. intuition discriminate.
    + replace (t1 ++ (str "  " ++ str "source_code      = `" ++ ph ++ [dq; nl]) ++ [rbrace])
        with ((t1 ++ str "  ") ++ str "source_code" ++ str "      " ++ str "=" ++ [32%N]
              ++ dq :: ph ++ dq :: nl :: [rbrace])
        by (norm_app; reflexivity).
      apply source_code_found; [reflexivity|reflexivity|exact Hp].
    + exists (t1 ++ str "  " ++ str "source_code      = `" ++ ph ++ [dq; nl]).
      now rewrite <- !app_assoc.
Qed.

(** X14.  For every block of the shape that the scan locates, and whose
    handler value (or the default, when the block has none) holds no
    line break, the rewritten function of AWS has a [handler] attribute
    with a quoted value on one line and a [source_code] attribute, and
    still ends with its closing brace: whatever else the block held, the
    two attributes are found by the same tests that decide on their
    insertion, and what is inserted stands before the brace. *)
Theorem aws_block_gets_handler_and_source : forall block,
  is_block AwsLambda block ->
  no_line_break (capture_or block re_handler_value (str "handler.handler")) = true ->
  test (re_quoted_attribute "handler") (aws_lambda_block block) = true /\
  test re_source_code (aws_lambda_block block) = true /\
  exists t, aws_lambda_block block = t ++ [rbrace].
Proof.
  intros b Hb HV.
  destruct (block_starts_with_keyword Hb) as [r Er].
  destruct (block_ends_with_brace Hb) as [t Et].
  assert (Hi : blockContentIndent b = str "  ").
  { rewrite Er. apply indent_of_resource. }
  unfold aws_lambda_block. cbv zeta. rewrite Hi.
  set (V := capture_or b re_handler_value (str "handler.handler")) in *.
  set (runtime := capture_or b re_runtime (str "python3.9")).
  assert (E0 : exists t0, replace (replace b (re_attribute_line "filename") [nl])
                                  re_inline_code [nl] = t0 ++ [rbrace]).
  { rewrite Et.
    destruct (strip_line_keeps_brace "filename" t) as [t1 ->].
    destruct (strip_inline_keeps_brace t1) as [t2 ->]. now exists t2. }
  destruct E0 as [t0 ->].
  set (cli := match jsmatch (t0 ++ [rbrace]) re_fn_name_or_role with
              | Some m => match group 1 m with
                          | [] => str "  "
                          | g => g
                          end
              | None => str "  "
              end).
  destruct (@aws_handler_step t0 V cli HV) as [t1 [E1 A1]].
  match goal with
  | |- context [test re_source_code ?m] =>
      assert (Em : m = t1 ++ [rbrace]) by exact E1; rewrite Em
  end.
  apply aws_source_step; [exact A1|].
  destruct (starts_with (str "node") runtime); [|destruct (starts_with (str "python") runtime)];
    rewrite !no_line_break_app;
    rewrite ?(split_head_no_break _ _ HV), ?HV; reflexivity.
Qed.

(** X14, an instance. *)
Lemma aws_block_gets_handler_and_source_witness :
  is_block AwsLambda lambda_block_bare /\
  no_line_break (capture_or lambda_block_bare re_handler_value (str "handler.handler")) = true /\
  test (re_quoted_attribute "handler") (aws_lambda_block lambda_block_bare) = true /\
  test re_source_code (aws_lambda_block lambda_block_bare) = true.
Proof.
  assert (B : is_block AwsLambda lambda_block_bare).
  { exists (str "resource `aws_lambda_function` `fn` "),
           (nl :: str "  function_name = `fn`" ++ nl ::
            str "  runtime       = `nodejs18.x`" ++ [nl]).
    split; [reflexivity|]. split.
    - exists [32%N], [32%N], (str "fn"), [32%N].
      repeat split; try reflexivity; discriminate.
    - vm_compute. intuition discriminate. }
  split; [exact B|]. split; [reflexivity|].
  destruct (@aws_block_gets_handler_and_source lambda_block_bare B eq_refl) as [H1 [H2 _]].
  split; [exact H1|exact H2].
Defined.

(** * The provider clean-up is local *)

Section PrevFreeFn.

Variable R : RegExp.
Hypothesis R_free : prev_free R.
Variable g : text -> text.

Lemma fill_text_scan_indep : forall s n p p' i i',
  flat_map (fill (fun m => g (m_text m))) (scan R n p s i) =
  flat_map (fill (fun m => g (m_text m))) (scan R n p' s i').
Proof.
  induction s as [|x s IH]; intros n p p' i i'.
  - destruct n; [|reflexivity]. rewrite (scan_0 R p [] i), (scan_0 R p' [] i').
    pose proof (R_free p p' []) as H.
    destruct (exec_at R p []) as [st1|], (exec_at R p' []) as [st2|];
      simpl in H; try discriminate; [|reflexivity].
    inversion H as [H1]. cbn [flat_map fill result_at m_text]. now rewrite H1.
  - destruct n; [|apply IH].
    rewrite (scan_0 R p (x :: s) i), (scan_0 R p' (x :: s) i').
    pose proof (R_free p p' (x :: s)) as H.
    destruct (exec_at R p (x :: s)) as [st1|], (exec_at R p' (x :: s)) as [st2|];
      simpl in H; try discriminate.
    + inversion H as [H1]. cbn [flat_map fill result_at m_text]. rewrite H1. f_equal.
      destruct (length (x :: s) - length (rest st2)); cbn [flat_map fill]; [f_equal|];
        apply IH.
    + cbn [flat_map fill]. f_equal. apply IH.
Qed.

Lemma replace_fn_nil_miss :
  exec_at R None [] = None -> replace_fn [] R (fun m => g (m_text m)) = [].
Proof. intros H. unfold replace_fn. rewrite scan_0, H. reflexivity. Qed.

Lemma replace_fn_miss : forall x s,
  exec_at R None (x :: s) = None ->
  replace_fn (x :: s) R (fun m => g (m_text m))
  = x :: replace_fn s R (fun m => g (m_text m)).
Proof.
  intros x s H. unfold replace_fn. rewrite scan_miss by exact H.
  cbn [flat_map fill app]. f_equal. apply fill_text_scan_indep.
Qed.

Lemma replace_fn_hit : forall s st' w,
  exec_at R None s = Some st' -> s = w ++ rest st' -> w <> [] ->
  replace_fn s R (fun m => g (m_text m))
  = g w ++ replace_fn (rest st') R (fun m => g (m_text m)).
Proof.
  intros s st' w He Hs Hw. unfold replace_fn.
  rewrite (@scan_hit R None s 0 st' w He Hs Hw). cbn [flat_map fill m_text]. f_equal.
  apply fill_text_scan_indep.
Qed.

End PrevFreeFn.

Lemma rewrite_decomposes : forall kind g n code,
  length code <= n ->
  blocks_rewritten kind g code
    (replace_fn code (block_regexp kind) (fun m => g (m_text m))).
Proof.
  intros kind g n. induction n as [|n IH]; intros code Hn.
  - destruct code; [|simpl in Hn; lia].
    exists [], []. rewrite replace_fn_nil_miss.
    + repeat split; auto. apply test_block_nil.
    + apply exec_block_none, after_decl_nil.
  - destruct code as [|x s].
    { exists [], []. rewrite replace_fn_nil_miss.
      + repeat split; auto. apply test_block_nil.
      + apply exec_block_none, after_decl_nil. }
    destruct (after_decl kind (x :: s)) as [r|] eqn:Ea.
    + destruct (exec_at (block_regexp kind) None (x :: s)) as [st'|] eqn:Ee;
        [|apply exec_block_none in Ee; congruence].
      pose proof (exec_block kind None (x :: s)) as Er. rewrite Ee, Ea in Er.
      simpl in Er. inversion Er as [Er'].
      apply after_decl_some in Ea. destruct Ea as [b [Es Hb]].
      assert (Hne : b <> []) by (eapply is_block_nonempty; eauto).
      rewrite (@replace_fn_hit _ (block_prev_free kind) g (x :: s) st' b Ee)
        by (rewrite ?Er'; auto).
      rewrite Er'.
      assert (Hlen : length r <= n).
      { apply (f_equal (@length char)) in Es. rewrite length_app in Es. simpl in Es, Hn.
        destruct b; [congruence|]. simpl in Es. lia. }
      destruct (IH r Hlen) as [parts [last [H1 [H2 [H3 H4]]]]].
      exists (([], b) :: parts), last. repeat split.
      * simpl. rewrite Es. rewrite <- app_assoc. f_equal. exact H1.
      * simpl. rewrite <- app_assoc. f_equal. exact H2.
      * constructor; [split; [apply test_block_nil | exact Hb] | exact H3].
      * exact H4.
    + rewrite (@replace_fn_miss _ (block_prev_free kind) g x s)
        by (now apply exec_block_none).
      assert (Hlen : length s <= n) by (simpl in Hn; lia).
      destruct (IH s Hlen) as [parts [last [H1 [H2 [H3 H4]]]]].
      destruct parts as [|[s0 m0] parts].
      * exists [], (x :: last). simpl in *. repeat split; auto.
        -- now rewrite H1.
        -- now rewrite H2.
        -- apply test_block_cons; [now rewrite <- H1 | exact H4].
      * exists ((x :: s0, m0) :: parts), last. simpl in *. repeat split.
        -- now rewrite H1.
        -- now rewrite H2.
        -- pose proof (Forall_inv H3) as [Ht Hb]. pose proof (Forall_inv_tail H3) as Hrest.
           simpl in Ht, Hb.
           constructor; [split; [|exact Hb] | exact Hrest].
           apply test_block_cons; [|exact Ht]. simpl.
           apply (@after_decl_none_prefix kind (x :: s0)
                    (m0 ++ concat (map (fun sm => fst sm ++ snd sm) parts) ++ last)).
           simpl. rewrite <- Ea. f_equal. f_equal. rewrite H1.
           now rewrite <- !app_assoc.
        -- exact H4.
Qed.

(** X15.  The clean-up of each provider changes nothing outside the function
    blocks that its scan locates: the code is made of stretches of text
    without a function declaration, each followed by a located block,
    and the output has the same stretches, with each block replaced by
    what the rewriting of the provider makes of it. *)
Theorem provider_cleanup_is_local : forall code,
  blocks_rewritten AwsLambda aws_lambda_block code (provider_cleanups (str "aws") code) /\
  blocks_rewritten GcpFunction gcp_function_block code (provider_cleanups (str "gcp") code) /\
  blocks_rewritten AzureFunction azure_function_block code
    (provider_cleanups (str "azure") code).
Proof.
  intros code. repeat split.
  - apply (@rewrite_decomposes AwsLambda aws_lambda_block (length code)). lia.
  - apply (@rewrite_decomposes GcpFunction gcp_function_block (length code)). lia.
  - apply (@rewrite_decomposes AzureFunction azure_function_block (length code)). lia.
Qed.

(** * What the final clean-ups keep *)

(** A replacement that puts, for each match, a text with the same
    characters of one class as the matched text. *)
Section Filtered.

Variable keep : char -> bool.
Variable R : RegExp.
Variable f : match_result -> text.
Hypothesis f_same : forall p s st' i,
  exec_at R p s = Some st' ->
  filter keep (f (result_at i s st'))
  = filter keep (firstn (length s - length (rest st')) s).

Lemma scan_filter : forall s n p i,
  n <= length s ->
  filter keep (flat_map (fill f) (scan R n p s i)) = filter keep (skipn n s).
Proof.
  induction s as [|c s IH]; intros n p i Hn.
  - destruct n; [|simpl in Hn; lia]. rewrite scan_0.
    destruct (exec_at R p []) as [st'|] eqn:E; [|reflexivity].
    cbn [flat_map fill app]. rewrite app_nil_r.
    rewrite (f_same _ _ i E). reflexivity.
  - destruct n as [|n].
    + rewrite scan_0. cbn [skipn].
      destruct (exec_at R p (c :: s)) as [st'|] eqn:E.
      * pose proof (f_same _ _ i E) as F.
        assert (L : length (rest st') <= length (c :: s)).
        { destruct (exec_at_suffix _ _ _ E) as [u Hu]. rewrite Hu, length_app. lia. }
        destruct (length (c :: s) - length (rest st')) as [|k] eqn:K.
        -- cbn [flat_map fill]. rewrite filter_app, F. cbn [firstn filter app].
           rewrite (IH 0) by lia. reflexivity.
        -- cbn [flat_map fill]. rewrite filter_app, F.
           rewrite (IH k) by (cbn [length] in K, L; lia).
           rewrite <- filter_app. f_equal.
           change (skipn k s) with (skipn (S k) (c :: s)). apply firstn_skipn.
      * cbn [flat_map fill app filter]. rewrite (IH 0) by lia. reflexivity.
    + cbn [scan skipn]. apply IH. simpl in Hn. lia.
Qed.

Lemma replace_fn_filter : forall s, filter keep (replace_fn s R f) = filter keep s.
Proof. intros s. unfold replace_fn. apply (@scan_filter s 0 None 0). lia. Qed.

End Filtered.

(** A replacement that puts, for each match, a text in which the
    characters of one class of the matched text are found in order. *)
Section Growing.

Variable keep : char -> bool.
Variable R : RegExp.
Variable f : match_result -> text.
Hypothesis f_more : forall p s st' i,
  exec_at R p s = Some st' ->
  subsequence (filter keep (firstn (length s - length (rest st')) s))
              (filter keep (f (result_at i s st'))).

Lemma scan_grows : forall s n p i,
  n <= length s ->
  subsequence (filter keep (skipn n s))
              (filter keep (flat_map (fill f) (scan R n p s i))).
Proof.
  induction s as [|c s IH]; intros n p i Hn.
  - destruct n; [|simpl in Hn; lia]. cbn [skipn filter]. apply subsequence_nil.
  - destruct n as [|n].
    + rewrite scan_0. cbn [skipn].
      destruct (exec_at R p (c :: s)) as [st'|] eqn:E.
      * pose proof (f_more _ _ i E) as F.
        assert (L : length (rest st') <= length (c :: s)).
        { destruct (exec_at_suffix _ _ _ E) as [u Hu]. rewrite Hu, length_app. lia. }
        destruct (length (c :: s) - length (rest st')) as [|k] eqn:K.
        -- cbn [flat_map fill]. rewrite filter_app.
           change (filter keep (c :: s)) with ([] ++ filter keep (c :: s)).
           apply subsequence_app; [apply subsequence_nil|].
           cbn [app filter]. pose proof (IH 0 (Some c) (S i) (Nat.le_0_l _)) as G.
           cbn [skipn] in G. destruct (keep c); [constructor|]; exact G.
        -- cbn [flat_map fill]. rewrite filter_app.
           rewrite <- (firstn_skipn (S k) (c :: s)) at 1. rewrite filter_app.
           apply subsequence_app; [exact F|]. cbn [skipn]. apply IH.
           cbn [length] in K, L. lia.
      * cbn [flat_map fill app filter].
        pose proof (IH 0 (Some c) (S i) (Nat.le_0_l _)) as G. cbn [skipn] in G.
        destruct (keep c); [constructor|]; exact G.
    + cbn [scan skipn]. apply IH. simpl in Hn. lia.
Qed.

Lemma replace_fn_grows : forall s,
  subsequence (filter keep s) (filter keep (replace_fn s R f)).
Proof. intros s. unfold replace_fn. apply (@scan_grows s 0 None 0). lia. Qed.

End Growing.

Section NotSpace.

Variable keep : char -> bool.
Hypothesis keep_space : forall c, is_space c = true -> keep c = false.

Lemma filter_spaces : forall w, forallb is_space w = true -> filter keep w = [].
Proof.
  induction w as [|x w IH]; intros H; [reflexivity|].
  simpl in H. apply andb_prop in H. destruct H as [Hx Hw].
  cbn [filter]. rewrite (keep_space _ Hx). now apply IH.
Qed.

Lemma filter_trim_start : forall s, filter keep (trim_start s) = filter keep s.
Proof.
  induction s as [|x s IH]; [reflexivity|].
  cbn [trim_start]. destruct (is_space x) eqn:E; [|reflexivity].
  cbn [filter]. now rewrite (keep_space _ E).
Qed.

Lemma filter_trim : forall s, filter keep (trim s) = filter keep s.
Proof.
  intros s. unfold trim.
  destruct (trim_end_split (trim_start s)) as [q [E [Hq _]]].
  transitivity (filter keep (trim_start s)); [|apply filter_trim_start].
  assert (G : filter keep (trim_start s)
              = filter keep (trim_end (trim_start s) ++ q)) by now rewrite <- E.
  rewrite G, filter_app, (filter_spaces _ Hq). now rewrite app_nil_r.
Qed.

End NotSpace.

Lemma visible_space : forall c, is_space c = true -> negb (is_space c) = false.
Proof. intros c H. now rewrite H. Qed.

Lemma unbraced_space : forall c,
  is_space c = true -> negb (is_space c) && negb (char_eqb rbrace c) = false.
Proof. intros c H. now rewrite H. Qed.

Lemma collapse_filter : forall keep,
  (forall c, is_space c = true -> keep c = false) ->
  forall s, filter keep (collapse_empty_lines s) = filter keep s.
Proof.
  intros keep Hk s. unfold collapse_empty_lines, replace. apply replace_fn_filter.
  intros p t st' i E. apply exec_empty_lines_some in E. destruct E as [_ E].
  rewrite E, firstn_take_while.
  rewrite (@filter_spaces keep Hk _ (take_while_all is_space t)).
  apply (@filter_spaces keep Hk). reflexivity.
Qed.

(** The two expressions of the repair of interpolations, read off the
    input. *)
Lemma exec_open_path_module : forall p s st',
  exec_at re_open_path_module p s = Some st' ->
  exists w, s = str "${path.module" ++ w ++ rest st' /\ forallb is_space w = true.
Proof.
  intros p s st' H. unfold exec_at, re_open_path_module in H.
  cbn [source multiline dotAll] in H.
  rewrite rmatch_cat_cons, rmatch_lit in H.
  destruct (strip_prefix (str "${path.module") s) as [s1|] eqn:E1; [|discriminate].
  apply strip_prefix_some in E1.
  rewrite rmatch_cat_cons, (@rmatch_star true false space is_space (space_is_char _ _)) in H.
  apply greedy_run_result in H. destruct H as [w [t [pr [E2 [Hw H]]]]].
  rewrite rmatch_cat_cons in H. cbn [rmatch] in H.
  destruct (at_eol true _); [|discriminate].
  injection H as <-. cbn [rest]. exists w. subst. auto.
Qed.

Lemma exec_open_interpolation : forall p s st',
  exec_at re_open_interpolation p s = Some st' ->
  exists e, s = str "${" ++ e ++ nl :: rest st' /\ caps st' = [(1, e)].
Proof.
  intros p s st' H. unfold exec_at, re_open_interpolation in H.
  cbn [source multiline dotAll] in H.
  rewrite rmatch_cat_cons, rmatch_lit in H.
  destruct (strip_prefix (str "${") s) as [s1|] eqn:E1; [|discriminate].
  apply strip_prefix_some in E1.
  rewrite rmatch_cat_cons, rmatch_group in H.
  rewrite (@rmatch_plus false false (not_char rbrace) (not_c rbrace)
             (not_char_is_char _ _ _)) in H.
  destruct s1 as [|x s1']; [discriminate|].
  destruct (not_c rbrace x); [|discriminate].
  apply greedy_run_result in H. destruct H as [w [t [pr [E2 [Hw H]]]]].
  unfold set_cap, consumed in H. cbn [prev rest caps] in H.
  rewrite rmatch_cat_cons, rmatch_chr in H.
  destruct (strip_char nl t) as [t'|] eqn:E3; [|discriminate].
  apply strip_char_some in E3. simpl in H. injection H as <-. cbn [rest caps].
  exists (x :: w). subst. split.
  - reflexivity.
  - f_equal. f_equal.
    apply (firstn_app_exact (x :: w) (nl :: t')).
Qed.

Lemma matched_text : forall (w r : text), firstn (length (w ++ r) - length r) (w ++ r) = w.
Proof. intros w r. apply firstn_app_exact. Qed.

Lemma fix_interpolations_unbraced : forall code,
  unbraced (fix_interpolations code) = unbraced code.
Proof.
  intros code. unfold fix_interpolations, unbraced.
  rewrite replace_fn_filter.
  - unfold replace. apply replace_fn_filter.
    intros p s st' i E. apply exec_open_path_module in E. destruct E as [w [E Hw]].
    rewrite E. rewrite app_assoc, matched_text.
    rewrite filter_app, (@filter_spaces _ unbraced_space _ Hw). reflexivity.
  - intros p s st' i E. apply exec_open_interpolation in E. destruct E as [e [E Hc]].
    unfold group, result_at. cbn [m_caps]. rewrite Hc. cbn [get_cap Nat.eqb].
    rewrite E.
    replace (str "${" ++ e ++ nl :: rest st') with ((str "${" ++ e ++ [nl]) ++ rest st')
      by now rewrite <- !app_assoc.
    rewrite matched_text. rewrite !filter_app.
    rewrite (@filter_trim _ unbraced_space). reflexivity.
Qed.

Lemma fix_interpolations_grows : forall code,
  subsequence (visible code) (visible (fix_interpolations code)).
Proof.
  intros code. unfold fix_interpolations, visible.
  eapply subsequence_trans; [apply replace_fn_grows|].
  - intros p s st' i E. apply exec_open_interpolation in E. destruct E as [e [E Hc]].
    unfold group, result_at. cbn [m_caps]. rewrite Hc. cbn [get_cap Nat.eqb].
    rewrite E.
    replace (str "${" ++ e ++ nl :: rest st') with ((str "${" ++ e ++ [nl]) ++ rest st')
      by now rewrite <- !app_assoc.
    rewrite matched_text. rewrite !filter_app.
    rewrite (@filter_trim _ visible_space).
    apply subsequence_app; [apply subsequence_refl|].
    apply subsequence_app; [apply subsequence_refl|]. apply subsequence_nil.
  - unfold replace. apply replace_fn_grows.
    intros p s st' i E. apply exec_open_path_module in E. destruct E as [w [E Hw]].
    rewrite E. rewrite app_assoc, matched_text.
    rewrite filter_app, (@filter_spaces _ visible_space _ Hw), app_nil_r.
    vm_compute. repeat constructor.
Qed.

(** X16.  The final clean-ups keep the text: the collapse of empty lines and
    the trim drop white space and nothing else, and the repair of
    interpolations drops white space, adds closing braces and does
    nothing else.  The visible characters of the code are all found, in
    order, after the repair, and, closing braces apart, the visible
    characters come out of the final clean-ups as they went in. *)
Theorem final_cleanups_keep_the_text : forall code,
  visible (collapse_and_trim code) = visible code /\
  subsequence (visible code) (visible (fix_interpolations code)) /\
  unbraced (fix_interpolations code) = unbraced code /\
  unbraced (final_cleanups code) = unbraced code.
Proof.
  intros code. split; [|split; [|split]].
  - unfold collapse_and_trim, visible.
    rewrite (@filter_trim _ visible_space). apply (@collapse_filter _ visible_space).
  - apply fix_interpolations_grows.
  - apply fix_interpolations_unbraced.
  - unfold final_cleanups, collapse_and_trim.
    unfold unbraced at 1. rewrite (@filter_trim _ unbraced_space).
    rewrite (@collapse_filter _ unbraced_space). apply fix_interpolations_unbraced.
Qed.
